(* ===== verification/_CoqProject ===== *)
-Q . S2P
Prelude.v
JsString.v
JsValue.v
Json.v
JsonText.v
NumberText.v
Fenced.v
Payload.v
Attempt.v
Async.v
FetchData.v
Requests.v
Concurrency.v
Orchestrator.v
Liveness.v
Backend.v
EventLoop.v
Env.v
Budget.v
