(* ===== verification/Prelude.v ===== *)
(** * A verification development of tourcraft's trip-plan server action

    This library models [src/src/lib/actions/tripPlan.ts], the server-side
    glue of the tourcraft travel planner, and proves what the code
    guarantees. The header lists the program's parts, the file that models
    each part, what the theorems show, and what is left out.

    ** The program
    [tripPlan.ts] has four parts, leaf first:
    - [getNumberOfDays] and the [data] / [headers] objects built three
      times (lines 10-15, 57-76, 88-107, 117-136): the body of a prompt
      request.
    - [fetchData] (lines 17-51): up to three sequential attempts. Each
      attempt sends [axios.post] and extracts
      [res.data?.choices[0]?.message?.content]. If the content starts with
      a backtick, it strips 7 code units in front and 3 behind, then
      deletes every code unit outside braces, brackets, [\w], [\s],
      comma, colon and the double quote. It then runs [JSON.parse] and
      accepts only a non-null object. A failed attempt is logged. After the
      third failure the helper throws the wrapped last error.
    - [generateItinerary], [getBestEateries], [getFaqs] (lines 53-143): the
      same payload under three prompt ids, passed to [fetchData].
    - [generateFullTravelPlan] (lines 145-181): [dbConnect], then one
      [Promise.all] over the three requests and [getPopularDestinations],
      then [uuidv4], [ItineraryModel.create] of the assembled record, and
      the uuid as result. Every error is caught, logged and replaced by the
      generic error.

    ** Files
    - [Prelude] (this file): the [completion] type of JS results (a normal
      value or a thrown error), its bind notation [let* x := c in k] in
      [tp_scope], the hint databases [tp] and [tp_simpl], shared tactics
      and list lemmas.
    - [JsString]: JS strings as lists of UTF-16 code units ([Z]);
      [String.prototype.substring] with its clamping and swapping, the
      regex classes [\w] and [\s], [Array.prototype.join], decimal text
      of integers. The sanitizer of line 32 ([sanitize]) is the ECMA-262
      global replace loop ([regexp_exec] from [lastIndex],
      [collect_matches], [splice]), proved equal to a filter.
    - [JsValue]: JSON values plus [undefined] ([jsval], numbers as exact
      decimals), errors with messages whose engine-written parts are kept
      as their causes, property reads with and without [?.], [ToString]
      (with ECMA-262 [Number::toString]), [== "`"], the [typeof] check,
      and decidable structural equality ([jsval_eq_dec]).
    - [Json]: [JSON.parse] as a recursive descent over code units with fuel;
      [json_fuel_enough] shows the fuel it is given is never spent, and
      [parse_stable] that more fuel never changes an answer.
    - [JsonText]: the JSON text of a value ([json_text], the form of a
      model's answer) and the well-formed values ([json_wfb]); what
      [JSON.parse] returns and what it reads back.
    - [NumberText]: [Number::toString] read back by [JSON.parse]: the
      value of an exact decimal as a rational ([num_value]), the setoid
      [num_eqv] of equal values, and the [Proper] instance saying that
      [num_to_js] depends only on the value.
    - [Payload]: the form record (from the spec: its file is not in the
      sources), the stored [travel_plan] record, [getNumberOfDays] with an
      exact [Math.round], the [replacements], [data] and [headers] objects.
    - [Attempt]: lines 28-39 as [process_response], a pure function of the
      response object, and the behaviour of an attempt on every kind of
      answer.
    - [Async]: an [async] function as a [prog], a finite free monad whose
      nodes are its logs, [uuidv4] calls, awaited external operations
      (answered by the environment, value or rejection) and [Promise.all];
      [prun] is a run with its trace; [finishes Q n p] says that every run
      ends within [n] events in a completion satisfying [Q];
      [ret_after P p] that [p] returns only right after an answer related
      to its result by [P].
    - [FetchData]: [fetchData] as a [prog] ([fetch_loop] recurses on the
      iterations left, [3 - attempt]), and its contract [retry_outcome].
    - [Requests]: the three request functions, in a section over the API
      key ([process.env] is process-wide state read at each call; [Env]
      gives it its value).
    - [Concurrency]: threads (a running program, or one suspended at
      [Promise.all] over child threads), systems (a foreground thread and
      detached background threads), their steps and reachable states. Any
      interleaving and any rejecting child is allowed, which
      over-approximates the Node.js event loop ([EventLoop] proves it), so
      safety holds for every real schedule. [thread_ops] carries a
      contract on the awaited operations to every call of every run
      ([sreach_calls]).
    - [Orchestrator]: [generateFullTravelPlan] as its continuations, and
      [orch_inv]: the foreground is at one of the program points of the
      function ([fg_inv], a state machine), each running branch returns
      only what its own operation answered ([child_prov]), background
      threads never store, and the trace stores at most one well-formed
      record, built from the answers of its branches ([from_answers]).
    - [Liveness]: ranking functions on programs and threads ([pbound],
      [tbound]) that every step lowers, progress of every unfinished
      system, and [sys_finishes]: every run ends within a bound in a state
      where all threads have settled; [sys_finishes_by] is the same for the
      runs whose operations are answered by a given function.
    - [EventLoop]: the schedule Node.js follows. Code runs to completion
      up to an [await] ([settle]), [Promise.all] evaluates its array in
      order and settles on the first rejection or when all elements have
      fulfilled ([join_all]), and each macrotask settles one in-flight
      operation ([estep]). [ereach] gives the runs of a call. Every such
      run is a run of [Concurrency].
    - [Backend]: the four collaborators ([axios.post], [dbConnect],
      [getPopularDestinations], [ItineraryModel.create]) as a typeclass
      [Backend] that answers each operation, with the law
      [ReliableBackend]: model answers are accepted by an attempt and every
      other operation resolves. [days_backend] is an instance; the class
      [FailingPrompt] describes a backend that rejects every answer to one
      prompt, and [down_backend] (the network is down) is an instance.
    - [Env]: [process.env] as a finite map ([process_env]) and the read
      of [process.env.HYPERLEAP_API_KEY!] (lines 75, 106, 135) as
      [hyperleap_api_key]: the string, or [undefined] when unset. The call
      never writes [process.env], so its three reads see one value.
    - [Fenced]: the parser of [Json] on text made only of the code units
      the sanitizer keeps: it returns only [fence_safe] values.
    - [Budget]: how many calls of a kind a run makes. A budget on
      programs, threads and systems that every step spends
      ([tstep_budget]), read off the code of [generateFullTravelPlan].

    ** What the theorems show
    The claims about [tripPlan.ts] are the doc comments marked C1 to C28;
    the other theorems are the library they rest on, or concrete examples
    of the findings.
    - [fetchData] refines its contract and conversely realises it
      ([fetchData_sound], [fetchData_complete]). Every run ends within nine
      events with an object or the wrapped error, so the
      ["Unexpected error"] of line 50 is never thrown
      ([fetchData_finishes]). Its complete runs are exactly the traces of
      the answer sequences the contract allows, with the attempt logs
      around each post ([fetchData_runs]).
    - [generateFullTravelPlan], under every interleaving and every answer
      of its collaborators, calls [ItineraryModel.create] at most once, with
      a record that echoes the form and holds object-valued eateries and
      FAQs ([plan_stored_at_most_once]). It returns the uuid of the record
      it stored ([plan_success_returns_stored_uuid]). It fails only with
      the generic error, never after a partial store
      ([plan_failure_generic]). Each field of the record comes from the
      answer to its own branch and the uuid from [uuidv4()], whatever order
      the branches finish in ([plan_record_from_branches]). A call that
      returned has logged ["Travel plan saved:"] with its uuid, one that
      threw has logged the [catch] line ([plan_logs_outcome]). Every run
      ends within 35 steps with every thread settled and is never stuck
      ([plan_finishes]). Each prompt is posted at most three times, nine
      posts in all, and [dbConnect] and [getPopularDestinations] run at
      most once, counting the branches left in the background
      ([plan_call_bounds]).
    - Against every reliable backend, every run settles within 35 steps
      with the uuid of the one stored record returned
      ([plan_succeeds_with_reliable_backend]). Against a backend that
      rejects every answer to one prompt, every run settles with the
      generic error and nothing stored
      ([plan_fails_with_failing_prompt]).
    - Under the event loop: after the connection, the first macrotask logs
      ["inside"] and ["Attempt 1"] three times in array order and leaves
      all four operations in flight ([plan_event_loop_first_task]); the
      call can throw while the other three requests are in flight and go
      on retrying ([plan_event_loop_rejects_early]). Every run of the loop
      is a run of the interleaving model ([ereach_sreach]), so the
      theorems above hold under the real schedule.
    - The environment: every post of every run, under every interleaving
      and including the retries of branches left in the background, goes
      to the prompt endpoint with one of the three prompt ids and the
      headers built from [HYPERLEAP_API_KEY] ([plan_posts_use_env_key]).
      When the variable is unset, the [!] checks nothing: the posts go out
      with the key header [undefined] ([plan_posts_without_key]).
    - One attempt: plain JSON content is parsed as is, fenced content is
      trimmed by 7 and 3 code units and sanitized, and missing content is a
      [TypeError] ([Attempt]). The JSON text of any well-formed object or
      array is returned as that value ([attempt_json_answer]), and so is a
      fenced one whose text the sanitizer keeps ([attempt_fenced_json]).
      Conversely, whatever the answer, the fenced path returns only such
      values: non-negative whole numbers and strings of kept code units
      ([attempt_fenced_result_safe], on the parser lemmas of [Fenced]). An array content
      holding the JSON text of a value is accepted as that value
      ([attempt_array_of_json]). A number or boolean content throws the
      not-an-object error ([attempt_primitive_content]). Concrete
      examples in [Attempt] show the findings on fixed answers: a
      corrupted price, a short fence, an untagged fence, an array.
    - [getNumberOfDays] is [Math.round] of the day difference
      ([getNumberOfDays_bounds]) and is robust to shifts under half a day
      ([getNumberOfDays_whole_days]).
    - Each request function posts only its own prompt
      ([prompt_request_calls]).
    - Library results the claims rest on: [JSON.parse] terminates
      ([json_fuel_enough]), returns well-formed values ([JSON_parse_wf])
      and reads every well-formed value back from its text
      ([JSON_parse_json_text]), also the text of [Number::toString]
      ([JSON_parse_num_to_js]); the replace loop of line 32 equals the
      filter of the kept code units ([sanitize_replace_loop]).

    ** Bounds and fuel
    [fetch_loop] needs no fuel: it recurses on the three iterations of the
    [for] loop. [JSON_parse] gives the parser [2 * length + 2] units of fuel,
    and [json_fuel_enough] proves that this is enough, because every nested
    call consumes input. The replace loop gets [length + 1] calls of
    [RegExpExec], enough because each match moves [lastIndex] forward
    ([collect_positions]). The bound of 35 steps of [generateFullTravelPlan]
    is the connection, the start of [Promise.all], 10 + 9 + 9 + 1 steps of
    the branches, the settling, and three steps after it; it is an upper
    bound, not reached by every schedule. [getNumberOfDays] divides exactly.
    This agrees with the double division whenever the day difference is
    below about 142,000 years (header of [Payload]).

    ** Not modelled
    The HTTP transport, the database layer, [getPopularDestinations] and
    [uuidv4] are external: their answers are arbitrary values or errors
    chosen by the environment. The engine's wording of its error messages
    is kept as the cause that produced them. Numbers are exact decimals:
    the rounding of long literals to doubles is not modelled. The value of
    a [Date] is its integer time value, and invalid dates (NaN) are left
    out. [console.log] is modelled as the events it emits, not as output.

    ** Plan for the next sittings
    1. A uuid source with a freshness law (an instance of an interface
       like [Backend]), and two concurrent calls in one system storing two
       distinct records; this needs the invariant of [Orchestrator] stated
       per call over a system with several foreground calls.
*)

From stdpp Require Export base list options decidable sets.
From Stdlib Require Export ZArith Lia.

Declare Scope tp_scope.
Delimit Scope tp_scope with tp.
Open Scope tp_scope.

(** ** Completions: the result of evaluating JS code *)

(** A completion is what evaluating an expression or statement of the
    program yields: a normal value, or an abrupt completion that carries the
    thrown error. It is the error monad of the whole development. *)
Inductive completion (E A : Type) : Type :=
| Normal (a : A)
| Abrupt (e : E).
Arguments Normal {E A} a.
Arguments Abrupt {E A} e.

Definition cbind {E A B} (c : completion E A) (f : A -> completion E B) :
  completion E B :=
  match c with
  | Normal a => f a
  | Abrupt e => Abrupt e
  end.

Notation "'let*' x ':=' c 'in' k" := (cbind c (fun x => k))
  (at level 10, x name, c at level 100, k at level 200) : tp_scope.

Create HintDb tp.
Create Rewrite HintDb tp_simpl.

Lemma cbind_normal {E A B} (a : A) (f : A -> completion E B) :
  cbind (Normal a) f = f a.
Proof. reflexivity. Qed.

Lemma cbind_abrupt {E A B} (e : E) (f : A -> completion E B) :
  cbind (Abrupt e) f = Abrupt e.
Proof. reflexivity. Qed.

#[export] Hint Rewrite @cbind_normal @cbind_abrupt : tp_simpl.

Lemma cbind_Normal_inv {E A B} (c : completion E A) (f : A -> completion E B) b :
  cbind c f = Normal b -> exists a, c = Normal a /\ f a = Normal b.
Proof. destruct c; simpl; [eauto | discriminate]. Qed.

Lemma cbind_Abrupt_inv {E A B} (c : completion E A) (f : A -> completion E B) e :
  cbind c f = Abrupt e -> c = Abrupt e \/ exists a, c = Normal a /\ f a = Abrupt e.
Proof. destruct c; simpl; [eauto | intros [= ->]; auto]. Qed.

(** ** Tactics *)

Ltac invc H := inversion H; subst; clear H.

(** [bind_cases] splits every [cbind] over a completion hypothesis into its
    two cases, the common step of the proofs about straight-line code. *)
Ltac bind_cases :=
  repeat match goal with
  | H : cbind ?c _ = Normal _ |- _ =>
      let a := fresh "a" in let Ha := fresh "Hc" in
      apply cbind_Normal_inv in H as (a & Ha & H)
  end.

(** ** Shared list lemmas *)

Lemma filter_bool_app {A} (p : A -> bool) (l1 l2 : list A) :
  List.filter p (l1 ++ l2) = List.filter p l1 ++ List.filter p l2.
Proof. induction l1 as [|x l1 IH]; simpl; [done|]. destruct (p x); simpl; by rewrite IH. Qed.

Lemma filter_bool_all {A} (p : A -> bool) (l : list A) :
  Forall (fun x => p x = true) l -> List.filter p l = l.
Proof. induction 1 as [|x l Hx _ IH]; simpl; [done|]. by rewrite Hx, IH. Qed.

Lemma filter_bool_Forall {A} (p : A -> bool) (l : list A) :
  Forall (fun x => p x = true) (List.filter p l).
Proof.
  induction l as [|x l IH]; simpl; [constructor|].
  destruct (p x) eqn:E; [constructor|]; auto.
Qed.

#[export] Hint Resolve filter_bool_Forall : tp.
#[export] Hint Rewrite @filter_bool_app : tp_simpl.

(** What a trace holds, it still holds when it grows. *)
Lemma elem_of_app_left {A} (x : A) (l1 l2 : list A) : x ∈ l1 -> x ∈ l1 ++ l2.
Proof. intros H. apply elem_of_app. by left. Qed.

#[export] Hint Resolve elem_of_app_left : tp.

(** Every element of a list satisfies [P], or one of them satisfies [Q],
    when each satisfies one of the two. *)
Lemma Forall_or_lookup {A} (P Q : A -> Prop) (l : list A) :
  Forall (fun x => P x \/ Q x) l -> Forall P l \/ exists i x, l !! i = Some x /\ Q x.
Proof.
  induction 1 as [|x l [HP|HQ] Hl [IH|(i & y & Hi & Hy)]]; auto;
    right; [by exists (S i), y|by exists 0%nat, x..].
Qed.
