(* ===== verification/JsString.v ===== *)
(** * JS strings: UTF-16 code units, [substring], [join], the sanitizer

    A JS string is a sequence of UTF-16 code units; it is modelled as a
    [list Z] of code units. [js] reads an ASCII Rocq string as a JS string
    literal. The operations are those of [tripPlan.ts]:
    [String.prototype.substring] (line 31), the regex replace of line 32,
    [Array.prototype.join] on strings (line 67) and the decimal text of an
    integer in a template literal (line 24). The regex replace follows
    the loop of ECMA-262 [RegExp.prototype[@@replace]]; the theorem
    [sanitize_replace_loop] shows that it deletes exactly the code units
    outside the kept class. *)

From S2P Require Import Prelude.
From Stdlib Require String Ascii.
Export String.StringSyntax.

Local Open Scope Z_scope.

Definition jsstr := list Z.

Definition js (s : String.string) : jsstr :=
  map (fun a => Z.of_nat (Ascii.nat_of_ascii a)) (String.list_ascii_of_string s).
Arguments js s%_string_scope.

(** [jsq] reads a literal in which ['] stands for the double quote, to write
    JSON text; [nl] is the line feed. *)
Definition jsq (s : String.string) : jsstr := map (fun c => if c =? 39 then 34 else c)%Z (js s).
Arguments jsq s%_string_scope.
Definition nl : jsstr := [10%Z].


(** ** [String.prototype.substring(start, end)]

    ECMA-262 22.1.3.25 with integer arguments: both positions are clamped
    to [[0, length]], and the smaller one is taken as the start. *)
Definition clamp (lo hi x : Z) : Z := Z.max lo (Z.min x hi).

Definition substring (s : jsstr) (start end_ : Z) : jsstr :=
  let len := Z.of_nat (length s) in
  let final_start := clamp 0 len start in
  let final_end := clamp 0 len end_ in
  let from := Z.min final_start final_end in
  let to := Z.max final_start final_end in
  take (Z.to_nat (to - from)) (drop (Z.to_nat from) s).

(** ** The character classes of the sanitizer's regex *)

(** [\w]: ASCII letters, digits and the underscore (no [u] flag). *)
Definition is_word_char (c : Z) : bool :=
  ((65 <=? c) && (c <=? 90)) || ((97 <=? c) && (c <=? 122))
  || ((48 <=? c) && (c <=? 57)) || (c =? 95).

(** [\s]: ECMA-262 WhiteSpace and LineTerminator code points: TAB, VT, FF,
    ZWNBSP, the Zs category (SPACE, NBSP, U+1680, U+2000-U+200A, U+202F,
    U+205F, U+3000), LF, CR, U+2028 and U+2029. *)
Definition is_js_space (c : Z) : bool :=
  (c =? 9) || (c =? 10) || (c =? 11) || (c =? 12) || (c =? 13) || (c =? 32)
  || (c =? 160) || (c =? 5760) || ((8192 <=? c) && (c <=? 8202))
  || (c =? 8232) || (c =? 8233) || (c =? 8239) || (c =? 8287)
  || (c =? 12288) || (c =? 65279).

(** The code units the negated class of line 32 does NOT match, i.e. the
    ones the replace keeps: braces, brackets, [\w], [\s], comma, double
    quote and colon. *)
Definition keep_char (c : Z) : bool :=
  (c =? 123) || (c =? 125) || (c =? 91) || (c =? 93)
  || is_word_char c || is_js_space c || (c =? 44) || (c =? 34) || (c =? 58).

(** ** [String.prototype.replace] with a global one-unit class and the empty string

    ECMA-262 22.2.6.11 [RegExp.prototype[@@replace]] for a global regex
    whose pattern is a character class (one code unit per match, never
    empty) and the empty replacement: [lastIndex] starts at 0, [RegExpExec]
    is called until it fails, each call matching at the first position at
    or after [lastIndex] and setting [lastIndex] after the match; then the
    text is rebuilt from the pieces between the matches. *)

(** The matcher tried at every position from [i] on
    ([RegExpBuiltinExec], steps 12-13, without the sticky flag). *)
Fixpoint scan (cls : Z -> bool) (r : jsstr) (i : nat) : option nat :=
  match r with
  | [] => None
  | c :: r' => if cls c then Some i else scan cls r' (S i)
  end.

(** [RegExpBuiltinExec(R, S)] for a global regex: fail when [lastIndex]
    is past the end, otherwise the position of the match. *)
Definition regexp_exec (cls : Z -> bool) (s : jsstr) (lastIndex : nat) : option nat :=
  if Nat.ltb (length s) lastIndex then None else scan cls (drop lastIndex s) lastIndex.

(** Steps 11.a-c: the results of the calls of [RegExpExec] until one
    fails, each starting at the [lastIndex] the previous one set. The
    fuel [length s + 1] is enough ([collect_matches_fuel]). *)
Fixpoint collect_matches (fuel : nat) (cls : Z -> bool) (s : jsstr) (lastIndex : nat) : list nat :=
  match fuel with
  | O => []
  | S f =>
      match regexp_exec cls s lastIndex with
      | None => []
      | Some p => p :: collect_matches f cls s (S p)
      end
  end.

(** Steps 14-15: the text between [nextSourcePosition] and each match,
    with the empty replacement, then the rest of the text. *)
Fixpoint splice (s : jsstr) (next : nat) (ps : list nat) : jsstr :=
  match ps with
  | [] => drop next s
  | p :: ps' =>
      if Nat.leb next p then take (p - next) (drop next s) ++ splice s (S p) ps'
      else splice s next ps'
  end.

Definition replace_all_empty (cls : Z -> bool) (s : jsstr) : jsstr :=
  splice s 0 (collect_matches (S (length s)) cls s 0).

(** The positions, from [i] on, of the code units the class matches. *)
Fixpoint match_positions (cls : Z -> bool) (r : jsstr) (i : nat) : list nat :=
  match r with
  | [] => []
  | c :: r' => if cls c then i :: match_positions cls r' (S i) else match_positions cls r' (S i)
  end.

(** Line 32: the global replace by the empty string with the negated
    class, which matches every code unit [keep_char] does not keep. *)
Definition sanitize (s : jsstr) : jsstr := replace_all_empty (fun c => negb (keep_char c)) s.

(** ** [Array.prototype.join] on an array of strings *)
Fixpoint join (sep : jsstr) (xs : list jsstr) : jsstr :=
  match xs with
  | [] => []
  | [x] => x
  | x :: rest => x ++ sep ++ join sep rest
  end.

(** ** Decimal text of integers *)

Definition digit_of (d : Z) : Z := 48 + d.
Definition is_digit (c : Z) : bool := (48 <=? c) && (c <=? 57).

Fixpoint uint_to_js (d : Decimal.uint) : jsstr :=
  match d with
  | Decimal.Nil => []
  | Decimal.D0 d => 48 :: uint_to_js d
  | Decimal.D1 d => 49 :: uint_to_js d
  | Decimal.D2 d => 50 :: uint_to_js d
  | Decimal.D3 d => 51 :: uint_to_js d
  | Decimal.D4 d => 52 :: uint_to_js d
  | Decimal.D5 d => 53 :: uint_to_js d
  | Decimal.D6 d => 54 :: uint_to_js d
  | Decimal.D7 d => 55 :: uint_to_js d
  | Decimal.D8 d => 56 :: uint_to_js d
  | Decimal.D9 d => 57 :: uint_to_js d
  end.

(** The digits [0-9] of a JS string read as a [Decimal.uint]. *)
Fixpoint js_to_uint (s : jsstr) : option Decimal.uint :=
  match s with
  | [] => Some Decimal.Nil
  | c :: r =>
      d ← js_to_uint r;
      match c with
      | 48 => Some (Decimal.D0 d) | 49 => Some (Decimal.D1 d)
      | 50 => Some (Decimal.D2 d) | 51 => Some (Decimal.D3 d)
      | 52 => Some (Decimal.D4 d) | 53 => Some (Decimal.D5 d)
      | 54 => Some (Decimal.D6 d) | 55 => Some (Decimal.D7 d)
      | 56 => Some (Decimal.D8 d) | 57 => Some (Decimal.D9 d)
      | _ => None
      end
  end.

Definition N_to_js (n : N) : jsstr := uint_to_js (N.to_uint n).

(** [`${z}`] for an integer [z]. *)
Definition Z_to_js (z : Z) : jsstr :=
  if z <? 0 then 45 :: N_to_js (Z.to_N (- z)) else N_to_js (Z.to_N z).

(** ** Lemmas *)

Lemma substring_inner (p m q : jsstr) :
  length p = 7%nat -> length q = 3%nat ->
  substring (p ++ m ++ q) 7 (Z.of_nat (length (p ++ m ++ q)) - 3) = m.
Proof.
  intros Hp Hq. unfold substring, clamp. rewrite !length_app, Hp, Hq.
  replace (Z.max 0 (Z.min 7 (Z.of_nat (7 + (length m + 3)))))%Z with 7%Z by lia.
  replace (Z.max 0 (Z.min (Z.of_nat (7 + (length m + 3)) - 3)
            (Z.of_nat (7 + (length m + 3)))))%Z
    with (7 + Z.of_nat (length m))%Z by lia.
  rewrite Z.min_l, Z.max_r by lia.
  replace (Z.to_nat 7) with (length p) by (rewrite Hp; reflexivity).
  rewrite drop_app_length.
  replace (Z.to_nat (7 + Z.of_nat (length m) - 7)) with (length m) by lia.
  apply take_app_length.
Qed.

Lemma scan_Some (cls : Z -> bool) (r : jsstr) (i p : nat) :
  scan cls r i = Some p ->
  exists pre c post, r = pre ++ c :: post /\ p = (i + length pre)%nat /\
    Forall (fun d => cls d = false) pre /\ cls c = true.
Proof.
  revert i. induction r as [|c r IH]; simpl; intros i; [done|].
  destruct (cls c) eqn:Hc.
  - intros [=<-]. exists [], c, r. split_and!; simpl; auto with lia.
  - intros H. destruct (IH _ H) as (pre & d & post & -> & -> & Hpre & Hd).
    exists (c :: pre), d, post. split_and!; simpl; auto with lia.
Qed.

Lemma scan_None (cls : Z -> bool) (r : jsstr) (i : nat) : scan cls r i = None -> Forall (fun d => cls d = false) r.
Proof.
  revert i. induction r as [|c r IH]; simpl; intros i; [done|].
  destruct (cls c) eqn:Hc; [done|]. intros H. constructor; eauto.
Qed.

Lemma filter_unmatched (cls : Z -> bool) (l : jsstr) :
  Forall (fun d => cls d = false) l -> List.filter (fun c => negb (cls c)) l = l.
Proof. intros H. apply filter_bool_all. eapply Forall_impl; [exact H|]. intros d ->. done. Qed.

(** The rebuilt text from [nextSourcePosition = next], when nothing
    between [next] and [lastIndex = i] matches, is the text after [next]
    without the code units the class matches. *)
Lemma splice_collect f (cls : Z -> bool) (s : jsstr) (next i : nat) :
  (next <= i <= length s)%nat -> (length s - i < f)%nat ->
  Forall (fun d => cls d = false) (take (i - next) (drop next s)) ->
  splice s next (collect_matches f cls s i) = List.filter (fun c => negb (cls c)) (drop next s).
Proof.
  revert next i. induction f as [|f IH]; intros next i Hi Hf Hk; [lia|]. simpl.
  unfold regexp_exec. rewrite (proj2 (Nat.ltb_ge _ _)) by lia.
  assert (Hsplit : drop next s = take (i - next) (drop next s) ++ drop i s).
  { rewrite <- (firstn_skipn (i - next) (drop next s)) at 1. f_equal. rewrite drop_drop. f_equal. lia. }
  assert (Hlen : length (take (i - next) (drop next s)) = (i - next)%nat)
    by (rewrite length_take, length_drop; lia).
  destruct (scan cls (drop i s) i) as [p|] eqn:Hs.
  - apply scan_Some in Hs as (pre & c & post & Hd & -> & Hpre & Hc). simpl.
    rewrite (proj2 (Nat.leb_le _ _)) by lia.
    assert (Hl : (i + length pre < length s)%nat).
    { pose proof (f_equal length Hd) as E. rewrite length_drop, length_app in E. simpl in E. lia. }
    rewrite (IH (S (i + length pre)) (S (i + length pre))) by (try lia; by rewrite Nat.sub_diag).
    assert (Hpost : drop (S (i + length pre)) s = post).
    { replace (S (i + length pre)) with (i + length (pre ++ [c]))%nat by (rewrite length_app; simpl; lia).
      rewrite <- drop_drop, Hd. replace (pre ++ c :: post) with ((pre ++ [c]) ++ post) by (by rewrite <- app_assoc).
      apply drop_app_length. }
    rewrite Hpost, Hsplit, Hd, !filter_bool_app, (filter_unmatched cls _ Hk), (filter_unmatched cls _ Hpre).
    simpl. rewrite Hc. simpl.
    replace (i + length pre - next)%nat with (length (take (i - next) (drop next s)) + length pre)%nat by lia.
    rewrite take_app_add, take_app_length, <- app_assoc. done.
  - apply scan_None in Hs. simpl. rewrite Hsplit, filter_bool_app, !filter_unmatched by done. done.
Qed.

Lemma match_positions_app cls l1 l2 i :
  match_positions cls (l1 ++ l2) i = match_positions cls l1 i ++ match_positions cls l2 (i + length l1).
Proof.
  revert i. induction l1 as [|c l1 IH]; intros i; simpl; [by rewrite Nat.add_0_r|].
  rewrite IH. replace (S i + length l1)%nat with (i + S (length l1))%nat by lia. by destruct (cls c).
Qed.

Lemma match_positions_none cls l i : Forall (fun d => cls d = false) l -> match_positions cls l i = [].
Proof. intros H. revert i. induction H as [|c l Hc _ IH]; intros i; simpl; [done|]. by rewrite Hc. Qed.

(** The calls of [RegExpExec] from [lastIndex = i] find every match after
    [i], in order, before the fuel runs out. *)
Lemma collect_positions f cls s i :
  (i <= length s)%nat -> (length s - i < f)%nat ->
  collect_matches f cls s i = match_positions cls (drop i s) i.
Proof.
  revert i. induction f as [|f IH]; intros i Hi Hf; [lia|]. simpl.
  unfold regexp_exec. rewrite (proj2 (Nat.ltb_ge _ _)) by lia.
  destruct (scan cls (drop i s) i) as [p|] eqn:Hs.
  - apply scan_Some in Hs as (pre & c & post & Hd & -> & Hpre & Hc).
    assert (Hl : (i + length pre < length s)%nat).
    { pose proof (f_equal length Hd) as E. rewrite length_drop, length_app in E. simpl in E. lia. }
    rewrite IH by lia. rewrite Hd, match_positions_app, (match_positions_none cls pre i Hpre). simpl. rewrite Hc.
    f_equal. replace (S (i + length pre)) with (i + length (pre ++ [c]))%nat by (rewrite length_app; simpl; lia).
    rewrite <- drop_drop, Hd. replace (pre ++ c :: post) with ((pre ++ [c]) ++ post) by (by rewrite <- app_assoc).
    by rewrite drop_app_length.
  - apply scan_None in Hs. by rewrite match_positions_none.
Qed.

(** The replace loop removes exactly the code units the class matches. *)
Lemma replace_all_empty_filter (cls : Z -> bool) (s : jsstr) :
  replace_all_empty cls s = List.filter (fun c => negb (cls c)) s.
Proof. unfold replace_all_empty. rewrite splice_collect; simpl; auto with lia. Qed.

Lemma sanitize_eq (s : jsstr) : sanitize s = List.filter keep_char s.
Proof.
  unfold sanitize. rewrite replace_all_empty_filter. apply List.filter_ext. intros c. apply negb_involutive.
Qed.

Lemma sanitize_kept (s : jsstr) :
  Forall (fun c => keep_char c = true) s -> sanitize s = s.
Proof. rewrite sanitize_eq. apply filter_bool_all. Qed.

Lemma sanitize_app (s t : jsstr) : sanitize (s ++ t) = sanitize s ++ sanitize t.
Proof. rewrite !sanitize_eq. apply filter_bool_app. Qed.

Lemma sanitize_only_kept (s : jsstr) : Forall (fun c => keep_char c = true) (sanitize s).
Proof. rewrite sanitize_eq. apply filter_bool_Forall. Qed.

(** The global replace of line 32 is the filter of the kept code
    units: its [RegExpExec] loop, started at [lastIndex = 0], finds every
    code unit outside the class, in order, before its fuel runs out, and
    the text rebuilt around them is the text without them. *)
Theorem sanitize_replace_loop (s : jsstr) :
  collect_matches (S (length s)) (fun c => negb (keep_char c)) s 0
    = match_positions (fun c => negb (keep_char c)) s 0 /\
  sanitize s = List.filter keep_char s.
Proof. split; [rewrite collect_positions; simpl; auto with lia|apply sanitize_eq]. Qed.

#[export] Hint Rewrite sanitize_app : tp_simpl.
#[export] Hint Resolve sanitize_only_kept : tp.

Lemma js_to_uint_to_js (d : Decimal.uint) : js_to_uint (uint_to_js d) = Some d.
Proof. induction d; simpl; rewrite ?IHd; reflexivity. Qed.

Lemma uint_to_js_digits (d : Decimal.uint) : Forall (fun c => is_digit c = true) (uint_to_js d).
Proof. induction d; simpl; constructor; auto. Qed.
