(* ===== verification/JsValue.v ===== *)
(** * JS values, errors, property access and [ToString]

    The values the program handles are JSON values plus [undefined]
    ([jsval]); numbers are exact decimals [m * 10^e] ([num]), as JSON text
    writes them. An error is an object with a [name] and a [message]; a
    message the engine writes (V8's texts) is kept as the cause that
    produced it ([engine_msg]), not as its wording.

    The operations are those the code applies to values it did not build:
    [v.key] and [v?.key] (line 28), [v[0] == "`"] (line 30), [ToString]
    (the argument of [JSON.parse], line 33) and
    [typeof v === "object" && v !== null] (line 35). *)

From S2P Require Import Prelude JsString.

Local Open Scope Z_scope.

(** ** Values *)

Record num := Num { num_mant : Z; num_exp : Z }.

#[warnings="-register-all"]
Inductive jsval : Type :=
| JUndef
| JNull
| JBool (b : bool)
| JNum (x : num)
| JStr (s : jsstr)
| JArr (xs : list jsval)
| JObj (props : list (jsstr * jsval)).

(** The induction principle for the nested lists of [JArr] and [JObj]. *)
Section jsval_ind.
Variable P : jsval -> Prop.
Hypothesis HUndef : P JUndef.
Hypothesis HNull : P JNull.
Hypothesis HBool : forall b, P (JBool b).
Hypothesis HNum : forall x, P (JNum x).
Hypothesis HStr : forall s, P (JStr s).
Hypothesis HArr : forall xs, Forall P xs -> P (JArr xs).
Hypothesis HObj : forall ps, Forall (fun kv => P kv.2) ps -> P (JObj ps).

Fixpoint jsval_ind' (v : jsval) : P v :=
  match v with
  | JUndef => HUndef
  | JNull => HNull
  | JBool b => HBool b
  | JNum x => HNum x
  | JStr s => HStr s
  | JArr xs =>
      HArr xs ((fix go (l : list jsval) : Forall P l :=
                  match l with
                  | [] => Forall_nil_2 _
                  | y :: l' => Forall_cons_2 _ _ _ (jsval_ind' y) (go l')
                  end) xs)
  | JObj ps =>
      HObj ps ((fix go (l : list (jsstr * jsval)) : Forall (fun kv => P kv.2) l :=
                  match l with
                  | [] => Forall_nil_2 _
                  | kv :: l' => Forall_cons_2 _ _ _ (jsval_ind' kv.2) (go l')
                  end) ps)
  end.
End jsval_ind.

(** ** Errors *)

(** The causes of the errors the engine raises in this code. *)
Inductive engine_msg : Type :=
| EReadProp (key : jsstr)      (** reading [key] of [undefined] or [null] *)
| ENotFunction (callee : jsstr) (** calling a property that is not a function *)
| ENoPrimitive                 (** [ToPrimitive] found no usable method *)
| EJsonSyntax.                 (** [JSON.parse] on text that is not JSON *)

Inductive msg_part : Type :=
| MLit (s : jsstr)
| MEngine (m : engine_msg).

Record jserror := JsError { err_name : jsstr; err_message : list msg_part }.

Abbreviation jsresult := (completion jserror).

(** [new Error(m)] *)
Definition new_Error (m : list msg_part) : jserror :=
  {| err_name := js "Error"; err_message := m |}.

Definition type_error (m : engine_msg) : jserror :=
  {| err_name := js "TypeError"; err_message := [MEngine m] |}.

Definition syntax_error (m : engine_msg) : jserror :=
  {| err_name := js "SyntaxError"; err_message := [MEngine m] |}.

(** ** Property access *)

Definition nullish (v : jsval) : bool :=
  match v with JUndef | JNull => true | _ => false end.

(** Own-property lookup in a property list (a JS object keeps one property
    per key, see [obj_set]). *)
Fixpoint assoc (k : jsstr) (ps : list (jsstr * jsval)) : option jsval :=
  match ps with
  | [] => None
  | (k', v) :: rest => if bool_decide (k = k') then Some v else assoc k rest
  end.

(** [CreateDataProperty]: overwrite the value of an existing key in place,
    or append a new key at the end. *)
Fixpoint obj_set (ps : list (jsstr * jsval)) (k : jsstr) (v : jsval) :
  list (jsstr * jsval) :=
  match ps with
  | [] => [(k, v)]
  | (k', v') :: rest =>
      if bool_decide (k = k') then (k', v) :: rest else (k', v') :: obj_set rest k v
  end.

(** A canonical array index: ["0"], or digits without a leading zero. *)
Definition array_index (key : jsstr) : option nat :=
  match key with
  | [48] => Some O
  | c :: _ => if (49 <=? c) && (c <=? 57)
              then d ← js_to_uint key; Some (N.to_nat (N.of_uint d))
              else None
  | [] => None
  end.

(** [v[key]] for a [v] that is not nullish. The keys the program reads
    (["choices"], ["0"], ["message"], ["content"], ["days"]) are not
    properties of [Object.prototype], [Array.prototype] or
    [String.prototype], so only own properties and [length] matter. *)
Definition get_prop (v : jsval) (key : jsstr) : jsval :=
  match v with
  | JObj ps => default JUndef (assoc key ps)
  | JArr xs =>
      match array_index key with
      | Some i => default JUndef (xs !! i)
      | None => if bool_decide (key = js "length")
                then JNum (Num (Z.of_nat (length xs)) 0) else JUndef
      end
  | JStr s =>
      match array_index key with
      | Some i => match s !! i with Some c => JStr [c] | None => JUndef end
      | None => if bool_decide (key = js "length")
                then JNum (Num (Z.of_nat (length s)) 0) else JUndef
      end
  | _ => JUndef
  end.

(** [v[key]] and [v.key]: a [TypeError] on [undefined] and [null]. *)
Definition member (v : jsval) (key : jsstr) : jsresult jsval :=
  if nullish v then Abrupt (type_error (EReadProp key)) else Normal (get_prop v key).

(** [v?.key]: [undefined] on [undefined] and [null]. *)
Definition opt_member (v : jsval) (key : jsstr) : jsval :=
  if nullish v then JUndef else get_prop v key.

(** [typeof v === "object" && v !== null]: arrays are objects too. *)
Definition is_nonnull_object (v : jsval) : bool :=
  match v with JObj _ | JArr _ => true | _ => false end.

(** ** [ToString] *)

(** The number of ['0'] code units at the end of a digit string. *)
Fixpoint trailing_zeros (ds : jsstr) : nat :=
  match ds with
  | [] => O
  | c :: r => if bool_decide (Forall (fun d => d = 48) r) then
                (if bool_decide (c = 48) then S (length r) else length r)
              else trailing_zeros r
  end.

(** [Number::toString(x, 10)] (ECMA-262 6.1.6.1.20) of a positive value
    [s * 10^(n-k)], [s] of [k] digits without trailing zeros. *)
Definition pos_num_to_js (ds : jsstr) (n : Z) : jsstr :=
  let k := Z.of_nat (length ds) in
  if (k <=? n) && (n <=? 21) then ds ++ repeat 48 (Z.to_nat (n - k))
  else if (0 <? n) && (n <=? 21) then take (Z.to_nat n) ds ++ [46] ++ drop (Z.to_nat n) ds
  else if (-6 <? n) && (n <=? 0) then [48; 46] ++ repeat 48 (Z.to_nat (- n)) ++ ds
  else
    let e := n - 1 in
    let sign := if e <? 0 then 45 else 43 in
    match ds with
    | [d] => [d; 101; sign] ++ Z_to_js (Z.abs e)
    | d :: rest => [d; 46] ++ rest ++ [101; sign] ++ Z_to_js (Z.abs e)
    | [] => []
    end.

Definition num_to_js (x : num) : jsstr :=
  let m := num_mant x in
  if m =? 0 then [48] else
  let ds0 := N_to_js (Z.to_N (Z.abs m)) in
  let tz := trailing_zeros ds0 in
  let ds := take (length ds0 - tz) ds0 in
  let body := pos_num_to_js ds (num_exp x + Z.of_nat tz + Z.of_nat (length ds)) in
  if m <? 0 then 45 :: body else body.

(** [ToString(v)]. For an array, [Array.prototype.join] with [","], where
    [undefined] and [null] elements give the empty string. For an object
    built by [JSON.parse], [OrdinaryToPrimitive] calls
    [Object.prototype.toString] unless an own [toString] property (never
    callable in JSON) shadows it; then [valueOf] returns the object itself
    and no primitive is found. *)
Fixpoint to_string (v : jsval) : jsresult jsstr :=
  match v with
  | JUndef => Normal (js "undefined")
  | JNull => Normal (js "null")
  | JBool true => Normal (js "true")
  | JBool false => Normal (js "false")
  | JNum x => Normal (num_to_js x)
  | JStr s => Normal s
  | JArr xs =>
      let* parts :=
        (fix go (l : list jsval) : jsresult (list jsstr) :=
           match l with
           | [] => Normal []
           | y :: l' =>
               let* s := (if nullish y then Normal [] else to_string y) in
               let* ss := go l' in Normal (s :: ss)
           end) xs in
      Normal (join (js ",") parts)
  | JObj ps =>
      match assoc (js "toString") ps with
      | Some _ => Abrupt (type_error ENoPrimitive)
      | None => Normal (js "[object Object]")
      end
  end.

(** [x == "`"] (line 30). [ToNumber("`")] is [NaN], so a number or a
    boolean is never equal; [undefined] and [null] equal no string; an
    object or array is compared through [ToPrimitive], which for these
    objects is [ToString]. *)
Definition backtick : jsstr := [96].

Definition loose_eq_backtick (x : jsval) : jsresult bool :=
  match x with
  | JStr s => Normal (bool_decide (s = backtick))
  | JArr _ | JObj _ => let* t := to_string x in Normal (bool_decide (t = backtick))
  | _ => Normal false
  end.

(** ** Decidable equality

    Values are compared structurally, as the tests of the development
    compare them; [jsval_eqb] walks the nested lists of [JArr] and [JObj]
    with inner fixpoints so that it stays structural. *)

#[export] Instance num_eq_dec : EqDecision num.
Proof. solve_decision. Defined.

Fixpoint jsval_eqb (v w : jsval) : bool :=
  match v, w with
  | JUndef, JUndef | JNull, JNull => true
  | JBool a, JBool b => Bool.eqb a b
  | JNum x, JNum y => bool_decide (x = y)
  | JStr s, JStr t => bool_decide (s = t)
  | JArr xs, JArr ys =>
      (fix go (xs ys : list jsval) : bool :=
         match xs, ys with
         | [], [] => true
         | x :: xs', y :: ys' => jsval_eqb x y && go xs' ys'
         | _, _ => false
         end) xs ys
  | JObj ps, JObj qs =>
      (fix go (ps qs : list (jsstr * jsval)) : bool :=
         match ps, qs with
         | [], [] => true
         | (k, x) :: ps', (l, y) :: qs' => bool_decide (k = l) && jsval_eqb x y && go ps' qs'
         | _, _ => false
         end) ps qs
  | _, _ => false
  end.

Lemma jsval_eqb_eq v w : jsval_eqb v w = true <-> v = w.
Proof.
  revert w. induction v as [| |a|x|s|xs IH|ps IH] using jsval_ind'; intros [| |b|y|t|ys|qs];
    simpl; rewrite ?andb_true_iff, ?bool_decide_eq_true; try (split; congruence).
  - rewrite Bool.eqb_true_iff. split; congruence.
  - revert ys. induction IH as [|x xs Hx _ IHxs]; intros [|y ys]; simpl; try (split; congruence).
    rewrite andb_true_iff, Hx, IHxs. split; [intros [-> [= ->]]|intros [= -> ->]]; done.
  - revert qs. induction IH as [|[k x] ps Hx _ IHps]; intros [|[l y] qs]; simpl; try (split; congruence).
    simpl in Hx. rewrite !andb_true_iff, bool_decide_eq_true, Hx, IHps.
    split; [intros [[-> ->] [= ->]]|intros [= -> -> ->]]; done.
Qed.

#[export] Instance jsval_eq_dec : EqDecision jsval.
Proof.
  intros v w. destruct (jsval_eqb v w) eqn:E; [left; by apply jsval_eqb_eq|].
  right. intros Hvw%jsval_eqb_eq. congruence.
Defined.
