(* ===== verification/Json.v ===== *)
(** * [JSON.parse]

    ECMA-262 25.5.1 [JSON.parse(text)] without a reviver, on the grammar of
    ECMA-404: the text is whitespace, one value, whitespace; anything else
    is a [SyntaxError]. The parser is a recursive descent over the code
    units ([pvalue], [pmembers], [pelements]) bounded by fuel; the theorem
    [json_fuel_enough] shows that the fuel [JSON_parse] gives never runs
    out, so [JSON_parse] is the total function the engine computes.

    Objects are built with [CreateDataProperty] ([obj_set]): a repeated key
    keeps its first position and takes the last value. A number is kept as
    the exact decimal its text denotes; the rounding to a double (and the
    overflow of literals beyond 1.8e308 to [Infinity]) is not modelled. *)

From S2P Require Import Prelude JsString JsValue.

Local Open Scope Z_scope.

(** ** Lexical parts *)

Definition is_json_ws (c : Z) : bool := (c =? 9) || (c =? 10) || (c =? 13) || (c =? 32).

Fixpoint skip_ws (s : jsstr) : jsstr :=
  match s with
  | c :: r => if is_json_ws c then skip_ws r else s
  | [] => []
  end.

Definition hex_val (c : Z) : option Z :=
  if (48 <=? c) && (c <=? 57) then Some (c - 48)
  else if (97 <=? c) && (c <=? 102) then Some (c - 87)
  else if (65 <=? c) && (c <=? 70) then Some (c - 55)
  else None.

(** The code unit a one-character escape [\c] stands for. *)
Definition escape_char (c : Z) : option Z :=
  if c =? 34 then Some 34 else if c =? 92 then Some 92
  else if c =? 47 then Some 47 else if c =? 98 then Some 8
  else if c =? 102 then Some 12 else if c =? 110 then Some 10
  else if c =? 114 then Some 13 else if c =? 116 then Some 9
  else None.

(** The text after the code unit [c], when the text starts with it. *)
Definition expect (c : Z) (s : jsstr) : option jsstr :=
  match s with
  | d :: r => if d =? c then Some r else None
  | [] => None
  end.

(** The text after the literal [lit], when the text starts with it. *)
Fixpoint expect_lit (lit s : jsstr) : option jsstr :=
  match lit with
  | [] => Some s
  | c :: lit' => r ← expect c s; expect_lit lit' r
  end.

Definition cons_fst (c : Z) (o : option (jsstr * jsstr)) : option (jsstr * jsstr) :=
  match o with Some (str, r) => Some (c :: str, r) | None => None end.

Definition hex4 (a b c d : Z) : option Z :=
  x1 ← hex_val a; x2 ← hex_val b; x3 ← hex_val c; x4 ← hex_val d;
  Some (((x1 * 16 + x2) * 16 + x3) * 16 + x4).

(** The body of a string literal after its opening quote: the decoded code
    units and the text after the closing quote. Code units below U+0020
    must be escaped. *)
Fixpoint pstring (s : jsstr) : option (jsstr * jsstr) :=
  match s with
  | [] => None
  | c :: r =>
      if c =? 34 then Some ([], r)
      else if c =? 92 then
        match r with
        | e :: r' =>
            if e =? 117 then
              match r' with
              | a :: b :: c' :: d :: r'' =>
                  match hex4 a b c' d with
                  | Some x => cons_fst x (pstring r'')
                  | None => None
                  end
              | _ => None
              end
            else match escape_char e with
                 | Some x => cons_fst x (pstring r')
                 | None => None
                 end
        | [] => None
        end
      else if c <? 32 then None
      else cons_fst c (pstring r)
  end.

(** The longest prefix of decimal digits. *)
Fixpoint span_digits (s : jsstr) : jsstr * jsstr :=
  match s with
  | c :: r => if is_digit c then let '(ds, rest) := span_digits r in (c :: ds, rest)
              else ([], s)
  | [] => ([], [])
  end.

Definition digits_N (ds : jsstr) : N := default 0%N (N.of_uint <$> js_to_uint ds).

(** An optional code unit [c] in front of the text. *)
Definition opt_char (c : Z) (s : jsstr) : bool * jsstr :=
  match expect c s with Some r => (true, r) | None => (false, s) end.

(** The integer part: [0], or a digit [1-9] and more digits. *)
Definition pint (s : jsstr) : option (jsstr * jsstr) :=
  match s with
  | c :: r =>
      if c =? 48 then Some ([48], r)
      else if (49 <=? c) && (c <=? 57) then Some (span_digits s)
      else None
  | [] => None
  end.

(** The fraction: nothing, or [.] and at least one digit. *)
Definition pfrac (s : jsstr) : option (jsstr * jsstr) :=
  match expect 46 s with
  | Some r => let '(fd, r') := span_digits r in
              if bool_decide (fd = []) then None else Some (fd, r')
  | None => Some ([], s)
  end.

(** The exponent: nothing, or [e]/[E], an optional sign and digits. *)
Definition pexp (s : jsstr) : option (Z * jsstr) :=
  match s with
  | c :: r =>
      if (c =? 101) || (c =? 69) then
        let '(eneg, r') := opt_char 45 r in
        let r'' := if eneg then r' else snd (opt_char 43 r') in
        let '(ed, r3) := span_digits r'' in
        if bool_decide (ed = []) then None
        else Some ((if eneg then - Z.of_N (digits_N ed) else Z.of_N (digits_N ed)), r3)
      else Some (0, s)
  | [] => Some (0, s)
  end.

(** [-? int frac? exp?] denotes [(int frac) * 10^(exp - |frac|)]. *)
Definition pnumber (s : jsstr) : option (num * jsstr) :=
  let '(neg, s1) := opt_char 45 s in
  '(int, r1) ← pint s1;
  '(frac, r2) ← pfrac r1;
  '(e, r3) ← pexp r2;
  let m := Z.of_N (digits_N (int ++ frac)) in
  Some (Num (if neg then - m else m) (e - Z.of_nat (length frac)), r3).

(** ** Values *)

(** The outcome of a parser run: a result and the rest of the text, a
    syntax error, or the fuel spent. *)
Inductive presult (A : Type) : Type :=
| POk (a : A)
| PFail
| PFuel.
Arguments POk {A} a.
Arguments PFail {A}.
Arguments PFuel {A}.

Definition pliteral (s : jsstr) : option (jsval * jsstr) :=
  match expect_lit (js "true") s with
  | Some r => Some (JBool true, r)
  | None =>
      match expect_lit (js "false") s with
      | Some r => Some (JBool false, r)
      | None =>
          match expect_lit (js "null") s with
          | Some r => Some (JNull, r)
          | None => x ← pnumber s; Some (JNum x.1, x.2)
          end
      end
  end.

Fixpoint pvalue (fuel : nat) (s : jsstr) : presult (jsval * jsstr) :=
  match fuel with
  | O => PFuel
  | S f =>
      match expect 123 s with
      | Some r =>
          match expect 125 (skip_ws r) with
          | Some r' => POk (JObj [], r')
          | None => pmembers f [] (skip_ws r)
          end
      | None =>
      match expect 91 s with
      | Some r =>
          match expect 93 (skip_ws r) with
          | Some r' => POk (JArr [], r')
          | None => pelements f [] (skip_ws r)
          end
      | None =>
      match expect 34 s with
      | Some r => match pstring r with Some (str, r') => POk (JStr str, r') | None => PFail end
      | None => match pliteral s with Some vr => POk vr | None => PFail end
      end end end
  end
(** The members of an object after [{] or [,] and whitespace. *)
with pmembers (fuel : nat) (acc : list (jsstr * jsval)) (s : jsstr) :
  presult (jsval * jsstr) :=
  match fuel with
  | O => PFuel
  | S f =>
      match expect 34 s with
      | None => PFail
      | Some r =>
      match pstring r with
      | None => PFail
      | Some (k, r1) =>
      match expect 58 (skip_ws r1) with
      | None => PFail
      | Some r2 =>
      match pvalue f (skip_ws r2) with
      | PFail => PFail
      | PFuel => PFuel
      | POk (v, r3) =>
          match expect 44 (skip_ws r3) with
          | Some r4 => pmembers f (obj_set acc k v) (skip_ws r4)
          | None =>
              match expect 125 (skip_ws r3) with
              | Some r4 => POk (JObj (obj_set acc k v), r4)
              | None => PFail
              end
          end
      end end end end
  end
(** The elements of an array after [[] or [,] and whitespace. *)
with pelements (fuel : nat) (acc : list jsval) (s : jsstr) : presult (jsval * jsstr) :=
  match fuel with
  | O => PFuel
  | S f =>
      match pvalue f s with
      | PFail => PFail
      | PFuel => PFuel
      | POk (v, r) =>
          match expect 44 (skip_ws r) with
          | Some r' => pelements f (acc ++ [v]) (skip_ws r')
          | None =>
              match expect 93 (skip_ws r) with
              | Some r' => POk (JArr (acc ++ [v]), r')
              | None => PFail
              end
          end
      end
  end.

Definition json_fuel (text : jsstr) : nat := (2 * length text + 2)%nat.

(** [JSON.parse(text)] on a string. *)
Definition JSON_parse (text : jsstr) : jsresult jsval :=
  match pvalue (json_fuel text) (skip_ws text) with
  | POk (v, rest) =>
      if bool_decide (skip_ws rest = []) then Normal v else Abrupt (syntax_error EJsonSyntax)
  | _ => Abrupt (syntax_error EJsonSyntax)
  end.

(** ** The parser consumes its input *)

Lemma skip_ws_le s : (length (skip_ws s) <= length s)%nat.
Proof. induction s as [|c s IH]; simpl; [lia|]. destruct (is_json_ws c); simpl; lia. Qed.

Lemma expect_lt c s r : expect c s = Some r -> (length r < length s)%nat.
Proof. destruct s as [|d s]; simpl; [done|]. destruct (d =? c); [intros [=<-]; simpl; lia|done]. Qed.

Lemma expect_lit_le lit s r : expect_lit lit s = Some r -> (length r <= length s)%nat.
Proof.
  revert s. induction lit as [|c lit IH]; intros s; simpl; [intros [=->]; lia|].
  destruct (expect c s) as [r'|] eqn:E; simpl; [|done].
  intros H. apply IH in H. apply expect_lt in E. lia.
Qed.

Lemma cons_fst_Some c o str r :
  cons_fst c o = Some (str, r) -> exists str', o = Some (str', r).
Proof. destruct o as [[]|]; simpl; [intros [=]; subst; eauto|done]. Qed.

Lemma pstring_lt s str r : pstring s = Some (str, r) -> (length r < length s)%nat.
Proof.
  revert str r. induction s as [s IH] using (induction_ltof1 _ (@length Z)); unfold ltof in IH.
  intros str r. destruct s as [|c s]; simpl; [done|].
  intros Hs. repeat (case_match; simplify_eq/=; try done); try lia;
    apply cons_fst_Some in Hs as [? Hs]; apply IH in Hs; simpl in *; lia.
Qed.

Lemma span_digits_app s ds r : span_digits s = (ds, r) -> s = ds ++ r.
Proof.
  revert ds r. induction s as [|c s IH]; intros ds r; simpl; [intros [=<- <-]; done|].
  destruct (is_digit c); [|intros [=<- <-]; done].
  destruct (span_digits s) as [ds' r'] eqn:E. intros [=<- <-]. simpl. f_equal. by apply IH.
Qed.

Lemma span_digits_le s ds r : span_digits s = (ds, r) -> (length r <= length s)%nat.
Proof. intros H. apply span_digits_app in H. subst. rewrite length_app. lia. Qed.

Lemma opt_char_le c s b r : opt_char c s = (b, r) -> (length r <= length s)%nat.
Proof.
  unfold opt_char. destruct (expect c s) eqn:E; intros [=<- <-]; [|lia].
  apply expect_lt in E. lia.
Qed.

Lemma pint_lt s int r : pint s = Some (int, r) -> (length r < length s)%nat.
Proof.
  destruct s as [|c s]; simpl; [done|].
  destruct (c =? 48); [intros [=<- <-]; lia|].
  destruct ((49 <=? c) && (c <=? 57)) eqn:Hc; [|done]. simpl.
  assert (is_digit c = true) as ->
    by (unfold is_digit; rewrite andb_true_iff, !Z.leb_le in *; lia).
  destruct (span_digits s) eqn:E. intros [=<- <-]. apply span_digits_le in E. simpl. lia.
Qed.

Lemma pfrac_le s fd r : pfrac s = Some (fd, r) -> (length r <= length s)%nat.
Proof.
  unfold pfrac. destruct (expect 46 s) as [r0|] eqn:E; [|intros [=<- <-]; lia].
  apply expect_lt in E. destruct (span_digits r0) as [ds r'] eqn:Es.
  apply span_digits_le in Es. case_bool_decide; [done|]. intros [=<- <-]. lia.
Qed.

Lemma pexp_le s e r : pexp s = Some (e, r) -> (length r <= length s)%nat.
Proof.
  unfold pexp. destruct s as [|c s]; [intros [=<- <-]; lia|].
  destruct ((c =? 101) || (c =? 69)); [|intros [=<- <-]; lia].
  destruct (opt_char 45 s) as [eneg r'] eqn:E1. apply opt_char_le in E1.
  remember (if eneg then r' else (opt_char 43 r').2) as t.
  assert (Hr : (length t <= length r')%nat).
  { subst t. destruct eneg; [simpl; lia|].
    destruct (opt_char 43 r') eqn:E2. apply opt_char_le in E2. simpl. lia. }
  destruct (span_digits t) as [ed r3] eqn:E3. apply span_digits_le in E3.
  case_bool_decide; [done|]. intros [=<- <-]. simpl. lia.
Qed.

Lemma pnumber_lt s x r : pnumber s = Some (x, r) -> (length r < length s)%nat.
Proof.
  unfold pnumber.
  destruct (opt_char 45 s) as [neg s1] eqn:E1. apply opt_char_le in E1.
  destruct (pint s1) as [[int r1]|] eqn:E2; simpl; [|done]. apply pint_lt in E2.
  destruct (pfrac r1) as [[frac r2]|] eqn:E3; simpl; [|done]. apply pfrac_le in E3.
  destruct (pexp r2) as [[e r3]|] eqn:E4; simpl; [|done]. apply pexp_le in E4.
  intros [=<- <-]. lia.
Qed.

Lemma expect_lit_lt lit s r :
  lit <> [] -> expect_lit lit s = Some r -> (length r < length s)%nat.
Proof.
  destruct lit as [|c lit]; [done|]. intros _. simpl.
  destruct (expect c s) as [r'|] eqn:E; simpl; [|done].
  intros H. apply expect_lit_le in H. apply expect_lt in E. lia.
Qed.

Lemma pliteral_lt s v r : pliteral s = Some (v, r) -> (length r < length s)%nat.
Proof.
  unfold pliteral.
  destruct (expect_lit (js "true") s) eqn:E1; [intros [=<- <-]; eapply expect_lit_lt; [|eassumption]; discriminate|].
  destruct (expect_lit (js "false") s) eqn:E2; [intros [=<- <-]; eapply expect_lit_lt; [|eassumption]; discriminate|].
  destruct (expect_lit (js "null") s) eqn:E3; [intros [=<- <-]; eapply expect_lit_lt; [|eassumption]; discriminate|].
  destruct (pnumber s) as [[x r']|] eqn:E4; simpl; [intros [=<- <-]|done].
  by eapply pnumber_lt.
Qed.

(** [len_facts] turns every hypothesis that says a lexer or parser step
    succeeded into the length fact it implies. *)
Ltac len_facts :=
  repeat match goal with
  | H : expect _ _ = Some _ |- _ => apply expect_lt in H
  | H : pstring _ = Some (_, _) |- _ => apply pstring_lt in H
  | H : pliteral _ = Some (_, _) |- _ => apply pliteral_lt in H
  end;
  repeat match goal with
  | _ : context [length (skip_ws ?t)] |- _ =>
      lazymatch goal with
      | _ : (length (skip_ws t) <= length t)%nat |- _ => fail
      | |- _ => pose proof (skip_ws_le t)
      end
  | |- context [length (skip_ws ?t)] =>
      lazymatch goal with
      | _ : (length (skip_ws t) <= length t)%nat |- _ => fail
      | |- _ => pose proof (skip_ws_le t)
      end
  end.

Lemma parse_shorter n :
  (forall s v r, pvalue n s = POk (v, r) -> length r < length s)%nat /\
  (forall acc s v r, pmembers n acc s = POk (v, r) -> length r < length s)%nat /\
  (forall acc s v r, pelements n acc s = POk (v, r) -> length r < length s)%nat.
Proof.
  induction n as [|n (IHv & IHm & IHe)]; [done|].
  split_and!; intros *; simpl; intros H; repeat (case_match; simplify_eq/=; try done);
  repeat match goal with
  | H : pvalue n _ = POk (_, _) |- _ => apply IHv in H
  | H : pmembers n _ _ = POk (_, _) |- _ => apply IHm in H
  | H : pelements n _ _ = POk (_, _) |- _ => apply IHe in H
  end; len_facts; lia.
Qed.

Lemma parse_fuel n :
  (forall s, 2 * length s < n -> pvalue n s <> PFuel)%nat /\
  (forall acc s, 2 * length s + 1 < n -> pmembers n acc s <> PFuel)%nat /\
  (forall acc s, 2 * length s + 1 < n -> pelements n acc s <> PFuel)%nat.
Proof.
  induction n as [|n (IHv & IHm & IHe)]; [split_and!; intros; lia|].
  pose proof (parse_shorter n) as (Sv & Sm & Se).
  split_and!; intros *; simpl; intros Hn; repeat (case_match; simplify_eq/=; try done);
  repeat match goal with
  | H : pvalue n _ = POk (_, _) |- _ => apply Sv in H
  | H : pvalue n ?t = PFuel |- _ => exfalso; apply (IHv t); [|exact H]
  end;
  try match goal with
  | |- pvalue n _ <> PFuel => apply IHv
  | |- pmembers n _ _ <> PFuel => apply IHm
  | |- pelements n _ _ <> PFuel => apply IHe
  end; len_facts; simpl in *; lia.
Qed.

(** [JSON.parse] terminates: the fuel it gives the parser is never spent,
    so every text is either parsed or rejected with a [SyntaxError]. *)
Theorem json_fuel_enough (text : jsstr) : pvalue (json_fuel text) (skip_ws text) <> PFuel.
Proof.
  apply (parse_fuel (json_fuel text)). unfold json_fuel.
  pose proof (skip_ws_le text). lia.
Qed.

(** More fuel does not change an answer the parser has given: a result
    or a syntax error. *)
Lemma parse_stable n :
  (forall s m, pvalue n s <> PFuel -> (n <= m)%nat -> pvalue m s = pvalue n s) /\
  (forall acc s m, pmembers n acc s <> PFuel -> (n <= m)%nat -> pmembers m acc s = pmembers n acc s) /\
  (forall acc s m, pelements n acc s <> PFuel -> (n <= m)%nat -> pelements m acc s = pelements n acc s).
Proof.
  induction n as [|n (IHv & IHm & IHe)]; [split_and!; intros; simpl in *; congruence|].
  split_and!; intros * H Hm; (destruct m as [|m]; [lia|]); simpl in H |- *;
  repeat first
    [ match goal with
      | E : pvalue n ?t = ?R |- context [pvalue m ?t] =>
          rewrite (IHv t m) by (rewrite ?E; first [discriminate|lia]); rewrite E
      | E : pmembers n ?a ?t = ?R |- context [pmembers m ?a ?t] =>
          rewrite (IHm a t m) by (rewrite ?E; first [discriminate|lia]); rewrite E
      | E : pelements n ?a ?t = ?R |- context [pelements m ?a ?t] =>
          rewrite (IHe a t m) by (rewrite ?E; first [discriminate|lia]); rewrite E
      end
    | match goal with
      | H : context [match ?x with _ => _ end] |- _ => destruct x eqn:?
      end ];
  try done; try (rewrite (IHm _ _ m); [done|done|lia]); try (rewrite (IHe _ _ m); [done|done|lia]).
Qed.
