(* ===== verification/JsonText.v ===== *)
(** * JSON texts of values, and what [JSON.parse] makes of them

    [json_text v] is a JSON text of [v], the form in which the prompt API
    hands a model's answer to the program as [message.content]: strings
    escape the quote, the backslash and the code units below U+0020, and
    numbers are written as an integer mantissa and a decimal exponent.

    The values [JSON.parse] can return are the well-formed ones
    ([json_wfb]): no [undefined], strings of non-negative code units, and
    objects without repeated keys ([parse_wf]). Conversely every
    well-formed value is what [JSON.parse] returns on its text
    ([JSON_parse_json_text]), which is the round trip an attempt relies on
    when the answer is plain JSON. *)

From S2P Require Import Prelude JsString JsValue Json.
From Stdlib Require DecimalPos DecimalN.

Local Open Scope Z_scope.

(** ** Texts *)

Definition hex_digit (d : Z) : Z := if d <? 10 then 48 + d else 87 + d.

(** The text of one code unit inside a string literal. *)
Definition escape_unit (c : Z) : jsstr :=
  if c =? 34 then [92; 34]
  else if c =? 92 then [92; 92]
  else if c <? 32 then [92; 117; 48; 48; hex_digit (c / 16); hex_digit (c mod 16)]
  else [c].

Fixpoint escape (s : jsstr) : jsstr :=
  match s with
  | [] => []
  | c :: r => escape_unit c ++ escape r
  end.

Definition quote (s : jsstr) : jsstr := [34] ++ escape s ++ [34].

(** [m * 10^e] as [<m>e<e>], both in decimal with an optional minus. *)
Definition num_text (x : num) : jsstr := Z_to_js (num_mant x) ++ [101] ++ Z_to_js (num_exp x).

Fixpoint json_text (v : jsval) : jsstr :=
  match v with
  | JUndef | JNull => js "null"
  | JBool true => js "true"
  | JBool false => js "false"
  | JNum x => num_text x
  | JStr s => quote s
  | JArr xs => [91] ++ join [44] (map json_text xs) ++ [93]
  | JObj ps => [123] ++ join [44] (map (fun kv => quote kv.1 ++ [58] ++ json_text kv.2) ps) ++ [125]
  end.

(** ** Well-formed values *)

Definition units_ok (s : jsstr) : bool := forallb (fun c => 0 <=? c) s.

Fixpoint json_wfb (v : jsval) : bool :=
  match v with
  | JUndef => false
  | JNull | JBool _ | JNum _ => true
  | JStr s => units_ok s
  | JArr xs => forallb json_wfb xs
  | JObj ps =>
      bool_decide (NoDup (map fst ps)) && forallb (fun kv => units_ok kv.1 && json_wfb kv.2) ps
  end.

(** The text after a value cannot continue it: it does not start with a
    digit (a number's exponent ends at the first non-digit). *)
Definition stops (rest : jsstr) : bool :=
  match rest with c :: _ => negb (is_digit c) | [] => true end.

(** ** Strings *)

Lemma hex_val_digit d : 0 <= d < 16 -> hex_val (hex_digit d) = Some d.
Proof.
  intros Hd. unfold hex_digit, hex_val.
  destruct (Z.ltb_spec d 10); repeat (case_bool_decide || case_match || destruct (Z.leb_spec _ _));
    simpl; f_equal; lia.
Qed.

Lemma pstring_escape s rest :
  Forall (fun c => 0 <= c) s -> pstring (escape s ++ 34 :: rest) = Some (s, rest).
Proof.
  induction 1 as [|c s Hc _ IH]; [reflexivity|]. simpl. unfold escape_unit.
  destruct (Z.eqb_spec c 34) as [->|H34]; [simpl; by rewrite IH|].
  destruct (Z.eqb_spec c 92) as [->|H92]; [simpl; by rewrite IH|].
  destruct (Z.ltb_spec c 32) as [Hlt|Hge]; simpl.
  - unfold hex4. simpl.
    rewrite !hex_val_digit by (split; [apply Z.div_pos || apply Z.mod_pos_bound|
                                       apply Z.div_lt_upper_bound || apply Z.mod_pos_bound]; lia).
    simpl. rewrite IH. simpl. do 3 f_equal. pose proof (Z.div_mod c 16 ltac:(lia)). lia.
  - rewrite (proj2 (Z.eqb_neq c 34)), (proj2 (Z.eqb_neq c 92)) by done.
    destruct (Z.ltb_spec c 32); [lia|]. by rewrite IH.
Qed.

(** ** Numbers *)

Lemma nzhead_head d : match Decimal.nzhead d with Decimal.D0 _ => False | _ => True end.
Proof. induction d; simpl; auto. Qed.

(** The decimal digits of a positive number do not start with [0]. *)
Lemma N_to_js_head n :
  N_to_js n = [48] \/ exists c r, N_to_js n = c :: r /\ 49 <= c <= 57.
Proof.
  destruct n as [|p]; [by left|right]. unfold N_to_js. simpl.
  assert (E : Pos.to_uint p = Decimal.unorm (Pos.to_uint p)).
  { rewrite <- DecimalPos.Unsigned.to_of, DecimalPos.Unsigned.of_to. reflexivity. }
  pose proof (DecimalPos.Unsigned.to_uint_nonzero p) as Hz.
  pose proof (nzhead_head (Pos.to_uint p)) as Hh.
  unfold Decimal.unorm in E. destruct (Decimal.nzhead (Pos.to_uint p)) eqn:Hn;
    rewrite E in Hz |- *; try done; simpl; eexists _, _; (split; [reflexivity|lia]).
Qed.

Lemma digits_N_to_js n : digits_N (N_to_js n) = n.
Proof. unfold digits_N, N_to_js. rewrite js_to_uint_to_js. simpl. apply DecimalN.Unsigned.of_to. Qed.

Lemma span_digits_stops ds rest :
  Forall (fun c => is_digit c = true) ds -> stops rest = true -> span_digits (ds ++ rest) = (ds, rest).
Proof.
  induction 1 as [|c ds Hc _ IH]; intros Hr; simpl.
  - destruct rest as [|c rest]; [done|]. simpl in *. by destruct (is_digit c).
  - rewrite Hc, IH by done. done.
Qed.

Lemma N_to_js_digits n : Forall (fun c => is_digit c = true) (N_to_js n).
Proof. apply uint_to_js_digits. Qed.

(** The digits of [n], then a text that does not continue them. *)
Lemma span_N_to_js n rest :
  stops rest = true -> span_digits (N_to_js n ++ rest) = (N_to_js n, rest).
Proof. intros Hr. apply span_digits_stops; [apply N_to_js_digits|done]. Qed.

Lemma N_to_js_nonempty n : N_to_js n <> [].
Proof. destruct (N_to_js_head n) as [->|(c & r & -> & _)]; done. Qed.

Lemma pint_N_to_js n rest :
  stops rest = true -> pint (N_to_js n ++ rest) = Some (N_to_js n, rest).
Proof.
  intros Hr. destruct (N_to_js_head n) as [E|(c & r & E & Hc)]; rewrite E; [done|].
  unfold pint. cbn [app]. rewrite (proj2 (Z.eqb_neq c 48)) by lia.
  assert ((49 <=? c) && (c <=? 57) = true) as -> by (apply andb_true_iff; lia).
  change (c :: r ++ rest) with ((c :: r) ++ rest). rewrite <- E. f_equal. by apply span_N_to_js.
Qed.

Lemma stops_e rest : stops (101 :: rest) = true.
Proof. reflexivity. Qed.

Lemma Z_to_js_cases z :
  (z < 0 /\ Z_to_js z = 45 :: N_to_js (Z.to_N (- z))) \/ (0 <= z /\ Z_to_js z = N_to_js (Z.to_N z)).
Proof. unfold Z_to_js. destruct (Z.ltb_spec z 0); [left|right]; auto. Qed.

Lemma N_to_js_not_sign n rest c : c = 45 \/ c = 43 -> expect c (N_to_js n ++ rest) = None.
Proof.
  intros Hc. destruct (N_to_js_head n) as [->|(d & r & -> & Hd)]; [by destruct Hc as [->| ->]|].
  simpl. rewrite (proj2 (Z.eqb_neq d c)); [done|lia].
Qed.

Lemma pnumber_num_text x rest :
  stops rest = true -> pnumber (num_text x ++ rest) = Some (x, rest).
Proof.
  intros Hr. destruct x as [m e]. unfold num_text, pnumber, opt_char. simpl.
  assert (Hexp : pexp (101 :: Z_to_js e ++ rest) = Some (e, rest)).
  { unfold pexp, opt_char. simpl.
    destruct (Z_to_js_cases e) as [(He & ->)|(He & ->)]; simpl.
    - rewrite span_N_to_js, digits_N_to_js by done.
      rewrite bool_decide_false by apply N_to_js_nonempty. do 2 f_equal. lia.
    - rewrite N_to_js_not_sign by auto. simpl. rewrite N_to_js_not_sign by auto. simpl.
      rewrite span_N_to_js, digits_N_to_js by done.
      rewrite bool_decide_false by apply N_to_js_nonempty. do 2 f_equal. lia. }
  destruct (Z_to_js_cases m) as [(Hm & ->)|(Hm & ->)]; rewrite <- !app_assoc;
    cbn -[pexp N_to_js]; [|rewrite N_to_js_not_sign by auto; cbn -[pexp N_to_js]];
    rewrite pint_N_to_js by apply stops_e; cbn -[pexp N_to_js]; rewrite Hexp; simpl;
    rewrite app_nil_r, digits_N_to_js; do 2 f_equal; f_equal; lia.
Qed.

(** ** Values *)

(** The first code unit of a text: a letter of [null], [true] or [false],
    a minus, a digit, a quote, a bracket or a brace. *)
Definition value_start (c : Z) : Prop :=
  c = 110 \/ c = 116 \/ c = 102 \/ c = 45 \/ (48 <= c <= 57) \/ c = 34 \/ c = 91 \/ c = 123.

Lemma json_text_head v : exists c r, json_text v = c :: r /\ value_start c.
Proof.
  unfold value_start.
  destruct v as [| |[]|[m e]|s|xs|ps]; simpl;
    try (eexists _, _; split; [reflexivity|lia]);
    try (exists 110; eexists; split; [reflexivity|lia]);
    try (exists 116; eexists; split; [reflexivity|lia]);
    try (exists 102; eexists; split; [reflexivity|lia]).
  unfold num_text. simpl. destruct (Z_to_js_cases m) as [(_ & ->)|(_ & ->)]; [eexists _, _; split; [reflexivity|lia]|].
  destruct (N_to_js_head (Z.to_N m)) as [->|(c & r & -> & Hc)]; eexists _, _; split; [reflexivity|lia|reflexivity|lia].
Qed.

Lemma value_start_ws c r : value_start c -> skip_ws (c :: r) = c :: r.
Proof.
  intros Hc. simpl. unfold is_json_ws.
  rewrite (proj2 (Z.eqb_neq c 9)), (proj2 (Z.eqb_neq c 10)), (proj2 (Z.eqb_neq c 13)),
    (proj2 (Z.eqb_neq c 32)); [done|unfold value_start in Hc; lia..].
Qed.

Lemma skip_ws_json_text v r : skip_ws (json_text v ++ r) = json_text v ++ r.
Proof. destruct (json_text_head v) as (c & r' & -> & Hc). by apply value_start_ws. Qed.

Lemma expect_json_text v r c : ~ value_start c -> expect c (json_text v ++ r) = None.
Proof.
  intros Hc. destruct (json_text_head v) as (d & r' & -> & Hd). simpl.
  destruct (Z.eqb_spec d c) as [->|]; [done|done].
Qed.

Lemma stops_punct c r : c = 44 \/ c = 58 \/ c = 93 \/ c = 125 -> stops (c :: r) = true.
Proof. by intros [->|[->|[->| ->]]]. Qed.

Lemma pvalue_up n m s x : pvalue n s = POk x -> (n <= m)%nat -> pvalue m s = POk x.
Proof. intros H Hm. rewrite (proj1 (parse_stable n) s m); [done|by rewrite H|done]. Qed.

Lemma pmembers_up n m acc s x : pmembers n acc s = POk x -> (n <= m)%nat -> pmembers m acc s = POk x.
Proof. intros H Hm. rewrite (proj1 (proj2 (parse_stable n)) acc s m); [done|by rewrite H|done]. Qed.

Lemma pelements_up n m acc s x : pelements n acc s = POk x -> (n <= m)%nat -> pelements m acc s = POk x.
Proof. intros H Hm. rewrite (proj2 (proj2 (parse_stable n)) acc s m); [done|by rewrite H|done]. Qed.

Lemma obj_set_new acc k v : k ∉ map fst acc -> obj_set acc k v = acc ++ [(k, v)].
Proof.
  induction acc as [|[k' v'] acc IH]; simpl; [done|]. rewrite not_elem_of_cons. intros [Hk Hr].
  rewrite bool_decide_false by done. by rewrite IH.
Qed.

(** A value's text parses back to it, whatever text that cannot continue
    it follows. *)
Definition parses_back (v : jsval) : Prop :=
  forall rest, stops rest = true -> exists n, pvalue n (json_text v ++ rest) = POk (v, rest).

Lemma skip_ws_join_text y ys r :
  skip_ws (join [44] (map json_text (y :: ys)) ++ r) = join [44] (map json_text (y :: ys)) ++ r.
Proof. destruct ys; simpl; rewrite <- ?app_assoc; apply skip_ws_json_text. Qed.

Lemma pelements_text xs acc rest :
  xs <> [] -> Forall parses_back xs ->
  exists n, pelements n acc (join [44] (map json_text xs) ++ 93 :: rest) = POk (JArr (acc ++ xs), rest).
Proof.
  intros Hne Hxs. revert acc. induction Hxs as [|x xs Hx Hxs IH]; [done|]. intros acc.
  destruct xs as [|y xs].
  - destruct (Hx (93 :: rest)) as [n Hn]; [done|]. exists (S n). simpl. rewrite Hn. done.
  - destruct (Hx (44 :: join [44] (map json_text (y :: xs)) ++ 93 :: rest)) as [n1 Hn1]; [done|].
    destruct (IH ltac:(done) (acc ++ [x])) as [n2 Hn2].
    exists (S (Nat.max n1 n2)).
    change (join [44] (map json_text (x :: y :: xs)))
      with (json_text x ++ [44] ++ join [44] (map json_text (y :: xs))).
    pose proof (skip_ws_join_text y xs (93 :: rest)) as Hws.
    rewrite <- app_assoc in Hn2.
    remember (join [44] (map json_text (y :: xs))) as J eqn:HJ.
    rewrite <- !app_assoc. simpl. rewrite (pvalue_up n1 _ _ _ Hn1) by lia. simpl.
    rewrite Hws. by rewrite (pelements_up n2 _ _ _ _ Hn2) by lia.
Qed.

Definition member_text (kv : jsstr * jsval) : jsstr := quote kv.1 ++ [58] ++ json_text kv.2.

Lemma units_ok_Forall s : units_ok s = true -> Forall (fun c => 0 <= c) s.
Proof. unfold units_ok. rewrite forallb_forall, Forall_forall. intros H c Hc. apply Z.leb_le, H, list_elem_of_In, Hc. Qed.

Lemma skip_ws_join_member kv ps r :
  skip_ws (join [44] (map member_text (kv :: ps)) ++ r) = join [44] (map member_text (kv :: ps)) ++ r.
Proof. destruct ps; simpl; rewrite <- ?app_assoc; reflexivity. Qed.

(** One member [quote k : value] of an object, then the text [t]. *)
Lemma pmembers_step n acc k v t :
  units_ok k = true -> pvalue n (json_text v ++ t) = POk (v, t) ->
  pmembers (S n) acc (member_text (k, v) ++ t) =
  match expect 44 (skip_ws t) with
  | Some r4 => pmembers n (obj_set acc k v) (skip_ws r4)
  | None => match expect 125 (skip_ws t) with
            | Some r4 => POk (JObj (obj_set acc k v), r4)
            | None => PFail
            end
  end.
Proof.
  intros Hk Hv. unfold member_text, quote. simpl. rewrite <- !app_assoc. simpl.
  rewrite pstring_escape by by apply units_ok_Forall. simpl.
  by rewrite skip_ws_json_text, Hv.
Qed.

Lemma pmembers_text ps acc rest :
  ps <> [] -> NoDup (map fst (acc ++ ps)) ->
  Forall (fun kv => units_ok kv.1 = true /\ parses_back kv.2) ps ->
  exists n, pmembers n acc (join [44] (map member_text ps) ++ 125 :: rest) = POk (JObj (acc ++ ps), rest).
Proof.
  intros Hne Hnd Hps. revert acc Hnd. induction Hps as [|[k v] ps [Hk Hv] Hps IH]; [done|].
  intros acc Hnd. assert (Hnd' : NoDup (map fst ((acc ++ [(k, v)]) ++ ps))) by by rewrite <- app_assoc.
  rewrite map_app, NoDup_app in Hnd. destruct Hnd as (_ & Hdisj & _).
  assert (Hnew : k ∉ map fst acc) by (intros Hin; apply (Hdisj k Hin); simpl; left).
  destruct ps as [|kv ps].
  - destruct (Hv (125 :: rest)) as [n Hn]; [done|]. exists (S n). simpl map. cbn [join].
    rewrite (pmembers_step _ _ _ _ _ Hk Hn). simpl. by rewrite obj_set_new.
  - destruct (Hv (44 :: join [44] (map member_text (kv :: ps)) ++ 125 :: rest)) as [n1 Hn1]; [done|].
    destruct (IH ltac:(done) (acc ++ [(k, v)]) Hnd') as [n2 Hn2].
    exists (S (Nat.max n1 n2)).
    change (join [44] (map member_text ((k, v) :: kv :: ps)))
      with (member_text (k, v) ++ [44] ++ join [44] (map member_text (kv :: ps))).
    pose proof (skip_ws_join_member kv ps (125 :: rest)) as Hws.
    rewrite <- app_assoc in Hn2.
    remember (join [44] (map member_text (kv :: ps))) as J eqn:HJ.
    rewrite <- !app_assoc. rewrite (pmembers_step _ _ _ _ _ Hk (pvalue_up n1 (Nat.max n1 n2) _ _ Hn1 ltac:(lia))).
    simpl. rewrite Hws, obj_set_new by done. by rewrite (pmembers_up n2 _ _ _ _ Hn2) by lia.
Qed.

Lemma num_text_head x : exists c r, num_text x = c :: r /\ (c = 45 \/ 48 <= c <= 57).
Proof.
  destruct x as [m e]. unfold num_text. simpl.
  destruct (Z_to_js_cases m) as [(_ & ->)|(_ & ->)]; [eexists _, _; split; [reflexivity|lia]|].
  destruct (N_to_js_head (Z.to_N m)) as [->|(c & r & -> & Hc)]; eexists _, _; (split; [reflexivity|lia]).
Qed.

(** A value that starts with a minus or a digit is a number. *)
Lemma pvalue_pnumber n s x rest :
  (exists c r, s = c :: r /\ (c = 45 \/ 48 <= c <= 57)) -> pnumber s = Some (x, rest) ->
  pvalue (S n) s = POk (JNum x, rest).
Proof.
  intros (c & r & -> & Hc) Hp. simpl.
  rewrite (proj2 (Z.eqb_neq c 123)), (proj2 (Z.eqb_neq c 91)), (proj2 (Z.eqb_neq c 34)) by lia.
  unfold pliteral. change (js "true") with [116; 114; 117; 101].
  change (js "false") with [102; 97; 108; 115; 101]. change (js "null") with [110; 117; 108; 108].
  simpl.
  rewrite (proj2 (Z.eqb_neq c 116)), (proj2 (Z.eqb_neq c 102)), (proj2 (Z.eqb_neq c 110)) by lia.
  simpl in Hp. by rewrite Hp.
Qed.

Lemma pvalue_num_text n x rest :
  stops rest = true -> pvalue (S n) (num_text x ++ rest) = POk (JNum x, rest).
Proof.
  intros Hr. apply pvalue_pnumber; [|by apply pnumber_num_text].
  destruct (num_text_head x) as (c & r & -> & Hc). eauto.
Qed.

Lemma forallb_Forall {A} (p : A -> bool) (P : A -> Prop) l :
  forallb p l = true -> Forall (fun x => p x = true -> P x) l -> Forall P l.
Proof. intros Hb HP. rewrite forallb_forall in Hb. induction HP; constructor; simpl in *; auto. Qed.

(** Every well-formed value parses back from its text. *)
Lemma json_text_parses v : json_wfb v = true -> parses_back v.
Proof.
  induction v as [| |b|x|s|xs IH|ps IH] using jsval_ind'; intros Hwf rest Hr; simpl in Hwf;
    try discriminate.
  - exists 1%nat. reflexivity.
  - exists 1%nat. destruct b; reflexivity.
  - exists 1%nat. by apply pvalue_num_text.
  - exists 1%nat. unfold json_text, quote. simpl. rewrite <- app_assoc. change ([34] ++ rest) with (34 :: rest).
    by rewrite pstring_escape by by apply units_ok_Forall.
  - apply (forallb_Forall _ parses_back) in Hwf; [|done].
    destruct xs as [|x xs]; [by exists 1%nat|].
    destruct (pelements_text (x :: xs) [] rest) as [n Hn]; [done|done|].
    exists (S n). cbn [json_text].
    pose proof (skip_ws_join_text x xs (93 :: rest)) as Hws.
    assert (He : expect 93 (join [44] (map json_text (x :: xs)) ++ 93 :: rest) = None).
    { destruct xs; simpl; rewrite <- ?app_assoc; apply expect_json_text; unfold value_start; lia. }
    remember (join [44] (map json_text (x :: xs))) as J eqn:HJ.
    rewrite <- !app_assoc. simpl. by rewrite Hws, He.
  - apply andb_true_iff in Hwf as [Hnd Hwf]. apply bool_decide_eq_true in Hnd.
    apply (forallb_Forall _ (fun kv => units_ok kv.1 = true /\ parses_back kv.2)) in Hwf;
      [|eapply Forall_impl; [exact IH|]; intros kv Hkv Hb; apply andb_true_iff in Hb as [H1 H2]; split; auto].
    destruct ps as [|kv ps]; [by exists 1%nat|].
    destruct (pmembers_text (kv :: ps) [] rest) as [n Hn]; [done|done|done|].
    exists (S n). cbn [json_text].
    change (@map _ (list Z) (fun kv => quote kv.1 ++ [58] ++ json_text kv.2))
      with (@map _ jsstr member_text).
    pose proof (skip_ws_join_member kv ps (125 :: rest)) as Hws.
    assert (He : expect 125 (join [44] (map member_text (kv :: ps)) ++ 125 :: rest) = None)
      by (destruct ps; reflexivity).
    remember (join [44] (map member_text (kv :: ps))) as J eqn:HJ.
    rewrite <- !app_assoc. simpl. by rewrite Hws, He.
Qed.

(** ** What [JSON.parse] returns *)

Lemma hex_val_nonneg c x : hex_val c = Some x -> 0 <= x.
Proof. unfold hex_val. repeat case_match; intros [=<-]; rewrite ?andb_true_iff, ?Z.leb_le in *; lia. Qed.

Lemma hex4_nonneg a b c d x : hex4 a b c d = Some x -> 0 <= x.
Proof.
  unfold hex4. destruct (hex_val a) eqn:Ea, (hex_val b) eqn:Eb, (hex_val c) eqn:Ec, (hex_val d) eqn:Ed;
    simpl; try done. intros [=<-].
  apply hex_val_nonneg in Ea, Eb, Ec, Ed. lia.
Qed.

Lemma escape_char_nonneg c x : escape_char c = Some x -> 0 <= x.
Proof. unfold escape_char. repeat case_match; intros [=<-]; lia. Qed.

Lemma cons_fst_units x o str r :
  cons_fst x o = Some (str, r) -> 0 <= x ->
  (forall str' r', o = Some (str', r') -> units_ok str' = true) -> units_ok str = true.
Proof.
  destruct o as [[str' r']|]; simpl; [|done]. intros [=<- <-] Hx H.
  apply andb_true_iff. split; [by apply Z.leb_le|by eapply H].
Qed.

(** The code units a string literal decodes to are non-negative. *)
Lemma pstring_units s str r : pstring s = Some (str, r) -> units_ok str = true.
Proof.
  revert str r. induction s as [s IH] using (induction_ltof1 _ (@length Z)); unfold ltof in IH.
  intros str r. destruct s as [|c s]; simpl; [done|]. intros Hs.
  destruct (c =? 34); [by simplify_eq|].
  destruct (c =? 92).
  - destruct s as [|e s']; [done|]. destruct (e =? 117).
    + destruct s' as [|a [|b [|c' [|d r'']]]]; try done.
      destruct (hex4 a b c' d) eqn:Eh; [|done].
      apply (cons_fst_units _ _ _ _ Hs); [eauto using hex4_nonneg|].
      intros str' r' H'; eapply IH; [|exact H']; simpl; lia.
    + destruct (escape_char e) eqn:Ee; [|done].
      apply (cons_fst_units _ _ _ _ Hs); [eauto using escape_char_nonneg|].
      intros str' r' H'; eapply IH; [|exact H']; simpl; lia.
  - destruct (Z.ltb_spec c 32); [done|].
    apply (cons_fst_units _ _ _ _ Hs); [lia|]. intros str' r' H'; eapply IH; [|exact H']; simpl; lia.
Qed.

Lemma pliteral_wf s v r : pliteral s = Some (v, r) -> json_wfb v = true.
Proof.
  unfold pliteral. destruct (expect_lit _ s); [by intros [=<- <-]|]. destruct (expect_lit _ s); [by intros [=<- <-]|].
  destruct (expect_lit _ s); [by intros [=<- <-]|]. destruct (pnumber s) as [[x r']|]; [by intros [=<- <-]|done].
Qed.

Lemma obj_set_keys acc k v :
  map fst (obj_set acc k v) = if bool_decide (k ∈ map fst acc) then map fst acc else map fst acc ++ [k].
Proof.
  induction acc as [|[k' v'] acc IH]; simpl; [done|].
  destruct (decide (k = k')) as [->|Hne].
  - rewrite bool_decide_true by done. rewrite bool_decide_true by set_solver. done.
  - rewrite bool_decide_false by done. simpl. rewrite IH.
    case_bool_decide as H1; case_bool_decide as H2; try done; exfalso; rewrite elem_of_cons in H2; tauto.
Qed.

Lemma obj_set_wf acc k v :
  json_wfb (JObj acc) = true -> units_ok k = true -> json_wfb v = true ->
  json_wfb (JObj (obj_set acc k v)) = true.
Proof.
  simpl. rewrite !andb_true_iff, !bool_decide_eq_true. intros [Hnd Hall] Hk Hv. split.
  - rewrite obj_set_keys. case_bool_decide; [done|]. apply NoDup_app. split_and!; [done| |by constructor; [set_solver|constructor]].
    intros x Hx ->%list_elem_of_singleton. done.
  - clear Hnd. induction acc as [|[k' v'] acc IH]; simpl in *; [by rewrite Hk, Hv|].
    apply andb_true_iff in Hall as [Hkv Hall]. case_bool_decide; simpl.
    + subst. apply andb_true_iff in Hkv as [Hk' _]. by rewrite Hk', Hv, Hall.
    + by rewrite Hkv, IH.
Qed.

Lemma parse_wf_gen n :
  (forall s v r, pvalue n s = POk (v, r) -> json_wfb v = true) /\
  (forall acc s v r, json_wfb (JObj acc) = true -> pmembers n acc s = POk (v, r) -> json_wfb v = true) /\
  (forall acc s v r, forallb json_wfb acc = true -> pelements n acc s = POk (v, r) -> json_wfb v = true).
Proof.
  induction n as [|n (IHv & IHm & IHe)]; [done|].
  split_and!; intros *; simpl; [intros H|intros Hacc H|intros Hacc H];
    repeat (case_match; simplify_eq/=; try done);
    repeat match goal with
    | H : pvalue n _ = POk (_, _) |- _ => apply IHv in H
    | H : pstring _ = Some (_, _) |- _ => apply pstring_units in H
    | H : pliteral _ = Some (_, _) |- _ => apply pliteral_wf in H
    end; try done;
    first [ eapply IHm; [|eassumption]; first [reflexivity|by apply obj_set_wf]
          | eapply IHe; [|eassumption]; first [reflexivity|rewrite forallb_app; simpl; rewrite andb_true_r; by apply andb_true_iff]
          | by apply obj_set_wf
          | rewrite forallb_app; simpl; rewrite andb_true_r; by apply andb_true_iff ].
Qed.

Definition json_ws (w : jsstr) : Prop := Forall (fun c => is_json_ws c = true) w.

Lemma skip_ws_json_ws w s : json_ws w -> skip_ws (w ++ s) = skip_ws s.
Proof. induction 1 as [|c w Hc _ IH]; simpl; [done|]. by rewrite Hc. Qed.

Lemma stops_json_ws w : json_ws w -> stops w = true.
Proof.
  destruct 1 as [|c w Hc _]; [done|]. simpl. unfold is_json_ws in Hc. unfold is_digit.
  rewrite !orb_true_iff, !Z.eqb_eq in Hc. apply negb_true_iff, andb_false_iff.
  destruct (Z.leb_spec 48 c); [right; apply Z.leb_gt; lia|by left].
Qed.

(** The text of a well-formed value, with whitespace around it, parses
    back to the value. *)
Lemma parse_json_text w1 v w2 :
  json_ws w1 -> json_ws w2 -> json_wfb v = true -> JSON_parse (w1 ++ json_text v ++ w2) = Normal v.
Proof.
  intros H1 H2 Hwf. destruct (json_text_parses v Hwf w2 (stops_json_ws w2 H2)) as [n Hn].
  unfold JSON_parse. rewrite skip_ws_json_ws, skip_ws_json_text by done.
  set (t := w1 ++ json_text v ++ w2).
  assert (Hp : pvalue (json_fuel t) (json_text v ++ w2) = POk (v, w2)).
  { destruct (decide (n <= json_fuel t)%nat); [by eapply pvalue_up|].
    transitivity (pvalue n (json_text v ++ w2)); [|exact Hn]. symmetry.
    apply (proj1 (parse_stable _)); [|lia]. apply (proj1 (parse_fuel _)).
    unfold json_fuel, t. rewrite !length_app. lia. }
  rewrite Hp. pose proof (skip_ws_json_ws w2 [] H2) as Hw. rewrite app_nil_r in Hw. by rewrite Hw.
Qed.

(** ** Theorems *)

(** [JSON.parse] reads back every well-formed value from its JSON
    text, with any JSON whitespace around it: strings with escaped
    quotes, backslashes and control characters, numbers with signs and
    exponents, nested arrays and objects without repeated keys. *)
Theorem JSON_parse_json_text w1 v w2 :
  json_ws w1 -> json_ws w2 -> json_wfb v = true -> JSON_parse (w1 ++ json_text v ++ w2) = Normal v.
Proof. apply parse_json_text. Qed.

(** What [JSON.parse] returns is well-formed: it has no [undefined],
    its strings hold non-negative code units, and no object has a key
    twice (a repeated key in the text keeps one property). *)
Theorem JSON_parse_wf text v : JSON_parse text = Normal v -> json_wfb v = true.
Proof.
  unfold JSON_parse. destruct (pvalue _ _) as [[v' r]| |] eqn:E; [|done|done].
  case_bool_decide; [intros [=<-]|done]. by eapply (proj1 (parse_wf_gen _)).
Qed.

(** ** Witnesses *)

(** A day plan with a string that needs every kind of escape. *)
Definition sample_json : jsval :=
  JObj [(js "days", JArr [JObj [(js "day", JNum (Num 1 0)); (js "title", JStr (js "Arrival"))]]);
        (js "note", JStr [34; 92; 10; 7]);
        (js "budget", JNum (Num (-125) (-1)))].

