(* ===== verification/NumberText.v ===== *)
(** * [Number::toString] read back by [JSON.parse]

    When the model answers with a number rather than a string,
    [JSON.parse] (line 33) first converts it with [ToString], i.e. with
    ECMA-262 [Number::toString] ([num_to_js] of [JsValue]), and parses the
    text. This file shows that the text is read back as a number of the
    same value ([num_eqv], a setoid on the exact decimals [num]: the value
    [m * 10^e] as a rational), that [Number::toString] depends only on
    that value ([num_to_js_proper]), so printing the parsed number gives
    the same text again. [Attempt] uses it to show that an attempt on a
    number or boolean content always fails with the not-an-object
    error. *)

From Stdlib Require Import QArith Qpower.
From S2P Require Import Prelude JsString JsValue Json JsonText.

Local Open Scope Z_scope.

(** ** The value of digits and numbers *)

(** The value of a string of decimal digits, read from the left. *)
Definition dstep (a c : Z) : Z := 10 * a + (c - 48).
Definition dval (s : jsstr) : Z := fold_left dstep s 0.

Definition digits (s : jsstr) : Prop := Forall (fun c => is_digit c = true) s.

(** The value of an exact decimal, a rational number, and the equivalence
    of numbers of equal value: [Num 5 0], [Num 50 (-1)] and [Num 500 (-2)]
    are the same JS number. *)
Definition num_value (x : num) : Q := inject_Z (num_mant x) * Qpower (inject_Z 10) (num_exp x).
Definition num_eqv (x y : num) : Prop := Qeq (num_value x) (num_value y).

(** ** Digit strings *)

Lemma dval_acc s a : fold_left dstep s a = a * 10 ^ Z.of_nat (length s) + dval s.
Proof.
  unfold dval. revert a. induction s as [|c s IH]; intros a; simpl; [lia|].
  rewrite (IH (dstep a c)), (IH (dstep 0 c)). unfold dstep.
  rewrite Nat2Z.inj_succ, Z.pow_succ_r by lia. lia.
Qed.

Lemma dval_app a b : dval (a ++ b) = dval a * 10 ^ Z.of_nat (length b) + dval b.
Proof. unfold dval at 1. rewrite fold_left_app. apply dval_acc. Qed.

Lemma dval_cons c s : dval (c :: s) = (c - 48) * 10 ^ Z.of_nat (length s) + dval s.
Proof. apply (dval_app [c] s). Qed.

Lemma of_uint_acc_dval s d p :
  js_to_uint s = Some d -> Zpos (Pos.of_uint_acc d p) = fold_left dstep s (Zpos p).
Proof.
  revert d p. induction s as [|c r IH]; intros d p H; simpl in H; [by simplify_eq|].
  destruct (js_to_uint r) as [d'|] eqn:E; simpl in H; [|discriminate].
  destruct c as [|c|c]; try discriminate;
    repeat (destruct c as [c|c|]; try discriminate); simplify_eq; simpl;
    rewrite IH by done; unfold dstep; f_equal; lia.
Qed.

Lemma digits_N_dval s d : js_to_uint s = Some d -> Z.of_N (digits_N s) = dval s.
Proof.
  unfold digits_N. intros H. rewrite H. simpl. unfold N.of_uint. revert d H.
  induction s as [|c r IH]; intros d H; simpl in H; [by simplify_eq|].
  destruct (js_to_uint r) as [d'|] eqn:E; simpl in H; [|discriminate].
  rewrite dval_cons.
  destruct c as [|c|c]; try discriminate;
    repeat (destruct c as [c|c|]; try discriminate); simplify_eq; simpl;
    first [rewrite (IH d') by done; lia|rewrite (of_uint_acc_dval _ _ _ E), dval_acc; lia].
Qed.

Lemma js_to_uint_digits s : digits s -> exists d, js_to_uint s = Some d.
Proof.
  induction 1 as [|c s Hc _ [d IH]]; [by eexists|]. simpl. rewrite IH. simpl.
  unfold is_digit in Hc. rewrite andb_true_iff, !Z.leb_le in Hc.
  assert (c = 48 \/ c = 49 \/ c = 50 \/ c = 51 \/ c = 52 \/ c = 53 \/ c = 54 \/ c = 55 \/ c = 56 \/ c = 57)
    as Hc' by lia. repeat destruct Hc' as [->|Hc']; subst; eauto.
Qed.

Lemma digits_N_val s : digits s -> Z.of_N (digits_N s) = dval s.
Proof. intros Hs. destruct (js_to_uint_digits s Hs) as [d Hd]. by eapply digits_N_dval. Qed.

Lemma dval_N_to_js n : dval (N_to_js n) = Z.of_N n.
Proof. rewrite <- digits_N_val by apply N_to_js_digits. by rewrite digits_N_to_js. Qed.

Lemma repeat_snoc {A} (x : A) j : repeat x (S j) = repeat x j ++ [x].
Proof. induction j as [|j IH]; simpl; [done|]. by rewrite <- IH. Qed.

Lemma dval_zeros j : dval (repeat 48 j) = 0.
Proof. induction j as [|j IH]; [done|]. rewrite repeat_snoc, dval_app, IH. reflexivity. Qed.



Lemma trailing_zeros_spec ds :
  let tz := trailing_zeros ds in
  (tz <= length ds)%nat /\ ds = take (length ds - tz) ds ++ repeat 48 tz /\
  forall pre c, take (length ds - tz) ds = pre ++ [c] -> c <> 48.
Proof.
  induction ds as [|c r (Hle & Hsplit & Hlast)]; simpl; [split_and!; [lia|done|]; intros [] ? ?; done|].
  case_bool_decide as Hz.
  - assert (r = repeat 48 (length r)) as Er.
    { clear -Hz. induction Hz as [|x r -> _ IH]; simpl; [done|by f_equal]. }
    case_bool_decide as Hc.
    + subst c. replace (S (length r) - S (length r))%nat with 0%nat by lia. simpl.
      split_and!; [lia|by f_equal|]. intros [] ? ?; done.
    + replace (S (length r) - length r)%nat with 1%nat by lia. simpl.
      split_and!; [lia|by f_equal|].
      intros [|? []] c' [= <-]; [done|..]; done.
  - set (tz := trailing_zeros r) in *.
    assert (tz < length r)%nat as Hlt.
    { destruct (decide (tz = length r)) as [E|]; [|lia]. exfalso. apply Hz.
      rewrite Hsplit, E, Nat.sub_diag. simpl. apply Forall_forall. intros x Hx.
      by apply list_elem_of_In, repeat_spec in Hx. }
    replace (S (length r) - tz)%nat with (S (length r - tz)) by lia. simpl.
    split_and!; [lia|by f_equal|].
    intros pre c' Hp. destruct pre as [|c0 pre]; simpl in Hp; simplify_eq.
    + destruct (take (length r - tz) r) eqn:E; [|done]. apply (f_equal length) in E.
      rewrite length_take in E. simpl in E. lia.
    + by apply (Hlast pre).
Qed.

(** ** The value setoid *)

#[export] Instance num_eqv_equiv : Equivalence num_eqv.
Proof. unfold num_eqv. split; red; intros; [reflexivity|by symmetry|etransitivity; eauto]. Qed.

Lemma num_shift m e j : 0 <= j -> num_eqv (Num (m * 10 ^ j) e) (Num m (e + j)).
Proof.
  intros Hj. unfold num_eqv, num_value. simpl. rewrite inject_Z_mult, Zpower_Qpower by done.
  rewrite Qpower_plus by discriminate. ring.
Qed.

Lemma num_neg x y : num_eqv x y -> num_eqv (Num (- num_mant x) (num_exp x)) (Num (- num_mant y) (num_exp y)).
Proof.
  unfold num_eqv, num_value. simpl. rewrite !inject_Z_opp. intros H.
  assert (forall a b : Q, Qeq (- a * b) (- (a * b))) as E by (intros; ring).
  rewrite !E, H. reflexivity.
Qed.


(** ** Reading the four forms back *)

Lemma is_digit_iff c : is_digit c = true <-> 48 <= c <= 57.
Proof. unfold is_digit. rewrite andb_true_iff, !Z.leb_le. done. Qed.

Lemma stops_nondigit c r : ~ (48 <= c <= 57) -> stops (c :: r) = true.
Proof. intros Hc. simpl. destruct (is_digit c) eqn:E; [|done]. apply is_digit_iff in E. lia. Qed.

Lemma pint_pos c r : 49 <= c <= 57 -> pint (c :: r) = Some (span_digits (c :: r)).
Proof.
  intros Hc. unfold pint. rewrite (proj2 (Z.eqb_neq c 48)) by lia.
  assert ((49 <=? c) && (c <=? 57) = true) as -> by (apply andb_true_iff; lia). done.
Qed.

Lemma pfrac_none s : (forall r, s <> 46 :: r) -> pfrac s = Some ([], s).
Proof.
  intros Hs. unfold pfrac. destruct s as [|c r]; [done|]. simpl.
  rewrite (proj2 (Z.eqb_neq c 46)); [done|]. intros ->. by apply (Hs r).
Qed.

Lemma pfrac_digits fd rest :
  fd <> [] -> digits fd -> stops rest = true -> pfrac (46 :: fd ++ rest) = Some (fd, rest).
Proof. intros Hne Hd Hr. unfold pfrac. simpl. rewrite span_digits_stops by done. by rewrite bool_decide_false. Qed.

(** The exponent part [e+d] or [e-d] of [Number::toString]. *)
Lemma pexp_signed e :
  pexp ([101; if e <? 0 then 45 else 43] ++ Z_to_js (Z.abs e)) = Some (e, []).
Proof.
  assert (Z_to_js (Z.abs e) = N_to_js (Z.to_N (Z.abs e))) as ->.
  { destruct (Z_to_js_cases (Z.abs e)) as [(H & _)|(_ & ->)]; [lia|done]. }
  unfold pexp, opt_char. simpl. pose proof (span_N_to_js (Z.to_N (Z.abs e)) [] eq_refl) as Hs.
  rewrite app_nil_r in Hs.
  destruct (Z.ltb_spec e 0); simpl;
    rewrite Hs, bool_decide_false by apply N_to_js_nonempty; rewrite digits_N_to_js; do 2 f_equal; lia.
Qed.

(** [pnumber] on a text without a minus sign, from its three parts. *)
Lemma pnumber_parts t int r1 frac r2 e rest :
  (forall r, t <> 45 :: r) -> pint t = Some (int, r1) -> pfrac r1 = Some (frac, r2) ->
  pexp r2 = Some (e, rest) -> digits (int ++ frac) ->
  pnumber t = Some (Num (dval (int ++ frac)) (e - Z.of_nat (length frac)), rest).
Proof.
  intros Ht Hi Hf He Hd. unfold pnumber, opt_char.
  assert (expect 45 t = None) as ->.
  { destruct t as [|c r]; [done|]. simpl. rewrite (proj2 (Z.eqb_neq c 45)); [done|]. intros ->. by apply (Ht r). }
  rewrite Hi. simpl. rewrite Hf. simpl. rewrite He. simpl. by rewrite digits_N_val.
Qed.

Lemma digits_repeat j : digits (repeat 48 j).
Proof. apply Forall_forall. intros x Hx. apply list_elem_of_In, repeat_spec in Hx. by subst. Qed.

Lemma span_digits_split ds rest : digits ds -> stops rest = true -> span_digits (ds ++ rest) = (ds, rest).
Proof. apply span_digits_stops. Qed.

Lemma pint_digits ds rest :
  digits ds -> (exists c r, ds = c :: r /\ 49 <= c <= 57) -> stops rest = true ->
  pint (ds ++ rest) = Some (ds, rest).
Proof.
  intros Hd (c & r & -> & Hc) Hr. cbn [app]. rewrite pint_pos by done.
  change (c :: r ++ rest) with ((c :: r) ++ rest). by rewrite span_digits_split.
Qed.

(** Each of the four forms of [Number::toString] reads back as a number
    of the same value. *)
Lemma pos_num_to_js_parse ds n :
  digits ds -> (exists c r, ds = c :: r /\ 49 <= c <= 57) ->
  exists y, pnumber (pos_num_to_js ds n) = Some (y, []) /\
            num_eqv y (Num (dval ds) (n - Z.of_nat (length ds))).
Proof.
  intros Hd (c & r & -> & Hc). unfold pos_num_to_js.
  set (k := Z.of_nat (length (c :: r))).
  assert (Hnot45 : forall t, (forall r', c :: t <> 45 :: r')) by (intros t r' [=]; lia).
  destruct ((k <=? n) && (n <=? 21)) eqn:E1;
    [|destruct ((0 <? n) && (n <=? 21)) eqn:E2; [|destruct ((-6 <? n) && (n <=? 0)) eqn:E3]].
  - rewrite andb_true_iff, !Z.leb_le in E1.
    assert (Ht : digits ((c :: r) ++ repeat 48 (Z.to_nat (n - k)))) by (apply Forall_app; split; [done|apply digits_repeat]).
    pose proof (span_digits_split _ [] Ht eq_refl) as Hs. rewrite app_nil_r in Hs.
    eexists. split.
    + apply (pnumber_parts _ ((c :: r) ++ repeat 48 (Z.to_nat (n - k))) [] [] [] 0 []); [apply Hnot45|cbn [app] in *; by rewrite pint_pos, Hs|
        by apply pfrac_none|done|by rewrite app_nil_r].
    + rewrite app_nil_r, dval_app, dval_zeros, repeat_length, Z2Nat.id by lia.
      replace (n - k) with (0 + (n - k)) at 2 by lia. rewrite Z.add_0_r. apply num_shift. lia.
  - rewrite andb_true_iff, Z.ltb_lt, Z.leb_le in E2. apply andb_false_iff in E1.
    assert (n < k) as Hnk by (destruct E1 as [E1|E1]; apply Z.leb_gt in E1; lia).
    remember (Z.to_nat n) as n' eqn:En. assert (1 <= n' < length (c :: r))%nat as Hn' by (unfold k in *; lia).
    assert (Hdt : digits (take n' (c :: r))) by by apply Forall_take.
    assert (Hdd : digits (drop n' (c :: r))) by by apply Forall_drop.
    assert (Hne : drop n' (c :: r) <> []).
    { intros E. apply (f_equal length) in E. rewrite length_drop in E. simpl in *. lia. }
    eexists. split.
    + apply (pnumber_parts _ (take n' (c :: r)) (46 :: drop n' (c :: r)) (drop n' (c :: r)) [] 0 []).
      * replace n' with (S (n' - 1)) by lia. apply Hnot45.
      * apply pint_digits; [done| |by apply stops_nondigit; lia].
        replace n' with (S (n' - 1)) by lia. simpl. eauto.
      * rewrite <- (app_nil_r (drop n' (c :: r))) at 1. by apply pfrac_digits.
      * done.
      * by rewrite take_drop.
    + rewrite take_drop, length_drop. subst n'. rewrite Nat2Z.inj_sub, Z2Nat.id by lia.
      replace (0 - (Z.of_nat (length (c :: r)) - n)) with (n - Z.of_nat (length (c :: r))) by lia.
      reflexivity.
  - rewrite andb_true_iff, Z.ltb_lt, Z.leb_le in E3.
    set (j := Z.to_nat (- n)).
    assert (Hf : digits (repeat 48 j ++ c :: r)) by (apply Forall_app; split; [apply digits_repeat|done]).
    eexists. split.
    + apply (pnumber_parts _ [48] (46 :: repeat 48 j ++ c :: r) (repeat 48 j ++ c :: r) [] 0 []).
      * intros r' [=].
      * done.
      * rewrite <- (app_nil_r (repeat 48 j ++ c :: r)) at 1. apply pfrac_digits; [|done..].
        intros E. apply (f_equal length) in E. rewrite length_app in E. simpl in E. lia.
      * done.
      * constructor; [done|exact Hf].
    + rewrite app_assoc, dval_app. change ([48] ++ repeat 48 j) with (repeat 48 (S j)).
      rewrite dval_zeros, length_app, repeat_length.
      unfold j, k. rewrite Nat2Z.inj_add, Z2Nat.id by lia.
      replace (0 - (- n + Z.of_nat (length (c :: r)))) with (n - Z.of_nat (length (c :: r))) by lia.
      rewrite Z.mul_0_l, Z.add_0_l. reflexivity.
  - set (e := n - 1). set (sign := if e <? 0 then 45 else 43).
    assert (Hstop : forall t, stops (101 :: t) = true) by done.
    destruct r as [|d rest].
    + eexists. split.
      * apply (pnumber_parts _ [c] ([101; sign] ++ Z_to_js (Z.abs e)) [] ([101; sign] ++ Z_to_js (Z.abs e)) e []).
        -- apply Hnot45.
        -- apply (pint_digits [c]); [done|eauto|apply Hstop].
        -- by apply pfrac_none.
        -- apply pexp_signed.
        -- done.
      * unfold e, k. replace (n - 1 - Z.of_nat (length [])) with (n - Z.of_nat (length [c])) by (simpl; lia).
        reflexivity.
    + eexists. split.
      * apply (pnumber_parts _ [c] (46 :: (d :: rest) ++ [101; sign] ++ Z_to_js (Z.abs e)) (d :: rest)
                 ([101; sign] ++ Z_to_js (Z.abs e)) e []).
        -- apply Hnot45.
        -- apply (pint_digits [c]); [|eauto|by apply stops_nondigit; lia].
           apply Forall_cons in Hd as [? _]. by constructor.
        -- apply pfrac_digits; [done|by apply Forall_cons in Hd as [_ ?]|apply Hstop].
        -- apply pexp_signed.
        -- done.
      * unfold e, k. replace (n - 1 - Z.of_nat (length (d :: rest))) with (n - Z.of_nat (length (c :: d :: rest)))
          by (simpl; lia). reflexivity.
Qed.

Lemma pos_num_to_js_head c r n :
  49 <= c <= 57 -> exists c' t, pos_num_to_js (c :: r) n = c' :: t /\ 48 <= c' <= 57.
Proof.
  intros Hc. unfold pos_num_to_js.
  destruct ((Z.of_nat (length (c :: r)) <=? n) && (n <=? 21)); [eexists _, _; split; [reflexivity|lia]|].
  destruct ((0 <? n) && (n <=? 21)) eqn:E2.
  { apply andb_true_iff in E2 as [E2 _]. apply Z.ltb_lt in E2.
    destruct (Z.to_nat n) eqn:En; [lia|]. eexists _, _; split; [reflexivity|lia]. }
  destruct ((-6 <? n) && (n <=? 0)); [eexists _, _; split; [reflexivity|lia]|].
  destruct r; eexists _, _; split; [reflexivity|lia|reflexivity|lia].
Qed.

(** A minus sign in front negates the mantissa. *)
Lemma pnumber_neg t y rest :
  (forall r, t <> 45 :: r) -> pnumber t = Some (y, rest) ->
  pnumber (45 :: t) = Some (Num (- num_mant y) (num_exp y), rest).
Proof.
  intros Ht. unfold pnumber, opt_char.
  replace (expect 45 (45 :: t)) with (Some t) by done.
  replace (expect 45 t) with (@None jsstr)
    by (destruct t as [|c r]; [done|]; simpl; rewrite (proj2 (Z.eqb_neq c 45)); [done|]; intros ->; by apply (Ht r)).
  cbv iota beta. destruct (pint t) as [[int r1]|]; simpl; [|done].
  destruct (pfrac r1) as [[frac r2]|]; simpl; [|done].
  destruct (pexp r2) as [[e r3]|]; simpl; [|done]. by intros [= <- <-].
Qed.

Lemma num_zero_eqv e e' : num_eqv (Num 0 e) (Num 0 e').
Proof. unfold num_eqv, num_value. simpl. rewrite !Qmult_0_l. reflexivity. Qed.

Lemma trailing_split_head ds0 c r :
  ds0 = c :: r -> 49 <= c <= 57 -> exists r', take (length ds0 - trailing_zeros ds0) ds0 = c :: r'.
Proof.
  intros E Hc. destruct (trailing_zeros_spec ds0) as (Hle & Hsplit & _).
  remember (trailing_zeros ds0) as tz eqn:Etz. clear Etz.
  destruct (decide (tz = length ds0)) as [->|Hne].
  - rewrite Nat.sub_diag in Hsplit. simpl in Hsplit. rewrite E in Hsplit. simpl in Hsplit.
    simplify_eq. lia.
  - replace (length ds0 - tz)%nat with (S (length ds0 - tz - 1)) by lia. rewrite E. simpl. eauto.
Qed.

Lemma dval_single c : dval [c] = c - 48.
Proof. unfold dval. simpl. unfold dstep. lia. Qed.

Lemma trailing_last_nonzero ds0 :
  digits ds0 -> take (length ds0 - trailing_zeros ds0) ds0 <> [] ->
  dval (take (length ds0 - trailing_zeros ds0) ds0) mod 10 <> 0.
Proof.
  intros Hd Hne. destruct (trailing_zeros_spec ds0) as (_ & _ & Hlast).
  assert (Hdt : digits (take (length ds0 - trailing_zeros ds0) ds0)) by by apply Forall_take.
  destruct (exists_last Hne) as (pre & c & E). rewrite E in Hdt |- *. specialize (Hlast pre c E).
  apply Forall_app in Hdt as [_ Hc]. apply Forall_inv, is_digit_iff in Hc.
  rewrite dval_app, dval_single. change (10 ^ Z.of_nat 1) with 10.
  rewrite Z.add_comm, Z.mod_add, Z.mod_small; lia.
Qed.

(** The digits [ds] and the exponent [num_to_js] computes, and their
    value. *)
Lemma num_to_js_digits m :
  m <> 0 -> let ds0 := N_to_js (Z.to_N (Z.abs m)) in
  let ds := take (length ds0 - trailing_zeros ds0) ds0 in
  digits ds /\ (exists c r, ds = c :: r /\ 49 <= c <= 57) /\
  Z.abs m = dval ds * 10 ^ Z.of_nat (trailing_zeros ds0) /\ dval ds mod 10 <> 0.
Proof.
  intros Hm. cbv zeta. pose proof (dval_N_to_js (Z.to_N (Z.abs m))) as Hv.
  pose proof (N_to_js_head (Z.to_N (Z.abs m))) as Hh.
  assert (Hd0 : digits (N_to_js (Z.to_N (Z.abs m)))) by apply N_to_js_digits.
  remember (N_to_js (Z.to_N (Z.abs m))) as ds0 eqn:E0. clear E0.
  rewrite Z2N.id in Hv by lia. destruct (trailing_zeros_spec ds0) as (_ & Hsplit & _).
  assert (Hhd : exists c r, take (length ds0 - trailing_zeros ds0) ds0 = c :: r /\ 49 <= c <= 57).
  { destruct Hh as [E|(c & r & E & Hc)].
    - subst ds0. assert (dval [48] = 0) as H0 by reflexivity. lia.
    - destruct (trailing_split_head ds0 c r E Hc) as [r' ->]. eauto. }
  split_and!; [by apply Forall_take|done| |].
  - rewrite <- Hv. rewrite Hsplit at 1. rewrite dval_app, dval_zeros, repeat_length. lia.
  - apply trailing_last_nonzero; [done|]. by destruct Hhd as (? & ? & -> & _).
Qed.

(** [Number::toString] reads back as a number of the same value. *)
Lemma num_to_js_pnumber x : exists y, pnumber (num_to_js x) = Some (y, []) /\ num_eqv y x.
Proof.
  destruct x as [m e]. unfold num_to_js. simpl.
  destruct (Z.eqb_spec m 0) as [->|Hm]; [exists (Num 0 0); split; [reflexivity|apply num_zero_eqv]|].
  destruct (num_to_js_digits m Hm) as (Hd & (c & r & Hds & Hc) & Hv & _).
  set (ds0 := N_to_js (Z.to_N (Z.abs m))) in *.
  set (ds := take (length ds0 - trailing_zeros ds0) ds0) in *.
  set (n := e + Z.of_nat (trailing_zeros ds0) + Z.of_nat (length ds)).
  destruct (pos_num_to_js_parse ds n Hd ltac:(eauto)) as (y & Hy & Hyv).
  replace (n - Z.of_nat (length ds)) with (e + Z.of_nat (trailing_zeros ds0)) in Hyv by (unfold n; lia).
  assert (Hshift : num_eqv (Num (dval ds * 10 ^ Z.of_nat (trailing_zeros ds0)) e) (Num (dval ds) (e + Z.of_nat (trailing_zeros ds0))))
    by (apply num_shift; lia).
  destruct (Z.ltb_spec m 0).
  - exists (Num (- num_mant y) (num_exp y)). split.
    + apply pnumber_neg; [|done]. rewrite Hds. destruct (pos_num_to_js_head c r n Hc) as (c' & t & -> & Hc').
      intros r' [=]. lia.
    + replace m with (- (dval ds * 10 ^ Z.of_nat (trailing_zeros ds0))) by lia.
      apply (num_neg _ (Num (dval ds * 10 ^ Z.of_nat (trailing_zeros ds0)) e)). by rewrite Hyv, Hshift.
  - exists y. split; [done|]. replace m with (dval ds * 10 ^ Z.of_nat (trailing_zeros ds0)) by lia.
    by rewrite Hyv, Hshift.
Qed.

(** ** Equal values print the same *)

Lemma num_value_split x z :
  z <= num_exp x -> Qeq (num_value x) (inject_Z (num_mant x * 10 ^ (num_exp x - z)) * Qpower (inject_Z 10) z).
Proof.
  intros Hz. rewrite inject_Z_mult, Zpower_Qpower by lia. unfold num_value.
  rewrite <- Qmult_assoc, <- Qpower_plus by discriminate. by replace (num_exp x - z + z) with (num_exp x) by lia.
Qed.

(** Two numbers have the same value when their mantissas agree at the
    smaller exponent. *)
Lemma num_eqv_Z x y :
  num_eqv x y <->
  num_mant x * 10 ^ (num_exp x - Z.min (num_exp x) (num_exp y)) =
  num_mant y * 10 ^ (num_exp y - Z.min (num_exp x) (num_exp y)).
Proof.
  unfold num_eqv. rewrite (num_value_split x (Z.min (num_exp x) (num_exp y))) by lia.
  rewrite (num_value_split y (Z.min (num_exp x) (num_exp y))) by lia.
  rewrite Qmult_inj_r by (apply Qpower_not_0; discriminate). apply inject_Z_injective.
Qed.

Lemma pow10_pos k : 0 <= k -> 0 < 10 ^ k.
Proof. intros. by apply Z.pow_pos_nonneg. Qed.

Lemma pow10_cancel_le p1 p2 i j :
  p1 mod 10 <> 0 -> 0 <= i <= j -> p1 * 10 ^ i = p2 * 10 ^ j -> p1 = p2 /\ i = j.
Proof.
  intros Hp Hij H. replace j with ((j - i) + i) in H by lia. rewrite Z.pow_add_r, Z.mul_assoc in H by lia.
  apply Z.mul_cancel_r in H; [|pose proof (pow10_pos i); lia].
  destruct (Z.eq_dec i j) as [<-|Hne]; [rewrite Z.sub_diag in H; lia|].
  exfalso. apply Hp. rewrite H. replace (j - i) with (Z.succ (j - i - 1)) by lia.
  rewrite Z.pow_succ_r by lia. apply Z.mod_divide; [lia|]. exists (p2 * 10 ^ (j - i - 1)). ring.
Qed.

Lemma pow10_unique p1 p2 i j :
  p1 mod 10 <> 0 -> p2 mod 10 <> 0 -> 0 <= i -> 0 <= j -> p1 * 10 ^ i = p2 * 10 ^ j -> p1 = p2 /\ i = j.
Proof.
  intros H1 H2 Hi Hj H. destruct (Z.le_ge_cases i j).
  - by apply pow10_cancel_le.
  - destruct (pow10_cancel_le p2 p1 j i); auto with lia.
Qed.

Lemma js_to_uint_inv s d : js_to_uint s = Some d -> uint_to_js d = s.
Proof.
  revert d. induction s as [|c r IH]; intros d H; simpl in H; [by simplify_eq|].
  destruct (js_to_uint r) as [d'|] eqn:E; simpl in H; [|discriminate].
  destruct c as [|c|c]; try discriminate;
    repeat (destruct c as [c|c|]; try discriminate); simplify_eq; simpl; by rewrite (IH d').
Qed.

(** A digit string without a leading zero is the decimal text of its
    value. *)
Lemma N_to_js_dval ds :
  digits ds -> (exists c r, ds = c :: r /\ 49 <= c <= 57) -> N_to_js (Z.to_N (dval ds)) = ds.
Proof.
  intros Hd (c & r & -> & Hc). destruct (js_to_uint_digits _ Hd) as [d Hu].
  rewrite <- (digits_N_dval _ _ Hu), N2Z.id. unfold digits_N, N_to_js. rewrite Hu. simpl.
  rewrite DecimalN.Unsigned.to_of. rewrite <- (js_to_uint_inv _ _ Hu). f_equal.
  simpl in Hu. destruct (js_to_uint r) as [d'|]; simpl in Hu; [|discriminate].
  destruct c as [|c|c]; try lia; repeat (destruct c as [c|c|]; try discriminate); simplify_eq; try lia; reflexivity.
Qed.

(** [Number::toString] depends only on the value of the number. *)
#[export] Instance num_to_js_proper : Proper (num_eqv ==> eq) num_to_js.
Proof.
  intros [mx ex] [my ey] H. apply num_eqv_Z in H. simpl in H. unfold num_to_js. simpl.
  set (z := Z.min ex ey) in *.
  pose proof (pow10_pos (ex - z) ltac:(lia)). pose proof (pow10_pos (ey - z) ltac:(lia)).
  destruct (Z.eqb_spec mx 0) as [->|Hx], (Z.eqb_spec my 0) as [->|Hy]; [done|nia|nia|].
  destruct (num_to_js_digits mx Hx) as (Hdx & Hhx & Hvx & Hmx), (num_to_js_digits my Hy) as (Hdy & Hhy & Hvy & Hmy).
  pose proof (N_to_js_dval _ Hdx Hhx) as Ecx. pose proof (N_to_js_dval _ Hdy Hhy) as Ecy.
  set (dsx := take _ (N_to_js (Z.to_N (Z.abs mx)))) in *.
  set (dsy := take _ (N_to_js (Z.to_N (Z.abs my)))) in *.
  set (tx := trailing_zeros (N_to_js (Z.to_N (Z.abs mx)))) in *.
  set (ty := trailing_zeros (N_to_js (Z.to_N (Z.abs my)))) in *.
  assert (Habs : dval dsx * 10 ^ (Z.of_nat tx + (ex - z)) = dval dsy * 10 ^ (Z.of_nat ty + (ey - z))).
  { rewrite !Z.pow_add_r, !Z.mul_assoc, <- Hvx, <- Hvy by lia.
    rewrite <- (Z.abs_eq (10 ^ (ex - z))), <- (Z.abs_eq (10 ^ (ey - z))), <- !Z.abs_mul by lia. by rewrite H. }
  assert (Hz : z <= ex /\ z <= ey) by (unfold z; lia).
  destruct (pow10_unique _ _ (Z.of_nat tx + (ex - z)) (Z.of_nat ty + (ey - z)) Hmx Hmy) as [Ev Ee]; [lia|lia|exact Habs|].
  assert (dsx = dsy) as Eds by (rewrite <- Ecx, <- Ecy, Ev; done).
  rewrite Eds. replace (ex + Z.of_nat tx) with (ey + Z.of_nat ty) by lia.
  destruct (Z.ltb_spec mx 0), (Z.ltb_spec my 0); [done|nia|nia|done].
Qed.

(** ** [JSON.parse] of a number text *)

Lemma num_to_js_head x : exists c r, num_to_js x = c :: r /\ (c = 45 \/ 48 <= c <= 57).
Proof.
  destruct x as [m e]. unfold num_to_js. simpl.
  destruct (Z.eqb_spec m 0) as [->|Hm]; [eexists _, _; split; [reflexivity|lia]|].
  destruct (num_to_js_digits m Hm) as (_ & (c & r & -> & Hc) & _).
  destruct (pos_num_to_js_head c r (e + Z.of_nat (trailing_zeros (N_to_js (Z.to_N (Z.abs m))))
              + Z.of_nat (length (c :: r))) Hc) as (c' & t & -> & Hc').
  destruct (m <? 0); eexists _, _; split; [reflexivity|lia|reflexivity|lia].
Qed.

Lemma JSON_parse_pnumber s x :
  (exists c r, s = c :: r /\ (c = 45 \/ 48 <= c <= 57)) -> pnumber s = Some (x, []) ->
  JSON_parse s = Normal (JNum x).
Proof.
  intros Hs Hp. unfold JSON_parse. destruct Hs as (c & r & -> & Hc).
  rewrite value_start_ws by (unfold value_start; lia).
  replace (json_fuel (c :: r)) with (S (2 * length (c :: r) + 1)) by (unfold json_fuel; lia).
  rewrite (pvalue_pnumber _ _ x []); [|eauto|done]. reflexivity.
Qed.

Lemma JSON_parse_num_text x : exists y, JSON_parse (num_to_js x) = Normal (JNum y) /\ num_eqv y x.
Proof.
  destruct (num_to_js_pnumber x) as (y & Hp & Hy). exists y. split; [|done].
  apply JSON_parse_pnumber; [apply num_to_js_head|done].
Qed.

(** ** Theorems *)

(** [JSON.parse] reads the text [Number::toString] prints for any
    number back as a number of the same value, and printing that number
    again gives the same text: [JSON.parse(String(x))] is [x] up to the
    representation of its value, and [String] of it is [String(x)]. *)
Theorem JSON_parse_num_to_js x :
  exists y, JSON_parse (num_to_js x) = Normal (JNum y) /\ num_eqv y x /\ num_to_js y = num_to_js x.
Proof.
  destruct (JSON_parse_num_text x) as (y & Hp & Hy). exists y. split_and!; [done|done|by rewrite Hy].
Qed.
