(* ===== verification/Fenced.v ===== *)
(** * What a fenced answer can become

    Line 32 deletes from fenced content every code unit outside braces,
    brackets, [\w], [\s], comma, colon and the double quote. The text
    [JSON.parse] then reads has no minus or plus sign, no decimal point and
    no backslash. This file follows the parser of [Json] over such a
    [kept] text: a number has no sign, no fraction and no negative exponent,
    and a string or key has no escape, so its code units are printable
    kept units other than the quote: what [JSON.parse] returns from such
    a text is [fence_safe] ([JSON_parse_kept]). [Attempt] draws the
    consequence for the fenced path ([attempt_fenced_result_safe]); with
    [attempt_fenced_json], which returns every [fence_safe] object from its
    fenced text, [fence_safe] is exactly what the fenced path can give. *)

From S2P Require Import Prelude JsString JsValue Json.

Local Open Scope Z_scope.

(** A value whose JSON text the sanitizer leaves alone: numbers without
    a minus sign, strings of printable code units the regex keeps (no
    double quote, which the text escapes with a backslash). *)
Definition safe_unit (c : Z) : bool := keep_char c && (32 <=? c) && negb (c =? 34).

Fixpoint fence_safe (v : jsval) : bool :=
  match v with
  | JUndef => false
  | JNull | JBool _ => true
  | JNum x => (0 <=? num_mant x) && (0 <=? num_exp x)
  | JStr s => forallb safe_unit s
  | JArr xs => forallb fence_safe xs
  | JObj ps => forallb (fun kv => forallb safe_unit kv.1 && fence_safe kv.2) ps
  end.

(** A text made of the code units the sanitizer keeps. *)
Abbreviation kept s := (Forall (fun c => keep_char c = true) s).

(** The members of an object value that [fence_safe] accepts. *)
Definition member_safe (kv : jsstr * jsval) : bool := forallb safe_unit kv.1 && fence_safe kv.2.

(** ** The lexical parts on kept text *)

Lemma expect_kept c s r : expect c s = Some r -> kept s -> kept r.
Proof. destruct s as [|d s]; simpl; [done|]. case_match; [intros [=<-] Hs; by inversion Hs|done]. Qed.

(** A code unit the sanitizer deletes is never found in kept text. *)
Lemma expect_unkept c s : keep_char c = false -> kept s -> expect c s = None.
Proof.
  intros Hc Hs. destruct s as [|d s]; simpl; [done|].
  destruct (Z.eqb_spec d c) as [->|]; [inversion Hs; congruence|done].
Qed.

Lemma opt_char_kept c s : keep_char c = false -> kept s -> opt_char c s = (false, s).
Proof. intros Hc Hs. unfold opt_char. by rewrite expect_unkept. Qed.

Lemma skip_ws_kept s : kept s -> kept (skip_ws s).
Proof. induction s as [|c s IH]; simpl; [done|]. intros Hs. case_match; [inversion Hs; auto|done]. Qed.

Lemma expect_lit_kept lit s r : expect_lit lit s = Some r -> kept s -> kept r.
Proof.
  revert s. induction lit as [|c lit IH]; intros s; simpl; [by intros [=<-]|].
  destruct (expect c s) eqn:E; simpl; [|done]. eauto using expect_kept.
Qed.

Lemma span_digits_kept s ds r : span_digits s = (ds, r) -> kept s -> kept r.
Proof. intros H%span_digits_app Hs. subst. by apply Forall_app in Hs as [_ ?]. Qed.

Create HintDb kept.
#[local] Hint Resolve expect_kept skip_ws_kept expect_lit_kept span_digits_kept : kept.

Lemma pint_kept s int r : pint s = Some (int, r) -> kept s -> kept r.
Proof.
  intros H Hs. destruct s as [|c s]; [done|]. cbn -[span_digits] in H.
  destruct (c =? 48); [injection H as <- <-; by inversion Hs|].
  destruct (_ && _); [injection H as H; exact (span_digits_kept (c :: s) int r H Hs)|done].
Qed.

(** No fraction: the decimal point is deleted. *)
Lemma pfrac_kept s fd r : kept s -> pfrac s = Some (fd, r) -> fd = [] /\ r = s.
Proof. intros Hs. unfold pfrac. rewrite expect_unkept by done. by intros [=]. Qed.

(** No exponent sign: both signs are deleted. *)
Lemma pexp_kept s e r : kept s -> pexp s = Some (e, r) -> 0 <= e /\ kept r.
Proof.
  intros Hs. destruct s as [|c s]; simpl; [intros [=<- <-]; split; [lia|done]|].
  inversion Hs as [|? ? _ Hs']; subst.
  destruct (_ || _); [|intros [=<- <-]; split; [lia|done]].
  rewrite opt_char_kept by done. simpl. rewrite opt_char_kept by done. simpl.
  destruct (span_digits s) as [ed r3] eqn:E. case_bool_decide; [done|].
  intros [=<- <-]. split; [lia|eauto with kept].
Qed.

Lemma pnumber_kept s x r :
  kept s -> pnumber s = Some (x, r) -> 0 <= num_mant x /\ 0 <= num_exp x /\ kept r.
Proof.
  intros Hs. unfold pnumber. rewrite opt_char_kept by done. simpl.
  destruct (pint s) as [[int r1]|] eqn:E1; simpl; [|done].
  destruct (pfrac r1) as [[fd r2]|] eqn:E2; simpl; [|done].
  destruct (pexp r2) as [[e r3]|] eqn:E3; simpl; [|done].
  intros [=<- <-]. pose proof (pint_kept _ _ _ E1 Hs) as H1.
  destruct (pfrac_kept _ _ _ H1 E2) as [-> ->].
  destruct (pexp_kept _ _ _ H1 E3) as [He Hr]. simpl. split_and!; [lia|lia|done].
Qed.

(** A string literal without backslash: its code units are kept, at
    least U+0020, and not the quote. *)
Lemma pstring_kept s str r :
  kept s -> pstring s = Some (str, r) -> forallb safe_unit str = true /\ kept r.
Proof.
  revert str r. induction s as [|c s IH]; intros str r Hs; simpl; [done|].
  inversion Hs as [|? ? Hc Hs']; subst.
  destruct (c =? 34) eqn:E34; [intros [=<- <-]; done|].
  destruct (Z.eqb_spec c 92) as [->|_]; [done|].
  destruct (c <? 32) eqn:Elt; [done|].
  destruct (pstring s) as [[str' r']|] eqn:E; simpl; [intros [=<- <-]|done].
  destruct (IH _ _ Hs' eq_refl) as [Hstr Hr]. split; [|done]. simpl. rewrite Hstr, andb_true_r.
  unfold safe_unit. rewrite Hc, E34. apply Z.ltb_ge in Elt. simpl. rewrite andb_true_r. apply Z.leb_le. lia.
Qed.

Lemma pliteral_kept s v r : kept s -> pliteral s = Some (v, r) -> fence_safe v = true /\ kept r.
Proof.
  intros Hs. unfold pliteral.
  destruct (expect_lit (js "true") s) eqn:E1; [intros [=<- <-]; eauto with kept|].
  destruct (expect_lit (js "false") s) eqn:E2; [intros [=<- <-]; eauto with kept|].
  destruct (expect_lit (js "null") s) eqn:E3; [intros [=<- <-]; eauto with kept|].
  destruct (pnumber s) as [[x r']|] eqn:E; simpl; [intros [=<- <-]|done].
  destruct (pnumber_kept _ _ _ Hs E) as (Hm & He & Hr). simpl.
  split; [|done]. apply andb_true_iff. split; by apply Z.leb_le.
Qed.

Lemma obj_set_safe acc k v :
  forallb member_safe acc = true -> member_safe (k, v) = true ->
  forallb member_safe (obj_set acc k v) = true.
Proof.
  induction acc as [|[k' v'] acc IH]; simpl; [by intros _ ->|].
  intros [Hkv Hacc]%andb_true_iff Hnew. case_bool_decide; subst; simpl.
  - by rewrite Hnew, Hacc.
  - rewrite Hkv. simpl. auto.
Qed.

Lemma forallb_snoc {A} (f : A -> bool) l x :
  forallb f l = true -> f x = true -> forallb f (l ++ [x]) = true.
Proof. intros Hl Hx. rewrite forallb_app, Hl. simpl. by rewrite Hx. Qed.

(** ** Values *)

Ltac parse_case :=
  repeat (case_match; simplify_eq/=); try done.

(** The parser on kept text returns [fence_safe] values and leaves kept
    text, by induction on the fuel through [pvalue], [pmembers] and
    [pelements]. *)
Lemma parse_kept n :
  (forall s v r, kept s -> pvalue n s = POk (v, r) -> fence_safe v = true /\ kept r) /\
  (forall acc s v r, forallb member_safe acc = true -> kept s ->
     pmembers n acc s = POk (v, r) -> fence_safe v = true /\ kept r) /\
  (forall acc s v r, forallb fence_safe acc = true -> kept s ->
     pelements n acc s = POk (v, r) -> fence_safe v = true /\ kept r).
Proof.
  induction n as [|n (IHv & IHm & IHe)]; [split_and!; done|].
  split_and!.
  - intros s v r Hs H. simpl in H. parse_case.
    + eauto with kept.
    + eapply (IHm []); [done| |eassumption]; eauto with kept.
    + eauto with kept.
    + eapply (IHe []); [done| |eassumption]; eauto with kept.
    + match goal with E : pstring _ = Some _ |- _ =>
        apply pstring_kept in E as [? ?]; eauto with kept end.
    + eapply pliteral_kept; eauto.
  - intros acc s v r Hacc Hs H. simpl in H. parse_case;
      match goal with E : pstring _ = Some _ |- _ =>
        apply pstring_kept in E as [Hk Hr1]; [|eauto with kept] end;
      match goal with E : pvalue n _ = POk _ |- _ =>
        apply IHv in E as [Hv Hr3]; [|eauto with kept] end.
    + eapply IHm; [apply obj_set_safe; [done|unfold member_safe; simpl; by rewrite Hk, Hv]| |eassumption]; eauto with kept.
    + split; [simpl; apply obj_set_safe; [done|unfold member_safe; simpl; by rewrite Hk, Hv]|eauto with kept].
  - intros acc s v r Hacc Hs H. simpl in H. parse_case;
      match goal with E : pvalue n _ = POk _ |- _ =>
        apply IHv in E as [Hv Hr]; [|done] end.
    + eapply IHe; [apply forallb_snoc; [done|exact Hv]| |eassumption]; eauto with kept.
    + split; [simpl; apply forallb_snoc; [done|exact Hv]|eauto with kept].
Qed.

Lemma JSON_parse_kept text v : kept text -> JSON_parse text = Normal v -> fence_safe v = true.
Proof.
  intros Hs. unfold JSON_parse.
  destruct (pvalue _ _) as [[v' rest]| |] eqn:E; [|done|done].
  case_bool_decide; [intros [=<-]|done].
  apply ((proj1 (parse_kept _)) _ _ _ (skip_ws_kept _ Hs) E).
Qed.
