(* ===== verification/Payload.v ===== *)
(** * The request payload: [getNumberOfDays] and the replacements

    [getNumberOfDays] (lines 10-15) and the [data] and [headers] objects
    that [generateItinerary], [getBestEateries] and [getFaqs] build (lines
    57-76, 88-107, 117-136). The form type [TravelFormSchema] lives in
    [src/lib/types/formSchema], which is not in the sources: its record is
    modelled from the specification, and so is the [travel_plan] record
    that [ItineraryModel.create] stores.

    A [Date] is its time value [getTime()], an integer number of
    milliseconds. [differenceInTime / oneDayInMilliseconds] is computed
    exactly and [Math.round] takes the floor of the quotient plus one
    half. The double division gives the same integer when the exact
    quotient is at least [1/(2 * 86400000)] away from a half-integer that it
    is not equal to. That holds whenever the difference is below about
    142,000 years. *)

From S2P Require Import Prelude JsString JsValue.

Local Open Scope Z_scope.

(** ** The form *)

Record travel_dates := TravelDates { startDate : Z; endDate : Z }.

Record TravelFormSchema := TravelForm {
  destination : jsstr;
  travelDates : travel_dates;
  numberOfPeople : Z;
  travelCompanions : jsstr;
  travelType : jsstr;
  keyInterests : list jsstr;
  budget : jsstr
}.

(** The record [generateFullTravelPlan] assembles and persists (lines
    157-170). The field names of the source are prefixed with [plan_]. *)
Record travel_plan := TravelPlan {
  plan_uuid : jsstr;
  plan_destination : jsstr;
  plan_travelDates : travel_dates;
  plan_budget : jsstr;
  plan_travelType : jsstr;
  plan_keyInterests : list jsstr;
  plan_numberOfPeople : Z;
  plan_travelCompanions : jsstr;
  plan_itinerary : jsval;
  plan_eateries : jsval;
  plan_faqs : jsval;
  plan_popularDestinations : jsval
}.

#[export] Instance travel_dates_eq_dec : EqDecision travel_dates.
Proof. solve_decision. Defined.
#[export] Instance travel_plan_eq_dec : EqDecision travel_plan.
Proof. solve_decision. Defined.

(** ** [getNumberOfDays] *)

Definition oneDayInMilliseconds : Z := 24 * 60 * 60 * 1000.

(** [Math.round(x / y)] for integers [x] and [y > 0]: the integer closest
    to [x / y], the larger one on a tie. *)
Definition math_round_div (x y : Z) : Z := (2 * x + y) / (2 * y).

Definition getNumberOfDays (startDate endDate : Z) : Z :=
  let differenceInTime := endDate - startDate in
  math_round_div differenceInTime oneDayInMilliseconds.

(** ** The request *)

Definition prompts_url : jsstr := js "https://api.hyperleap.ai/prompts".

(** The [replacements] object of lines 58-69 (88-100, 118-129). *)
Definition replacements (input : TravelFormSchema) : jsval :=
  JObj [(js "dest", JStr (destination input));
        (js "days", JNum (Num (getNumberOfDays (startDate (travelDates input))
                                              (endDate (travelDates input))) 0));
        (js "people", JNum (Num (numberOfPeople input) 0));
        (js "companion", JStr (travelCompanions input));
        (js "type", JStr (travelType input));
        (js "interests", JStr (join (js ", ") (keyInterests input)));
        (js "budget", JStr (budget input))].

(** [const data = { replacements, promptid }] *)
Definition request_data (input : TravelFormSchema) (promptid : jsstr) : jsval :=
  JObj [(js "replacements", replacements input); (js "promptid", JStr promptid)].

(** [const headers = {...}] (lines 73-76): the key is
    [process.env.HYPERLEAP_API_KEY], a string or [undefined] when the
    variable is not set (the [!] of line 75 checks nothing at run time). *)
Definition request_headers (api_key : jsval) : jsval :=
  JObj [(js "Content-Type", JStr (js "application/json")); (js "x-hl-api-key", api_key)].

(** A form used by the examples: two people to Jaipur from 2024-01-01 to
    2024-01-05. *)
Definition sample_form : TravelFormSchema :=
  {| destination := js "Jaipur";
     travelDates := TravelDates 1704067200000 1704412800000;
     numberOfPeople := 2;
     travelCompanions := js "Couple";
     travelType := js "Leisure";
     keyInterests := [js "Food"; js "History"];
     budget := js "Moderate" |}.

(** ** Lemmas on the rounding *)

Lemma half_day : oneDayInMilliseconds / 2 = 43200000.
Proof. reflexivity. Qed.

Lemma math_round_div_spec x y r :
  0 < y -> math_round_div x y = r <-> 2 * r * y - y <= 2 * x < 2 * r * y + y.
Proof.
  intros Hy. unfold math_round_div. split.
  - intros <-. pose proof (Z.div_mod (2 * x + y) (2 * y) ltac:(lia)) as Hdm.
    pose proof (Z.mod_pos_bound (2 * x + y) (2 * y) ltac:(lia)) as Hm.
    set (q := (2 * x + y) / (2 * y)) in *. set (m := (2 * x + y) mod (2 * y)) in *.
    replace (2 * q * y) with (2 * y * q) by ring. lia.
  - intros H. symmetry. apply Z.div_unique with (2 * x + y - 2 * y * r); lia.
Qed.

(** ** Theorems *)

(** C10: [getNumberOfDays] is [Math.round] of the difference in days: the
    result [n] is the integer with [n - 1/2 <= (end - start) / 86400000 < n + 1/2]. *)
Theorem getNumberOfDays_bounds (s e : Z) :
  let n := getNumberOfDays s e in
  2 * n * oneDayInMilliseconds - oneDayInMilliseconds <= 2 * (e - s)
  < 2 * n * oneDayInMilliseconds + oneDayInMilliseconds.
Proof. apply math_round_div_spec; [reflexivity|done]. Qed.

(** C11: a range of [d] whole days, shifted by less than half a day (a
    daylight-saving change, a time of day), counts [d] days. *)
Theorem getNumberOfDays_whole_days (s d off : Z) :
  - (oneDayInMilliseconds / 2) <= off < oneDayInMilliseconds / 2 ->
  getNumberOfDays s (s + d * oneDayInMilliseconds + off) = d.
Proof.
  intros Hoff. apply math_round_div_spec; [reflexivity|].
  rewrite half_day in Hoff. unfold oneDayInMilliseconds. lia.
Qed.

(** Witness of C11: from 2024-01-01 to 2024-01-05, and across the one-hour
    shift of a daylight-saving change. *)
Lemma getNumberOfDays_whole_days_witness :
  getNumberOfDays 1704067200000 1704412800000 = 4 /\
  getNumberOfDays 1711152000000 (1711152000000 + 4 * oneDayInMilliseconds - 3600000) = 4.
Proof.
  split.
  - exact (getNumberOfDays_whole_days 1704067200000 4 0 ltac:(rewrite half_day; lia)).
  - apply getNumberOfDays_whole_days. rewrite half_day. lia.
Defined.
