(* ===== verification/Attempt.v ===== *)
(** * One attempt of [fetchData]: from the HTTP answer to a result

    Lines 28-39 of [tripPlan.ts], the body of the [try] block after
    [axios.post] returned: extract [res.data?.choices[0]?.message?.content],
    strip a code fence when the content starts with a backtick, run
    [JSON.parse] and accept only a non-null object. [process_response] is
    the whole block as a function of the response object [res]; an
    [Abrupt] result is the error the [catch] of line 40 receives. The
    last theorems take the content to be the JSON text of a value
    ([JsonText]) and show when the attempt returns exactly that value. *)

From S2P Require Import Prelude JsString JsValue Json JsonText NumberText Fenced.

Local Open Scope Z_scope.

(** ** The attempt *)

(** [res.data?.choices[0]?.message?.content] (line 28): [?.] stops the whole
    chain at a nullish base, [choices[0]] has no [?.] and throws on a
    nullish [choices]. *)
Definition extract_content (res : jsval) : jsresult jsval :=
  let* data := member res (js "data") in
  if nullish data then Normal JUndef else
  let* c0 := member (get_prop data (js "choices")) (js "0") in
  Normal (opt_member (opt_member c0 (js "message")) (js "content")).

(** [response.substring(7, response.length - 3).replace(...)] on a string
    (lines 30-32). *)
Definition fence_strip (s : jsstr) : jsstr :=
  sanitize (substring s 7 (Z.of_nat (length s) - 3)).

(** [let subs = response; if (response[0]=='`') subs = ...] (lines 29-32).
    Only a string has a [substring] method: on an array or object whose
    first element or property equals the backtick, the call throws. *)
Definition subs_of (response : jsval) : jsresult jsval :=
  let* first := member response (js "0") in
  let* is_fence := loose_eq_backtick first in
  if is_fence then
    match response with
    | JStr s => Normal (JStr (fence_strip s))
    | _ => Abrupt (type_error (ENotFunction (js "substring")))
    end
  else Normal response.

Definition not_object_error : jserror :=
  new_Error [MLit (js "Response is not a valid JSON object")].

(** Lines 35-39: return a non-null object, throw on anything else. *)
Definition accept_object (result : jsval) : jsresult jsval :=
  if is_nonnull_object result then Normal result else Abrupt not_object_error.

(** Lines 28-39: the outcome of one attempt once the post succeeded.
    [JSON.parse] converts its argument with [ToString] first. *)
Definition process_response (res : jsval) : jsresult jsval :=
  let* response := extract_content res in
  let* subs := subs_of response in
  let* text := to_string subs in
  let* result := JSON_parse text in
  accept_object result.

(** The response object of the prompt API when it answers as documented:
    [{ data: { choices: [ { message: { content } } ] } }]. *)
Definition envelope (content : jsval) : jsval :=
  JObj [(js "data", JObj [(js "choices",
          JArr [JObj [(js "message", JObj [(js "content", content)])]])])].


(** ** Lemmas on the steps of an attempt *)

Lemma extract_envelope (c : jsval) : extract_content (envelope c) = Normal c.
Proof. reflexivity. Qed.

Lemma subs_of_plain (s : jsstr) : head s <> Some 96 -> subs_of (JStr s) = Normal (JStr s).
Proof.
  intros Hs. destruct s as [|c s]; [reflexivity|].
  unfold subs_of, member, loose_eq_backtick, backtick. simpl.
  rewrite bool_decide_false; [done|]. intros [=->]. by apply Hs.
Qed.

Lemma subs_of_fence (s : jsstr) :
  head s = Some 96 -> subs_of (JStr s) = Normal (JStr (fence_strip s)).
Proof.
  intros Hs. destruct s as [|c s]; [done|]. simpl in Hs. simplify_eq.
  unfold subs_of, member, loose_eq_backtick, backtick. simpl.
  reflexivity.
Qed.

(** The content [undefined] or [null] has no [[0]]. *)
Lemma subs_of_nullish (v : jsval) :
  nullish v = true -> subs_of v = Abrupt (type_error (EReadProp (js "0"))).
Proof. unfold subs_of, member. by intros ->. Qed.

Lemma escape_safe s : forallb safe_unit s = true -> escape s = s /\ Forall (fun c => keep_char c = true) s.
Proof.
  induction s as [|c s IH]; simpl; [done|]. rewrite andb_true_iff. intros [Hc Hs].
  destruct (IH Hs) as [-> Hk]. unfold safe_unit in Hc. rewrite !andb_true_iff, negb_true_iff in Hc.
  destruct Hc as [[Hkc H32] H34]. apply Z.leb_le in H32. unfold escape_unit.
  rewrite H34. destruct (Z.eqb_spec c 92) as [->|]; [done|]. destruct (Z.ltb_spec c 32); [lia|].
  split; [done|by constructor].
Qed.

Lemma join_kept sep parts :
  Forall (fun c => keep_char c = true) sep ->
  Forall (fun p => Forall (fun c => keep_char c = true) p) parts ->
  Forall (fun c => keep_char c = true) (join sep parts).
Proof.
  intros Hs. induction 1 as [|p ps Hp Hps IH]; [constructor|].
  destruct ps; simpl; [done|]. rewrite !Forall_app. auto.
Qed.

Lemma N_to_js_kept n : Forall (fun c => keep_char c = true) (N_to_js n).
Proof.
  eapply Forall_impl; [apply N_to_js_digits|]. intros c Hc.
  unfold is_digit in Hc. unfold keep_char, is_word_char. rewrite Hc. by rewrite !orb_true_r.
Qed.

(** The JSON text of a fence-safe value is made of code units the
    sanitizer keeps. *)
Lemma fence_safe_kept v : fence_safe v = true -> Forall (fun c => keep_char c = true) (json_text v).
Proof.
  induction v as [| |[]|[m e]|s|xs IH|ps IH] using jsval_ind'; simpl; intros Hv; try done;
    try (repeat constructor; fail).
  - rewrite andb_true_iff, !Z.leb_le in Hv. unfold num_text, Z_to_js. simpl.
    rewrite !(proj2 (Z.ltb_ge _ 0)) by lia. rewrite Forall_app. split; [apply N_to_js_kept|constructor; [reflexivity|apply N_to_js_kept]].
  - unfold quote. destruct (escape_safe s Hv) as [-> Hk]. rewrite !Forall_app. split_and!; by repeat constructor.
  - constructor; [reflexivity|]. rewrite Forall_app. split; [|by repeat constructor].
    apply join_kept; [by repeat constructor|]. apply Forall_map.
    apply (forallb_Forall fence_safe (fun x => Forall (fun c => keep_char c = true) (json_text x))); [done|].
    eapply Forall_impl; [exact IH|]. auto.
  - constructor; [reflexivity|]. rewrite Forall_app. split; [|by repeat constructor].
    apply join_kept; [by repeat constructor|]. apply Forall_map.
    apply (forallb_Forall (fun kv => forallb safe_unit kv.1 && fence_safe kv.2) (fun kv => Forall (fun c => keep_char c = true) (quote kv.1 ++ [58] ++ json_text kv.2))); [done|].
    eapply Forall_impl; [exact IH|]. intros [k w] Hw Hb. simpl in *.
    apply andb_true_iff in Hb as [Hk Hw']. unfold quote. destruct (escape_safe k Hk) as [-> Hkk].
    constructor; [reflexivity|]. rewrite !Forall_app. split_and!; [done|by repeat constructor|constructor; [reflexivity|auto]].
Qed.

(** ** Theorems *)

(** C7: an answer in the documented envelope whose content is a string
    not starting with a backtick is parsed as it is: the attempt returns
    what [JSON.parse] returns when it is a non-null object, and fails with
    the parse error or with "Response is not a valid JSON object"
    otherwise. *)
Theorem attempt_plain_content (s : jsstr) :
  head s <> Some 96 ->
  process_response (envelope (JStr s)) = cbind (JSON_parse s) accept_object.
Proof.
  intros Hs. unfold process_response. rewrite extract_envelope. simpl.
  by rewrite subs_of_plain.
Qed.

(** C8: fenced content of at least ten code units loses exactly its first
    seven and last three code units, then every code unit the sanitizer
    does not keep, before [JSON.parse]. *)
Theorem attempt_fenced_content (pre body post : jsstr) :
  length pre = 7%nat -> head pre = Some 96 -> length post = 3%nat ->
  process_response (envelope (JStr (pre ++ body ++ post)))
  = cbind (JSON_parse (sanitize body)) accept_object.
Proof.
  intros Hpre Hhd Hpost. unfold process_response. rewrite extract_envelope. simpl.
  rewrite subs_of_fence.
  - simpl. unfold fence_strip. by rewrite substring_inner.
  - destruct pre; [done|]. exact Hhd.
Qed.

(** C9: an answer without content ([data] with no [choices], no first
    choice, no [message] or no [content]) fails the attempt with the
    [TypeError] of reading ['0'] of [undefined]. *)
Theorem attempt_missing_content (res : jsval) :
  member res (js "data") = Normal JNull \/
  member res (js "data") = Normal JUndef \/
  (exists v, extract_content res = Normal v /\ nullish v = true) \/
  (exists data, member res (js "data") = Normal data /\ nullish data = false /\
                nullish (get_prop data (js "choices")) = true) ->
  process_response res = Abrupt (type_error (EReadProp (js "0"))).
Proof.
  unfold process_response.
  intros [H|[H|[(v & H & Hv)|(data & H & Hd & Hc)]]].
  - unfold extract_content. by rewrite H.
  - unfold extract_content. by rewrite H.
  - rewrite H. simpl. by rewrite subs_of_nullish.
  - unfold extract_content. rewrite H. simpl. rewrite Hd. unfold member at 1. by rewrite Hc.
Qed.

(** Witness of C7: plain JSON content. *)
Lemma attempt_plain_content_witness :
  process_response (envelope (JStr (jsq "{'a':1}"))) = Normal (JObj [(js "a", JNum (Num 1 0))]).
Proof. rewrite attempt_plain_content by discriminate. reflexivity. Defined.

(** Witness of C8: the fenced example of the specification, a
    [```json] line, [{"a":1}] and a closing fence. *)
Lemma attempt_fenced_content_witness :
  process_response (envelope (JStr (js "```json" ++ (nl ++ jsq "{'a':1}" ++ nl) ++ js "```")))
  = Normal (JObj [(js "a", JNum (Num 1 0))]).
Proof. rewrite attempt_fenced_content by reflexivity. reflexivity. Defined.

(** Witness of C9: [data] without [choices]. *)
Lemma attempt_missing_content_witness :
  process_response (JObj [(js "data", JObj [])]) = Abrupt (type_error (EReadProp (js "0"))).
Proof.
  apply attempt_missing_content. right; right; right.
  exists (JObj []). split_and!; reflexivity.
Defined.

(** The sanitizer deletes the decimal point and the minus sign, so the
    fenced answer [{"price": 12.50, "delta": -3}] is read as
    [{price: 1250, delta: 3}]. *)
Theorem fenced_numbers_corrupted :
  process_response (envelope (JStr (js "```json" ++ nl
                      ++ jsq "{'price': 12.50, 'delta': -3}" ++ nl ++ js "```")))
  = Normal (JObj [(js "price", JNum (Num 1250 0)); (js "delta", JNum (Num 3 0))]).
Proof. vm_compute. reflexivity. Qed.

(** Content shorter than ten code units that starts with a backtick:
    [substring(7, length - 3)] swaps its clamped bounds, so ["`{}"] keeps
    all three code units, the sanitizer deletes the backtick, and the
    attempt returns the empty object. *)
Theorem fenced_short_content :
  process_response (envelope (JStr (js "`{}"))) = Normal (JObj []).
Proof. vm_compute. reflexivity. Qed.

(** A fence without a language tag ([```] and a line feed, four code
    units) loses the first three code units of the JSON text with it, and
    the attempt fails with a syntax error. *)
Theorem fence_without_tag_fails :
  process_response (envelope (JStr (js "```" ++ nl ++ jsq "{'a':1}" ++ nl ++ js "```")))
  = Abrupt (syntax_error EJsonSyntax).
Proof. vm_compute. reflexivity. Qed.

(** [typeof [] === "object"], so an answer whose content is a JSON
    array passes the check of line 35 and is returned as the result; an
    itinerary that is an array has no [days], and the record then stores
    [undefined] as its itinerary. *)
Theorem array_content_accepted :
  process_response (envelope (JStr (jsq "[{'day':1}]")))
  = Normal (JArr [JObj [(js "day", JNum (Num 1 0))]])
  /\ get_prop (JArr [JObj [(js "day", JNum (Num 1 0))]]) (js "days") = JUndef.
Proof. split; vm_compute; reflexivity. Qed.

(** ** Answers that are JSON texts *)

Lemma json_ws_kept w : json_ws w -> Forall (fun c => keep_char c = true) w.
Proof.
  intros H. eapply Forall_impl; [exact H|]. intros c Hc. unfold is_json_ws in Hc. unfold keep_char, is_js_space.
  rewrite !orb_true_iff, !Z.eqb_eq in Hc. destruct Hc as [[[->| ->]| ->]| ->]; reflexivity.
Qed.

Lemma json_text_not_fence w v r : json_ws w -> head (w ++ json_text v ++ r) <> Some 96.
Proof.
  destruct 1 as [|c w Hc _]; simpl.
  - destruct (json_text_head v) as (c & r' & -> & Hc). simpl. intros [=->]. unfold value_start in Hc. lia.
  - intros [=->]. done.
Qed.

(** C15: an answer whose content is the JSON text of a well-formed object
    or array, with whitespace around it, is returned by the attempt as
    that value: the plain path of lines 29-36 loses nothing. *)
Theorem attempt_json_answer w1 v w2 :
  json_ws w1 -> json_ws w2 -> json_wfb v = true -> is_nonnull_object v = true ->
  process_response (envelope (JStr (w1 ++ json_text v ++ w2))) = Normal v.
Proof.
  intros H1 H2 Hwf Hobj. unfold process_response. rewrite extract_envelope. simpl.
  rewrite subs_of_plain by (by apply json_text_not_fence).
  simpl. rewrite parse_json_text by done. simpl. unfold accept_object. by rewrite Hobj.
Qed.

(** C16: a fenced answer ([```json], whitespace, the JSON text, whitespace,
    [```]) is returned as its value when the sanitizer keeps every code
    unit of the text: when no number is negative or has a negative
    exponent and every string is made of printable code units of the
    regex's class other than the quote. *)
Theorem attempt_fenced_json pre w1 v w2 post :
  length pre = 7%nat -> head pre = Some 96 -> length post = 3%nat ->
  json_ws w1 -> json_ws w2 -> json_wfb v = true -> fence_safe v = true ->
  is_nonnull_object v = true ->
  process_response (envelope (JStr (pre ++ (w1 ++ json_text v ++ w2) ++ post))) = Normal v.
Proof.
  intros Hpre Hhd Hpost H1 H2 Hwf Hsafe Hobj. unfold process_response. rewrite extract_envelope. simpl.
  rewrite subs_of_fence by (destruct pre; [done|exact Hhd]). simpl.
  unfold fence_strip. rewrite substring_inner by done.
  rewrite sanitize_kept by (rewrite !Forall_app; split_and!; auto using json_ws_kept, fence_safe_kept).
  rewrite parse_json_text by done. simpl. unfold accept_object. by rewrite Hobj.
Qed.

(** An array content whose first element is the string ["`"] passes
    the fence test of line 30 ([response[0] == "`"]), and then
    [response.substring] is not a function: the attempt throws a
    [TypeError], whatever the other elements are. *)
Theorem attempt_array_backtick rest :
  process_response (envelope (JArr (JStr backtick :: rest)))
  = Abrupt (type_error (ENotFunction (js "substring"))).
Proof. reflexivity. Qed.

(** C22: an array content holding one string, the JSON text of a
    well-formed object or array, is not rejected as a non-string: its
    first element is not a backtick, [JSON.parse] converts the array with
    [ToString], which is that text, and the attempt returns the value. *)
Theorem attempt_array_of_json w1 v w2 :
  json_ws w1 -> json_ws w2 -> json_wfb v = true -> is_nonnull_object v = true ->
  process_response (envelope (JArr [JStr (w1 ++ json_text v ++ w2)])) = Normal v.
Proof.
  intros H1 H2 Hwf Hobj. unfold process_response. rewrite extract_envelope. simpl.
  unfold subs_of, member. simpl. unfold loose_eq_backtick. simpl.
  rewrite bool_decide_false by (intros E; apply (json_text_not_fence w1 v w2 H1); by rewrite E).
  simpl. rewrite parse_json_text by done. simpl. unfold accept_object. by rewrite Hobj.
Qed.

(** Witness of C15: the day plan of [JsonText], after a line feed. *)
Lemma attempt_json_answer_witness :
  process_response (envelope (JStr ([10] ++ json_text sample_json ++ []))) = Normal sample_json.
Proof. apply attempt_json_answer; [repeat constructor|constructor|reflexivity|reflexivity]. Defined.

(** Witness of C16: a fenced two-day itinerary. *)
Definition fenced_days : jsval :=
  JObj [(js "days", JArr [JObj [(js "day", JNum (Num 1 0)); (js "title", JStr (js "Amber Fort"))];
                          JObj [(js "day", JNum (Num 2 0)); (js "title", JStr (js "City Palace"))]])].

Lemma attempt_fenced_json_witness :
  process_response (envelope (JStr (js "```json" ++ (nl ++ json_text fenced_days ++ nl) ++ js "```")))
  = Normal fenced_days.
Proof.
  apply attempt_fenced_json; try reflexivity; repeat constructor.
Defined.

(** Witness of C22: the day plan of [JsonText] as the one element of an
    array content. *)
Lemma attempt_array_of_json_witness :
  process_response (envelope (JArr [JStr ([] ++ json_text sample_json ++ [])])) = Normal sample_json.
Proof. apply attempt_array_of_json; [constructor|constructor|reflexivity|reflexivity]. Defined.

(** ** What the fenced path can return *)

(** C13: whatever the model answers, an attempt on a content that starts
    with a backtick returns, when it returns, a non-null object whose
    numbers are all non-negative whole numbers (no sign, no fraction, no
    negative exponent survive the sanitizer of line 32) and whose strings
    and keys are made only of the code units the sanitizer keeps (no
    period, hyphen, apostrophe, slash or escape). A price of [12.50] can
    only come back as [1250], and a text like ["St. Mary's"] never comes
    back at all. *)
Theorem attempt_fenced_result_safe (s : jsstr) v :
  head s = Some 96 -> process_response (envelope (JStr s)) = Normal v ->
  fence_safe v = true /\ is_nonnull_object v = true.
Proof.
  intros Hhd. unfold process_response. rewrite extract_envelope. simpl.
  rewrite subs_of_fence by done. simpl.
  destruct (JSON_parse (fence_strip s)) as [v'|e] eqn:E; simpl; [|done].
  unfold accept_object. destruct (is_nonnull_object v') eqn:Ho; [intros [=<-]|done].
  split; [|done]. apply (JSON_parse_kept (fence_strip s)); [apply sanitize_only_kept|done].
Qed.

(** Witness of C13: the fenced two-day itinerary. *)
Lemma attempt_fenced_result_safe_witness :
  fence_safe fenced_days = true /\ is_nonnull_object fenced_days = true.
Proof.
  apply (attempt_fenced_result_safe (js "```json" ++ (nl ++ json_text fenced_days ++ nl) ++ js "```"));
    [reflexivity|vm_compute; reflexivity].
Defined.

(** C20: an attempt whose content is a number or a boolean, not a
    string, converts it with [ToString], parses it back as that number or
    boolean, and throws ["Response is not a valid JSON object"]: such an
    answer is never accepted, and never fails with a syntax error. *)
Theorem attempt_primitive_content v :
  (exists x, v = JNum x) \/ (exists b, v = JBool b) ->
  process_response (envelope v) = Abrupt not_object_error.
Proof.
  intros [(x & ->)|([] & ->)]; [|reflexivity..].
  unfold process_response. rewrite extract_envelope. simpl.
  destruct (JSON_parse_num_text x) as (y & -> & _). reflexivity.
Qed.

(** Witness of C20: the content [12.5] is rejected as not an object. *)
Lemma attempt_primitive_content_witness :
  ((exists x, JNum (Num 125 (-1)) = JNum x) \/ (exists b, JNum (Num 125 (-1)) = JBool b)) /\
  process_response (envelope (JNum (Num 125 (-1)))) = Abrupt not_object_error.
Proof.
  split; [left; eexists; reflexivity|].
  apply attempt_primitive_content. left. eexists. reflexivity.
Defined.
