(* ===== verification/Async.v ===== *)
(** * Async code as a free monad of awaited operations

    An [async] function of [tripPlan.ts] is modelled as a [prog]: a finite
    tree whose nodes are the effects the function performs, in program
    order, and whose leaves are its result ([Ret]) or the error it throws
    ([Throw]). The effects are
    - [Log]: [console.log] / [console.error] (synchronous);
    - [Uuid]: [uuidv4()] (synchronous, answered by the environment);
    - [Await]: [await] of a promise made by an external collaborator
      ([axios.post], [dbConnect], [getPopularDestinations],
      [ItineraryModel.create]); the continuation receives the settled
      result, a value or the rejection error, so [try]/[catch] is a
      continuation that inspects it;
    - [All]: [await Promise.all([...])] over child programs.

    [pbind] composes programs: [await f()] inside another [async]
    function, and [try]/[catch]. [pstep] is one step of a program without
    [All] under an environment that may answer anything; [prun] is its
    reflexive-transitive closure with the trace of events; [finishes n Q p]
    says that every run of [p] ends within [n] events in a result that
    satisfies [Q] (an inductive "all runs reach" predicate);
    [ret_after P p] says that [p] returns only right after an awaited
    operation settled, with a result related to the answer by [P]. The
    interleaving semantics of [All] is in [Concurrency]. *)

From S2P Require Import Prelude JsString JsValue Payload.

(** ** Programs *)

Inductive level := LogInfo | LogError.

(** An argument of [console.log]: a string, a message made of literal text
    and engine text, or an error object. *)
Inductive log_arg :=
| LStr (s : jsstr)
| LMsg (m : list msg_part)
| LErr (e : jserror).

(** The external operations the code awaits. *)
Inductive op :=
| OpPost (url : jsstr) (data headers : jsval) (** [axios.post(url, data, { headers })] *)
| OpConnect                                  (** [dbConnect()] *)
| OpPopular (dest : jsstr)                   (** [getPopularDestinations(dest)] *)
| OpCreate (doc : travel_plan).              (** [ItineraryModel.create(doc)] *)

#[export] Instance op_eq_dec : EqDecision op.
Proof. solve_decision. Defined.

#[warnings="-register-all"]
Inductive prog :=
| Ret (v : jsval)
| Throw (e : jserror)
| Log (lvl : level) (args : list log_arg) (k : prog)
| Uuid (k : jsstr -> prog)
| Await (o : op) (k : jsresult jsval -> prog)
| All (ps : list prog) (k : jsresult jsval -> prog).

(** The program that finishes with a completion. *)
Definition of_result (r : jsresult jsval) : prog :=
  match r with Normal v => Ret v | Abrupt e => Throw e end.

(** Run [p], then continue with its completion. *)
Fixpoint pbind (p : prog) (f : jsresult jsval -> prog) : prog :=
  match p with
  | Ret v => f (Normal v)
  | Throw e => f (Abrupt e)
  | Log l a k => Log l a (pbind k f)
  | Uuid k => Uuid (fun u => pbind (k u) f)
  | Await o k => Await o (fun r => pbind (k r) f)
  | All ps k => All ps (fun r => pbind (k r) f)
  end.

(** [const x = await p; k(x)]: a thrown error propagates. *)
Definition pthen (p : prog) (k : jsval -> prog) : prog :=
  pbind p (fun r => match r with Normal v => k v | Abrupt e => Throw e end).

(** [try { p } catch (e) { h(e) }] around code that ends with [return]. *)
Definition ptry (p : prog) (h : jserror -> prog) : prog :=
  pbind p (fun r => match r with Normal v => Ret v | Abrupt e => h e end).

(** ** Sequential runs *)

Inductive event :=
| EvLog (lvl : level) (args : list log_arg)
| EvUuid (u : jsstr)
| EvCall (o : op) (r : jsresult jsval).

(** One step of a program; the environment picks the answer. *)
Inductive pstep : prog -> event -> prog -> Prop :=
| pstep_log l a k : pstep (Log l a k) (EvLog l a) k
| pstep_uuid k u : pstep (Uuid k) (EvUuid u) (k u)
| pstep_await o k r : pstep (Await o k) (EvCall o r) (k r).

Inductive prun : prog -> list event -> prog -> Prop :=
| prun_refl p : prun p [] p
| prun_step p ev p' tr q : pstep p ev p' -> prun p' tr q -> prun p (ev :: tr) q.

(** Every run of [p] ends, after at most [n] events, in a completion that
    satisfies [Q]. *)
Inductive finishes (Q : jsresult jsval -> Prop) : nat -> prog -> Prop :=
| fin_ret n v : Q (Normal v) -> finishes Q n (Ret v)
| fin_throw n e : Q (Abrupt e) -> finishes Q n (Throw e)
| fin_log n l a k : finishes Q n k -> finishes Q (S n) (Log l a k)
| fin_uuid n k : (forall u, finishes Q n (k u)) -> finishes Q (S n) (Uuid k)
| fin_await n o k : (forall r, finishes Q n (k r)) -> finishes Q (S n) (Await o k).

#[export] Hint Constructors pstep prun finishes : tp.

(** The answers the environment gave to the posts of a trace. *)
Fixpoint post_answers (tr : list event) : list (jsresult jsval) :=
  match tr with
  | [] => []
  | EvCall (OpPost _ _ _) r :: tr' => r :: post_answers tr'
  | _ :: tr' => post_answers tr'
  end.

(** The operations a trace calls. *)
Fixpoint calls (tr : list event) : list op :=
  match tr with
  | [] => []
  | EvCall o _ :: tr' => o :: calls tr'
  | _ :: tr' => calls tr'
  end.

(** ** Lemmas *)

Lemma prun_trans p tr1 q tr2 s : prun p tr1 q -> prun q tr2 s -> prun p (tr1 ++ tr2) s.
Proof. induction 1; simpl; eauto with tp. Qed.

Lemma prun_final_inv r tr q : prun (of_result r) tr q -> tr = [] /\ q = of_result r.
Proof. destruct r; intros H; inversion H as [|? ? ? ? ? Hs]; subst; try inversion Hs; auto. Qed.

Lemma prun_log_inv l a k tr q :
  prun (Log l a k) tr q -> (tr = [] /\ q = Log l a k) \/
  exists tr', tr = EvLog l a :: tr' /\ prun k tr' q.
Proof. intros H. inversion H as [|? ? ? ? ? Hs]; subst; [by left|]. inversion Hs; subst; eauto. Qed.

Lemma prun_await_inv o k tr q :
  prun (Await o k) tr q -> (tr = [] /\ q = Await o k) \/
  exists r tr', tr = EvCall o r :: tr' /\ prun (k r) tr' q.
Proof. intros H. inversion H as [|? ? ? ? ? Hs]; subst; [by left|]. inversion Hs; subst; eauto 6. Qed.

Lemma finishes_mono Q Q' n m p :
  finishes Q n p -> (n <= m)%nat -> (forall r, Q r -> Q' r) -> finishes Q' m p.
Proof.
  intros H. revert m. induction H; intros m Hm HQ; try destruct m as [|m]; try lia;
    econstructor; eauto with lia.
Qed.

(** A run of a program that finishes ends in a completion that satisfies
    [Q], unless it stops early. *)
Lemma finishes_prun Q n p tr q :
  finishes Q n p -> prun p tr q ->
  (length tr <= n)%nat /\ (forall r, q = of_result r -> Q r).
Proof.
  intros Hf. revert tr q. induction Hf; intros tr q Hr.
  - apply (prun_final_inv (Normal v)) in Hr as [-> ->]. split; [simpl; lia|].
    intros [] [=]; subst; done.
  - apply (prun_final_inv (Abrupt e)) in Hr as [-> ->]. split; [simpl; lia|].
    intros [] [=]; subst; done.
  - apply prun_log_inv in Hr as [[-> ->]|(tr' & -> & Hr)].
    + split; [simpl; lia|]. by intros [].
    + apply IHHf in Hr as [??]. split; [simpl; lia|done].
  - inversion Hr as [|? ? ? ? ? Hs Hr']; subst; [split; [simpl; lia|by intros []]|].
    inversion Hs; subst. apply H0 in Hr' as [??]. split; [simpl; lia|done].
  - apply prun_await_inv in Hr as [[-> ->]|(r & tr' & -> & Hr)].
    + split; [simpl; lia|]. by intros [].
    + apply H0 in Hr as [??]. split; [simpl; lia|done].
Qed.

(** ** Programs that only call some operations *)

(** [only_ops P p]: [p] has no [Uuid] and no [All], and every operation it
    awaits satisfies [P]. *)
Inductive only_ops (P : op -> Prop) : prog -> Prop :=
| oo_ret v : only_ops P (Ret v)
| oo_throw e : only_ops P (Throw e)
| oo_log l a k : only_ops P k -> only_ops P (Log l a k)
| oo_await o k : P o -> (forall r, only_ops P (k r)) -> only_ops P (Await o k).

#[export] Hint Constructors only_ops : tp.

Lemma only_ops_pstep P p ev p' : only_ops P p -> pstep p ev p' -> only_ops P p'.
Proof. intros Hp Hs. destruct Hs; inversion Hp; auto. Qed.

Lemma only_ops_prun P p tr q :
  only_ops P p -> prun p tr q -> Forall P (calls tr) /\ only_ops P q.
Proof.
  intros Hp Hr. revert Hp. induction Hr as [|p ev p' tr q Hs Hr IH]; intros Hp; [done|].
  destruct (IH (only_ops_pstep _ _ _ _ Hp Hs)) as [Hc Hq]. split; [|done].
  destruct Hs; simpl; [done|inversion Hp|]. inversion Hp; subst. by constructor.
Qed.

Lemma only_ops_mono (P P' : op -> Prop) p : only_ops P p -> (forall o, P o -> P' o) -> only_ops P' p.
Proof. induction 1; constructor; auto. Qed.

(** [prog_ops P p]: every operation [p] awaits, also inside its
    [Promise.all] children and after its [uuidv4()] calls, satisfies [P]. *)
#[warnings="-register-all"]
Inductive prog_ops (P : op -> Prop) : prog -> Prop :=
| po_ret v : prog_ops P (Ret v)
| po_throw e : prog_ops P (Throw e)
| po_log l a k : prog_ops P k -> prog_ops P (Log l a k)
| po_uuid k : (forall u, prog_ops P (k u)) -> prog_ops P (Uuid k)
| po_await o k : P o -> (forall r, prog_ops P (k r)) -> prog_ops P (Await o k)
| po_all ps k : Forall (prog_ops P) ps -> (forall r, prog_ops P (k r)) -> prog_ops P (All ps k).

#[export] Hint Constructors prog_ops : tp.

Lemma only_ops_prog_ops (P P' : op -> Prop) p :
  only_ops P p -> (forall o, P o -> P' o) -> prog_ops P' p.
Proof. induction 1; constructor; auto. Qed.

Lemma calls_app tr1 tr2 : calls (tr1 ++ tr2) = calls tr1 ++ calls tr2.
Proof. induction tr1 as [|[] tr1 IH]; simpl; by rewrite ?IH. Qed.

#[export] Hint Rewrite calls_app : tp_simpl.

(** [finishes] is kept along a step, with one event less. *)
Lemma finishes_pstep Q n p ev p' :
  finishes Q (S n) p -> pstep p ev p' -> finishes Q n p'.
Proof. intros Hf Hs. destruct Hs; inversion Hf; subst; auto. Qed.

Lemma finishes_pstep_ex Q n p ev p' :
  finishes Q n p -> pstep p ev p' -> exists m, finishes Q m p'.
Proof. intros Hf Hs. destruct n as [|n]; [destruct Hs; inversion Hf|]. eauto using finishes_pstep. Qed.

(** ** Where a program's result comes from *)

(** [ret_after P p]: [p] has no [Uuid] and no [All], does not return at
    once, and returns only right after an awaited operation [o] settled
    with [r], with a value [v] such that [P o r v]. *)
Inductive ret_after (P : op -> jsresult jsval -> jsval -> Prop) : prog -> Prop :=
| ra_throw e : ret_after P (Throw e)
| ra_log l a k : ret_after P k -> ret_after P (Log l a k)
| ra_await o k :
    (forall r v, k r = Ret v -> P o r v) ->
    (forall r, (forall v, k r <> Ret v) -> ret_after P (k r)) ->
    ret_after P (Await o k).

Lemma ret_after_pstep P p e p' :
  ret_after P p -> pstep p e p' ->
  ret_after P p' \/ exists o r v, e = EvCall o r /\ p' = Ret v /\ P o r v.
Proof.
  intros Hp Hs. destruct Hs as [l a k|k u|o k r]; inversion Hp as [|? ? ? Hk|? ? Hret Hk]; subst;
    [by left|]. destruct (k r) as [v| | | | |] eqn:E;
    [right; exists o, r, v; eauto|..]; left; rewrite <- E; apply Hk; intros v; by rewrite E.
Qed.

Lemma ret_after_mono (P Q : op -> jsresult jsval -> jsval -> Prop) p :
  ret_after P p -> (forall o r v, P o r v -> Q o r v) -> ret_after Q p.
Proof. induction 1; intros HPQ; constructor; eauto. Qed.

(** ** Programs that throw only after a bad answer *)

(** [safe_unless G p]: every way [p] can throw passes through an answer
    [r] to an operation [o] with [G o r = false]; with good answers only,
    [p] returns. *)
Inductive safe_unless (G : op -> jsresult jsval -> bool) : prog -> Prop :=
| su_ret v : safe_unless G (Ret v)
| su_log l a k : safe_unless G k -> safe_unless G (Log l a k)
| su_await o k : (forall r, G o r = true -> safe_unless G (k r)) -> safe_unless G (Await o k).

Lemma safe_unless_pstep G p e p' :
  safe_unless G p -> pstep p e p' ->
  safe_unless G p' \/ exists o r, e = EvCall o r /\ G o r = false.
Proof.
  intros Hp Hs. destruct Hs as [l a k|k u|o k r]; inversion Hp as [|? ? ? Hk|? ? Hk]; subst;
    [by left|]. destruct (G o r) eqn:HG; [left; by apply Hk|right; eauto].
Qed.
