(* ===== verification/FetchData.v ===== *)
(** * [fetchData]: three sequential attempts

    [fetchData] (lines 17-51) as a [prog]: per attempt, [console.log] of
    the attempt number, [await axios.post(url, data, { headers })], then
    the processing of [Attempt.process_response]; on any error, a
    [console.error] and either the next attempt or, after the third,
    [throw new Error("Failed after 3 attempts: " + message)]. The [for]
    loop is [fetch_loop remaining attempt], with [remaining = 3 - attempt]
    iterations left: its condition [attempt < 3] is [remaining > 0], and
    leaving the loop reaches the [throw new Error("Unexpected error")] of
    line 50.

    The contract of the helper is [retry_outcome]: at most three answers of
    the network, the first one whose processing succeeds gives the result,
    and when all three fail the error wraps the last one.
    [fetchData_sound] and [fetchData_complete] show that the runs of
    [fetchData] realise exactly this contract; [fetchData_runs] adds the
    logs: a complete run is exactly [attempts_trace] of the answers, the
    ["Attempt i"] line before each post and the ["Attempt i failed: ..."]
    line after each failure. [fetchData_finishes] bounds every run to nine
    events. *)

From S2P Require Import Prelude JsString JsValue Json Attempt Async.

(** ** The helper *)

Definition attempt_log (attempt : nat) : list log_arg :=
  [LStr (js "Attempt " ++ Z_to_js (Z.of_nat attempt + 1) ++ js " " ++ repeat 10%Z 5)].

Definition attempt_failed_log (attempt : nat) (e : jserror) : list log_arg :=
  [LMsg (MLit (js "Attempt " ++ Z_to_js (Z.of_nat attempt + 1) ++ js " failed: ")
         :: err_message e)].

Definition failed_after_3 (e : jserror) : jserror :=
  new_Error (MLit (js "Failed after 3 attempts: ") :: err_message e).

Definition unexpected_error : jserror := new_Error [MLit (js "Unexpected error")].

(** The completion of the [try] block of an attempt, given how the post
    settled: its rejection, or the processing of its response. *)
Definition attempt_outcome (a : jsresult jsval) : jsresult jsval := cbind a process_response.

Fixpoint fetch_loop (remaining attempt : nat) (url : jsstr) (data headers : jsval) : prog :=
  match remaining with
  | O => Throw unexpected_error
  | S remaining' =>
      Log LogInfo (attempt_log attempt)
        (Await (OpPost url data headers) (fun a =>
           match attempt_outcome a with
           | Normal result => Ret result
           | Abrupt error =>
               Log LogError (attempt_failed_log attempt error)
                 (if Nat.eqb attempt 2 then Throw (failed_after_3 error)
                  else fetch_loop remaining' (S attempt) url data headers)
           end))
  end.

Definition fetchData (url : jsstr) (data headers : jsval) : prog :=
  fetch_loop 3 0 url data headers.

(** ** The contract *)

(** [retry_outcome n answers r]: with [n] attempts left, the network
    answering [answers] in order makes the helper complete with [r]. *)
Inductive retry_outcome : nat -> list (jsresult jsval) -> jsresult jsval -> Prop :=
| retry_success n a v :
    attempt_outcome a = Normal v -> retry_outcome (S n) [a] (Normal v)
| retry_last a e :
    attempt_outcome a = Abrupt e -> retry_outcome 1 [a] (Abrupt (failed_after_3 e))
| retry_again n a e rest r :
    attempt_outcome a = Abrupt e -> retry_outcome (S n) rest r ->
    retry_outcome (S (S n)) (a :: rest) r.

#[export] Hint Constructors retry_outcome : tp.

(** The trace of the attempts [att], [att + 1], ... when the network
    answers [ans]: each attempt logs ["Attempt i"] and posts; a failed one
    then logs ["Attempt i failed: ..."] and the next attempt follows, a
    successful one ends the trace. *)
Fixpoint attempts_trace (att : nat) (url : jsstr) (data headers : jsval)
    (ans : list (jsresult jsval)) : list event :=
  match ans with
  | [] => []
  | a :: rest =>
      EvLog LogInfo (attempt_log att) :: EvCall (OpPost url data headers) a ::
      match attempt_outcome a with
      | Normal _ => []
      | Abrupt e => EvLog LogError (attempt_failed_log att e) :: attempts_trace (S att) url data headers rest
      end
  end.

(** What every completion of the helper satisfies. *)
Definition fetch_result_ok (r : jsresult jsval) : Prop :=
  match r with
  | Normal v => is_nonnull_object v = true
  | Abrupt e => exists e', e = failed_after_3 e'
  end.

(** ** Lemmas *)

Lemma of_result_inj r r' : of_result r = of_result r' -> r = r'.
Proof. destruct r, r'; simpl; congruence. Qed.

Lemma accept_object_Normal v v' : accept_object v = Normal v' -> v' = v /\ is_nonnull_object v = true.
Proof. unfold accept_object. destruct (is_nonnull_object v); intros [=]; auto. Qed.

Lemma attempt_outcome_object a v : attempt_outcome a = Normal v -> is_nonnull_object v = true.
Proof.
  unfold attempt_outcome, process_response. intros H. bind_cases.
  by apply accept_object_Normal in H as [-> ?].
Qed.

Lemma retry_outcome_length n ans r : retry_outcome n ans r -> (1 <= length ans <= n)%nat.
Proof. induction 1; simpl; lia. Qed.

(** [prun_fetch] takes the steps of one attempt out of a run hypothesis. *)
Ltac prun_fetch H :=
  match type of H with
  | prun (Log _ _ _) _ (of_result ?r) =>
      apply prun_log_inv in H as [[_ ?Hq]|(?tr & -> & H)]; [destruct r; discriminate|]
  | prun (Await _ _) _ (of_result ?r) =>
      apply prun_await_inv in H as [[_ ?Hq]|(?a & ?tr & -> & H)]; [destruct r; discriminate|]
  end.

Lemma fetch_loop_sound rem att url data headers tr r :
  (att + rem = 3)%nat -> (0 < rem)%nat ->
  prun (fetch_loop rem att url data headers) tr (of_result r) ->
  retry_outcome rem (post_answers tr) r /\ Forall (eq (OpPost url data headers)) (calls tr).
Proof.
  revert att tr. induction rem as [|rem IH]; intros att tr Hsum Hpos Hrun; [lia|].
  simpl in Hrun. prun_fetch Hrun. prun_fetch Hrun.
  destruct (attempt_outcome a) as [v|e] eqn:Ha.
  - apply (prun_final_inv (Normal v)) in Hrun as [-> Hq]. apply of_result_inj in Hq as ->.
    simpl. eauto with tp.
  - prun_fetch Hrun. destruct (Nat.eqb att 2) eqn:E2.
    + apply Nat.eqb_eq in E2 as ->. assert (rem = 0%nat) as -> by lia.
      apply (prun_final_inv (Abrupt (failed_after_3 e))) in Hrun as [-> Hq].
      apply of_result_inj in Hq as ->. simpl. eauto with tp.
    + apply Nat.eqb_neq in E2. destruct rem as [|rem]; [lia|].
      apply IH in Hrun as [Hro Hc]; [|lia|lia]. simpl. eauto with tp.
Qed.

Lemma fetch_loop_trace rem att url data headers tr r :
  (att + rem = 3)%nat -> (0 < rem)%nat ->
  prun (fetch_loop rem att url data headers) tr (of_result r) ->
  tr = attempts_trace att url data headers (post_answers tr).
Proof.
  revert att tr. induction rem as [|rem IH]; intros att tr Hsum Hpos Hrun; [lia|].
  simpl in Hrun. prun_fetch Hrun. prun_fetch Hrun. simpl.
  destruct (attempt_outcome a) as [v|e] eqn:Ha.
  - by apply (prun_final_inv (Normal v)) in Hrun as [-> _].
  - prun_fetch Hrun. destruct (Nat.eqb att 2) eqn:E2.
    + by apply (prun_final_inv (Abrupt (failed_after_3 e))) in Hrun as [-> _].
    + apply Nat.eqb_neq in E2. destruct rem as [|rem]; [lia|].
      simpl. do 3 f_equal. apply IH; [lia|lia|exact Hrun].
Qed.

Lemma fetch_loop_run rem att url data headers ans r :
  (att + rem = 3)%nat -> retry_outcome rem ans r ->
  prun (fetch_loop rem att url data headers) (attempts_trace att url data headers ans) (of_result r).
Proof.
  intros Hsum H. revert att Hsum. induction H as [n a v Ha|a e Ha|n a e rest r Ha H IH];
    intros att Hsum; simpl; rewrite Ha;
    eapply prun_step; try constructor; eapply prun_step; try apply (pstep_await _ _ a); rewrite Ha.
  - constructor.
  - assert (att = 2%nat) as -> by lia. eapply prun_step; constructor.
  - eapply prun_step; [constructor|]. destruct (Nat.eqb_spec att 2); [lia|]. apply IH. lia.
Qed.

Lemma post_answers_attempts_trace rem att url data headers ans r :
  retry_outcome rem ans r -> post_answers (attempts_trace att url data headers ans) = ans.
Proof.
  intros H. revert att. induction H as [n a v Ha|a e Ha|n a e rest r Ha H IH]; intros att; simpl;
    rewrite Ha; simpl; [done|done|by rewrite IH].
Qed.

Lemma fetch_loop_complete rem att url data headers ans r :
  (att + rem = 3)%nat -> retry_outcome rem ans r ->
  exists tr, prun (fetch_loop rem att url data headers) tr (of_result r) /\ post_answers tr = ans.
Proof.
  intros Hsum H. exists (attempts_trace att url data headers ans).
  split; [by apply fetch_loop_run|by eapply post_answers_attempts_trace].
Qed.

Lemma fetch_loop_finishes rem att url data headers :
  (att + rem = 3)%nat -> (0 < rem)%nat ->
  finishes fetch_result_ok (3 * rem) (fetch_loop rem att url data headers).
Proof.
  revert att. induction rem as [|rem IH]; intros att Hsum Hpos; [lia|].
  replace (3 * S rem)%nat with (S (S (S (3 * rem)))) by lia.
  simpl. constructor. constructor. intros a.
  destruct (attempt_outcome a) as [v|e] eqn:Ha.
  - constructor. by apply attempt_outcome_object in Ha.
  - constructor. destruct (Nat.eqb_spec att 2) as [->|Hne].
    + constructor. simpl. eauto.
    + destruct rem as [|rem]; [lia|]. eapply finishes_mono; [apply (IH (S att))|..]; auto; lia.
Qed.

Lemma fetch_loop_only_ops rem att url data headers :
  only_ops (eq (OpPost url data headers)) (fetch_loop rem att url data headers).
Proof.
  revert att. induction rem as [|rem IH]; intros att; simpl; [constructor|].
  constructor. constructor; [done|]. intros a.
  destruct (attempt_outcome a); [constructor|]. constructor.
  destruct (Nat.eqb att 2); [constructor|apply IH].
Qed.

(** [fetch_loop] returns only right after a post whose answer the
    attempt accepts, with the value the attempt returns. *)
Lemma fetch_loop_ret_after rem att url data headers :
  ret_after (fun o r v => o = OpPost url data headers /\ attempt_outcome r = Normal v)
    (fetch_loop rem att url data headers).
Proof.
  revert att. induction rem as [|rem IH]; intros att; simpl; [constructor|].
  constructor. constructor.
  - intros r v. destruct (attempt_outcome r) eqn:E; [intros [=<-]; auto|discriminate].
  - intros r Hr. destruct (attempt_outcome r) as [v|e] eqn:E; [by destruct (Hr v)|].
    constructor. case_match; [constructor|apply IH].
Qed.

(** With answers the attempt accepts, [fetch_loop] cannot throw. *)
Lemma fetch_loop_safe G rem att url data headers :
  (forall r, G (OpPost url data headers) r = true -> exists v, attempt_outcome r = Normal v) ->
  (0 < rem)%nat -> safe_unless G (fetch_loop rem att url data headers).
Proof.
  intros HG Hrem. destruct rem as [|rem]; [lia|]. simpl.
  constructor. constructor. intros r Hr. destruct (HG r Hr) as [v ->]. constructor.
Qed.

Lemma fetchData_only_ops url data headers :
  only_ops (eq (OpPost url data headers)) (fetchData url data headers).
Proof. apply fetch_loop_only_ops. Qed.

(** ** Theorems *)

(** C1: every complete run of [fetchData] follows the retry contract: the
    answers the network gave to its posts, in order, make
    [retry_outcome 3] hold with the completion the run ends in, and every
    call it makes is the same post. *)
Theorem fetchData_sound url data headers tr r :
  prun (fetchData url data headers) tr (of_result r) ->
  retry_outcome 3 (post_answers tr) r /\ Forall (eq (OpPost url data headers)) (calls tr).
Proof. apply fetch_loop_sound; lia. Qed.

(** C2: conversely, every outcome the contract allows is a run of
    [fetchData]: for answers and a completion related by
    [retry_outcome 3], some run posts exactly those answers and ends with
    that completion. *)
Theorem fetchData_complete url data headers ans r :
  retry_outcome 3 ans r ->
  exists tr, prun (fetchData url data headers) tr (of_result r) /\ post_answers tr = ans.
Proof. apply fetch_loop_complete. lia. Qed.

(** C3: every run of [fetchData] ends within nine events (three attempts
    of a log, a post and an error log), and it ends by returning a non-null
    object or by throwing "Failed after 3 attempts: ..."; in particular the
    [throw new Error("Unexpected error")] after the loop is unreachable. *)
Theorem fetchData_finishes url data headers :
  finishes fetch_result_ok 9 (fetchData url data headers).
Proof. apply (fetch_loop_finishes 3 0); lia. Qed.

(** C21: the complete runs of [fetchData] are exactly the traces of the
    answer sequences the retry contract allows: before each post the
    helper logs ["Attempt i"], after each failed attempt it logs
    ["Attempt i failed: <message>"], nothing else is logged or called, and
    the run ends with the completion the contract gives. *)
Theorem fetchData_runs url data headers tr r :
  prun (fetchData url data headers) tr (of_result r) <->
  exists ans, retry_outcome 3 ans r /\ tr = attempts_trace 0 url data headers ans.
Proof.
  split.
  - intros H. exists (post_answers tr). split.
    + destruct (fetch_loop_sound 3 0 url data headers tr r) as [Hro _]; [lia|lia|done|exact Hro].
    + apply (fetch_loop_trace 3 0 url data headers tr r); [lia|lia|done].
  - intros (ans & Hr & ->). apply fetch_loop_run; [lia|done].
Qed.

(** ** Witnesses *)

Definition plain_answer : jsresult jsval := Normal (envelope (JStr (jsq "{'a':1}"))).

(** Witness of C1: valid JSON content without a fence is returned after
    one post and no error log. *)
Lemma fetchData_sound_witness :
  retry_outcome 3 [plain_answer] (Normal (JObj [(js "a", JNum (Num 1 0))])).
Proof.
  refine (proj1 (fetchData_sound (js "https://api.hyperleap.ai/prompts") JNull JNull
            [EvLog LogInfo (attempt_log 0);
             EvCall (OpPost (js "https://api.hyperleap.ai/prompts") JNull JNull) plain_answer]
            (Normal (JObj [(js "a", JNum (Num 1 0))])) _)).
  eapply prun_step; [constructor|]. eapply prun_step; [constructor|].
  vm_compute. constructor.
Defined.

Definition number_answer : jsresult jsval := Normal (envelope (JStr (js "5"))).

(** Witness of C2: content ["5"], a JSON number, on all three attempts
    makes the helper throw "Failed after 3 attempts: Response is not a
    valid JSON object". *)
Lemma fetchData_complete_witness :
  exists tr, prun (fetchData (js "https://api.hyperleap.ai/prompts") JNull JNull) tr
               (Throw (failed_after_3 not_object_error))
             /\ post_answers tr = [number_answer; number_answer; number_answer].
Proof.
  apply (fetchData_complete _ _ _ _ (Abrupt (failed_after_3 not_object_error))).
  apply retry_again with not_object_error; [reflexivity|].
  apply retry_again with not_object_error; [reflexivity|].
  apply retry_last. reflexivity.
Defined.

