(* ===== verification/Requests.v ===== *)
(** * The three prompt requests

    [generateItinerary], [getBestEateries] and [getFaqs] (lines 53-143):
    the same [data] and [headers] under three prompt ids, handed to
    [fetchData]. [return await fetchData(...)] adds no effect to the
    program of [fetchData], so each function is that program, preceded in
    [generateItinerary] by its [console.log("inside")].

    The API key [process.env.HYPERLEAP_API_KEY] is process-wide state read
    at each call; the section takes it as the parameter [api_key] (a
    string, or [undefined] when the variable is not set). *)

From S2P Require Import Prelude JsString JsValue Payload Attempt Async FetchData.

Definition itinerary_promptid : jsstr := js "19e373ea-0b75-47a2-9eae-6f36d2ffd7c8".
Definition eateries_promptid : jsstr := js "23b99371-a215-4ed5-95a7-898472b1c0ed".
Definition faqs_promptid : jsstr := js "70111cfb-c8f2-4adf-b487-fd410b805abc".

Section Requests.
Context (api_key : jsval).

(** The post every request of prompt [pid] makes. *)
Definition prompt_post (input : TravelFormSchema) (pid : jsstr) : op :=
  OpPost prompts_url (request_data input pid) (request_headers api_key).

Definition generateItinerary (input : TravelFormSchema) : prog :=
  Log LogInfo [LStr (js "inside")]
    (fetchData prompts_url (request_data input itinerary_promptid) (request_headers api_key)).

Definition getBestEateries (input : TravelFormSchema) : prog :=
  fetchData prompts_url (request_data input eateries_promptid) (request_headers api_key).

Definition getFaqs (input : TravelFormSchema) : prog :=
  fetchData prompts_url (request_data input faqs_promptid) (request_headers api_key).

(** The three requests with their prompt ids. *)
Definition prompt_requests (input : TravelFormSchema) : list (prog * jsstr) :=
  [(generateItinerary input, itinerary_promptid);
   (getBestEateries input, eateries_promptid);
   (getFaqs input, faqs_promptid)].

Lemma prompt_request_only_ops input p pid :
  (p, pid) ∈ prompt_requests input -> only_ops (eq (prompt_post input pid)) p.
Proof.
  unfold prompt_requests. rewrite !elem_of_cons, elem_of_nil.
  intros [[= -> ->]|[[= -> ->]|[[= -> ->]|[]]]];
    first [apply fetchData_only_ops|constructor; apply fetchData_only_ops].
Qed.

Lemma prompt_request_finishes input p pid :
  (p, pid) ∈ prompt_requests input -> finishes fetch_result_ok 10 p.
Proof.
  unfold prompt_requests. rewrite !elem_of_cons, elem_of_nil.
  intros [[= -> ->]|[[= -> ->]|[[= -> ->]|[]]]];
    first [(eapply finishes_mono; [apply (fetch_loop_finishes 3 0)|lia|done]); lia
          |constructor; (eapply finishes_mono; [apply (fetch_loop_finishes 3 0)|lia|done]); lia].
Qed.

(** C12: each of the three request functions posts, in every run, only
    to the prompt endpoint, with the replacements of its input and its
    own prompt id, and the API key header. *)
Theorem prompt_request_calls input p pid tr q :
  (p, pid) ∈ prompt_requests input -> prun p tr q ->
  Forall (eq (prompt_post input pid)) (calls tr).
Proof. intros Hin Hr. exact (proj1 (only_ops_prun _ _ _ _ (prompt_request_only_ops _ _ _ Hin) Hr)). Qed.
End Requests.

(** Witness of C12: the first attempt of [getFaqs]. *)
Lemma prompt_request_calls_witness :
  Forall (eq (prompt_post JUndef sample_form faqs_promptid))
    (calls [EvLog LogInfo (attempt_log 0);
            EvCall (prompt_post JUndef sample_form faqs_promptid) (Normal JNull)]).
Proof.
  eapply (prompt_request_calls JUndef sample_form (getFaqs JUndef sample_form) faqs_promptid);
    [set_solver|].
  eapply prun_step; [constructor|]. eapply prun_step; [constructor|]. constructor.
Defined.
