(* ===== verification/Concurrency.v ===== *)
(** * Interleavings: [Promise.all] and detached promises

    The runtime state of the program is a foreground thread, the
    [async] call the caller awaits, and background threads, promises
    that keep running after nobody awaits them. A thread is a running
    program ([TRun]) or a program suspended at [await Promise.all(...)]
    over running children ([TAll]).

    One step of the system steps one thread, foreground or background.
    Children of a [Promise.all] step in any order. When every child has
    returned, the [Promise.all] resolves with the array of their values.
    When one child has thrown, it rejects with that error, and the other
    children go on in the background (a promise cannot be cancelled).
    Allowing any interleaving and any rejecting child over-approximates
    the event loop of Node.js, so the safety theorems proved over these
    runs hold for every real schedule. *)

From S2P Require Import Prelude JsString JsValue Payload Async.

#[warnings="-register-all"]
Inductive thread :=
| TRun (p : prog)
| TAll (ts : list thread) (k : jsresult jsval -> prog).

(** One step of a thread: the event it emits, if any, and the threads it
    detaches. *)
Inductive tstep : thread -> option event -> thread -> list thread -> Prop :=
| ts_prog p ev p' : pstep p ev p' -> tstep (TRun p) (Some ev) (TRun p') []
| ts_all_start ps k : tstep (TRun (All ps k)) None (TAll (map TRun ps) k) []
| ts_all_child ts k i t ev t' d :
    ts !! i = Some t -> tstep t ev t' d -> tstep (TAll ts k) ev (TAll (<[i:=t']> ts) k) d
| ts_all_resolve ts k vs :
    Forall2 (fun t v => t = TRun (Ret v)) ts vs ->
    tstep (TAll ts k) None (TRun (k (Normal (JArr vs)))) []
| ts_all_reject ts k i e :
    ts !! i = Some (TRun (Throw e)) ->
    tstep (TAll ts k) None (TRun (k (Abrupt e))) (delete i ts).

Record sys := Sys { fg : thread; bg : list thread }.

Inductive sstep : sys -> option event -> sys -> Prop :=
| ss_fg t ev t' d b : tstep t ev t' d -> sstep (Sys t b) ev (Sys t' (b ++ d))
| ss_bg t b i u ev u' d :
    b !! i = Some u -> tstep u ev u' d -> sstep (Sys t b) ev (Sys t (<[i:=u']> b ++ d)).

Definition opt_event (ev : option event) : list event :=
  match ev with Some e => [e] | None => [] end.

(** The systems reachable from [s0], with the trace of events so far. *)
Inductive sreach (s0 : sys) : list event -> sys -> Prop :=
| sreach_init : sreach s0 [] s0
| sreach_step tr s ev s' : sreach s0 tr s -> sstep s ev s' -> sreach s0 (tr ++ opt_event ev) s'.

(** The call of a program [p] by an awaiting caller: [p] in the
    foreground, nothing in the background. *)
Definition start (p : prog) : sys := Sys (TRun p) [].

(** The documents a trace stores with [ItineraryModel.create]. *)
Fixpoint creates (tr : list event) : list travel_plan :=
  match tr with
  | [] => []
  | EvCall (OpCreate doc) _ :: tr' => doc :: creates tr'
  | _ :: tr' => creates tr'
  end.

(** ** Lemmas *)

Lemma creates_app tr1 tr2 : creates (tr1 ++ tr2) = creates tr1 ++ creates tr2.
Proof. induction tr1 as [|[] tr1 IH]; simpl; rewrite ?IH; try done. destruct o; simpl; by rewrite ?IH. Qed.

#[export] Hint Rewrite creates_app : tp_simpl.

(** A thread that runs a program with [only_ops P] steps to another one,
    emitting a call that satisfies [P] and detaching nothing. *)
Lemma tstep_only_ops P p ev t' d :
  only_ops P p -> tstep (TRun p) ev t' d ->
  exists e p', ev = Some e /\ t' = TRun p' /\ d = [] /\ pstep p e p' /\ only_ops P p' /\
    Forall P (calls [e]).
Proof.
  intros Hp Hs. inversion Hs as [p0 e p' Hps| ps k| | |]; subst; [|inversion Hp].
  exists e, p'. split_and!; try done; [by eapply only_ops_pstep|].
  destruct Hps; simpl; [done|inversion Hp|]. inversion Hp; subst. by constructor.
Qed.

(** [thread_ops P t]: every operation the thread [t] may still await,
    in its [Promise.all] children and its continuation, satisfies [P]. *)
#[warnings="-register-all"]
Inductive thread_ops (P : op -> Prop) : thread -> Prop :=
| to_run p : prog_ops P p -> thread_ops P (TRun p)
| to_all ts k : Forall (thread_ops P) ts -> (forall r, prog_ops P (k r)) -> thread_ops P (TAll ts k).

(** A step keeps [thread_ops P] on the thread and on what it detaches,
    and the operation it calls satisfies [P]. *)
Lemma tstep_thread_ops P t ev t' d :
  thread_ops P t -> tstep t ev t' d ->
  thread_ops P t' /\ Forall (thread_ops P) d /\ Forall P (calls (opt_event ev)).
Proof.
  intros Ht Hs. revert Ht. induction Hs as [p ev p' Hps|ps k|ts k i t ev t' d Hi _ IH|ts k vs _|ts k i e Hi];
    intros Ht; inversion Ht as [p0 Hp|ts0 k0 Hts Hk]; subst.
  - destruct Hps; inversion Hp; subst; simpl; split_and!; eauto using to_run.
  - inversion Hp; subst. split_and!; [|done|done]. constructor; [|done].
    apply Forall_fmap. eapply Forall_impl; [done|]. intros; by constructor.
  - destruct (IH (Forall_lookup_1 _ _ _ _ Hts Hi)) as (Ht' & Hd & Hc).
    split_and!; [|done|done]. constructor; [by apply Forall_insert|done].
  - split_and!; [constructor; apply Hk|done|done].
  - split_and!; [constructor; apply Hk|by apply Forall_delete|done].
Qed.

(** [thread_ops P] on every thread of a system. *)
Definition sys_ops (P : op -> Prop) (s : sys) : Prop :=
  thread_ops P (fg s) /\ Forall (thread_ops P) (bg s).

Lemma sstep_sys_ops P s ev s' :
  sys_ops P s -> sstep s ev s' -> sys_ops P s' /\ Forall P (calls (opt_event ev)).
Proof.
  unfold sys_ops. intros [Hf Hb] Hs. destruct Hs as [t ev t' d b Ht|t b i u ev u' d Hi Hu]; simpl in *.
  - destruct (tstep_thread_ops _ _ _ _ _ Hf Ht) as (? & ? & ?).
    split_and!; [done|by apply Forall_app_2|done].
  - destruct (tstep_thread_ops _ _ _ _ _ (Forall_lookup_1 _ _ _ _ Hb Hi) Hu) as (? & ? & ?).
    split_and!; [done|apply Forall_app_2; [by apply Forall_insert|done]|done].
Qed.

(** Every operation called along a run of a program that only calls
    operations satisfying [P] satisfies [P], whatever the interleaving and
    whatever the answers. *)
Lemma sreach_calls P p tr s :
  prog_ops P p -> sreach (start p) tr s -> sys_ops P s /\ Forall P (calls tr).
Proof.
  intros Hp Hr. induction Hr as [|tr s ev s' _ IH Hs].
  - split; [split; [by constructor|constructor]|constructor].
  - destruct IH as [Hsys Hc]. destruct (sstep_sys_ops _ _ _ _ Hsys Hs) as [? ?].
    rewrite calls_app. split; [done|by apply Forall_app_2].
Qed.

Lemma tstep_run_inv p ev t' d :
  tstep (TRun p) ev t' d ->
  (exists e p', ev = Some e /\ t' = TRun p' /\ d = [] /\ pstep p e p') \/
  (exists ps k, p = All ps k /\ ev = None /\ t' = TAll (map TRun ps) k /\ d = []).
Proof. intros H; inversion H; subst; eauto 10. Qed.

(** Runs described from their first step, to build concrete runs. *)
Inductive srun : sys -> list event -> sys -> Prop :=
| srun_refl s : srun s [] s
| srun_step s ev s' tr s'' : sstep s ev s' -> srun s' tr s'' -> srun s (opt_event ev ++ tr) s''.

Lemma sreach_srun_app s0 tr1 s tr2 s' :
  sreach s0 tr1 s -> srun s tr2 s' -> sreach s0 (tr1 ++ tr2) s'.
Proof.
  intros H1 H2. revert tr1 H1. induction H2 as [|s ev s' tr s'' Hs _ IH]; intros tr1 H1.
  - by rewrite app_nil_r.
  - rewrite app_assoc. apply IH. by econstructor.
Qed.

Lemma sreach_srun s0 tr s : srun s0 tr s -> sreach s0 tr s.
Proof. intros H. apply (sreach_srun_app s0 [] s0 tr s); [constructor|done]. Qed.

(** Steps of concrete runs: the foreground program, or child [i] of the
    foreground [Promise.all], takes its next step, awaits answered by [ans]. *)
Ltac fg_step_with ans :=
  eapply srun_step;
  [apply ss_fg, ts_prog; first [apply pstep_log | apply (pstep_await _ _ ans) | apply pstep_uuid]|].
Ltac child_logs i :=
  repeat (eapply srun_step; [eapply ss_fg, (ts_all_child _ _ i); [reflexivity|]; apply ts_prog, pstep_log|]).
Ltac child_step_with i ans :=
  eapply srun_step;
  [eapply ss_fg, (ts_all_child _ _ i); [reflexivity|];
   apply ts_prog; first [apply pstep_log | apply (pstep_await _ _ ans)]|].
