(* ===== verification/Orchestrator.v ===== *)
(** * [generateFullTravelPlan]

    Lines 145-181: connect to the database, run the three prompt requests
    and [getPopularDestinations] under one [Promise.all], take a fresh
    uuid, assemble the record, store it with [ItineraryModel.create] and
    return the uuid; every error is logged and replaced by
    ["Failed to generate full travel plan"]. The program is written as
    its continuations, one per [await] ([after_connect], [after_all],
    [after_uuid], [after_create]), and the [catch] block ([plan_catch]).

    The run of a call is a run of the system [start (generateFullTravelPlan
    input)] of [Concurrency]. [orch_inv] is the invariant of every
    reachable system: the foreground is at one of the program points of the
    function ([fg_inv], a state machine), the background only runs what is
    left of rejected branches, which never store anything, and the trace
    stores at most one record, assembled from the results of the four
    branches. [child_prov] and [from_answers] record where those results
    come from: the answers, in the trace, to each branch's own operation,
    which [Promise.all] keeps in the order of its array. The program
    points where the call has ended also record the log line that came
    before ([saved_log], [catch_log]). *)

From S2P Require Import Prelude JsString JsValue Payload Attempt Async FetchData Requests Concurrency.

(** ** The function *)

Definition generic_error : jserror :=
  new_Error [MLit (js "Failed to generate full travel plan")].

(** [catch (error) { console.error(...); throw new Error(...) }] *)
Definition catch_log (e : jserror) : list log_arg :=
  [LStr (js "Error generating full travel plan:"); LErr e].

Definition plan_catch (e : jserror) : prog :=
  Log LogError (catch_log e) (Throw generic_error).

(** The object literal of lines 157-170. *)
Definition plan_record (input : TravelFormSchema) (uuid : jsstr)
  (days eateries faqs popular : jsval) : travel_plan :=
  {| plan_uuid := uuid;
     plan_destination := destination input;
     plan_travelDates := travelDates input;
     plan_budget := budget input;
     plan_travelType := travelType input;
     plan_keyInterests := keyInterests input;
     plan_numberOfPeople := numberOfPeople input;
     plan_travelCompanions := travelCompanions input;
     plan_itinerary := days;
     plan_eateries := eateries;
     plan_faqs := faqs;
     plan_popularDestinations := popular |}.

(** The record, reading [itinerary.days] (a [TypeError] on a nullish
    itinerary). *)
Definition assemble (input : TravelFormSchema) (uuid : jsstr)
  (itinerary eateries faqs popular : jsval) : jsresult travel_plan :=
  let* days := member itinerary (js "days") in
  Normal (plan_record input uuid days eateries faqs popular).

(** [const [itinerary, eateries, faqs, popularDestinations] = results] *)
Definition element (results : jsval) (i : nat) : jsval :=
  match results with JArr vs => default JUndef (vs !! i) | _ => JUndef end.

(** [console.log("Travel plan saved:", uuid)] *)
Definition saved_log (u : jsstr) : list log_arg := [LStr (js "Travel plan saved:"); LStr u].

(** After [await ItineraryModel.create(travelPlan)] (lines 175-176). *)
Definition after_create (uuid : jsstr) (r : jsresult jsval) : prog :=
  match r with
  | Normal _ => Log LogInfo (saved_log uuid) (Ret (JStr uuid))
  | Abrupt e => plan_catch e
  end.

(** After [const uuid = uuidv4()] (lines 157-173). *)
Definition after_uuid (input : TravelFormSchema) (results : jsval) (uuid : jsstr) : prog :=
  match assemble input uuid (element results 0) (element results 1)
                 (element results 2) (element results 3) with
  | Normal plan => Await (OpCreate plan) (after_create uuid)
  | Abrupt e => plan_catch e
  end.

(** After [await Promise.all(...)] (line 155 on). *)
Definition after_all (input : TravelFormSchema) (r : jsresult jsval) : prog :=
  match r with
  | Normal results => Uuid (after_uuid input results)
  | Abrupt e => plan_catch e
  end.

Section Orchestrator.
Context (api_key : jsval).

(** The four promises of line 149-154. *)
Definition plan_branches (input : TravelFormSchema) : list prog :=
  [generateItinerary api_key input; getBestEateries api_key input; getFaqs api_key input;
   Await (OpPopular (destination input)) of_result].

(** After [await dbConnect()] (line 149 on). *)
Definition after_connect (input : TravelFormSchema) (r : jsresult jsval) : prog :=
  match r with
  | Normal _ => All (plan_branches input) (after_all input)
  | Abrupt e => plan_catch e
  end.

Definition generateFullTravelPlan (input : TravelFormSchema) : prog :=
  Await OpConnect (after_connect input).
End Orchestrator.

(** ** Where the stored record comes from *)

(** The operation of branch [i] of the [Promise.all]. *)
Definition branch_op (api_key : jsval) (input : TravelFormSchema) (i : nat) : op :=
  match i with
  | O => prompt_post api_key input itinerary_promptid
  | 1 => prompt_post api_key input eateries_promptid
  | 2 => prompt_post api_key input faqs_promptid
  | _ => OpPopular (destination input)
  end.

(** A branch returns [v] after its operation settled with [r]: a post
    whose answer the attempt turns into [v], or the destinations lookup
    resolving to [v]. *)
Definition branch_val (o : op) (r : jsresult jsval) (v : jsval) : Prop :=
  match o with OpPost _ _ _ => attempt_outcome r = Normal v | _ => r = Normal v end.

Definition answered (o : op) (v : jsval) (tr : list event) : Prop :=
  exists r, EvCall o r ∈ tr /\ branch_val o r v.

(** The record holds the uuid [uuidv4()] returned and, field by field,
    the result of the branch that field is read from. *)
Definition from_answers (api_key : jsval) (input : TravelFormSchema) (tr : list event)
  (plan : travel_plan) : Prop :=
  exists u a b c d,
    EvUuid u ∈ tr /\ answered (branch_op api_key input 0) a tr /\
    answered (branch_op api_key input 1) b tr /\ answered (branch_op api_key input 2) c tr /\
    answered (branch_op api_key input 3) d tr /\
    plan = plan_record input u (get_prop a (js "days")) b c d.

(** A branch still running returns only a value answered to its own
    operation; a branch that returned was answered so. *)
Definition child_prov (api_key : jsval) (input : TravelFormSchema) (i : nat) (tr : list event)
  (p : prog) : Prop :=
  ret_after (fun o r v => o = branch_op api_key input i /\ branch_val o r v) p \/
  exists v, p = Ret v /\ answered (branch_op api_key input i) v tr.

(** ** The invariant *)

Definition not_create (o : op) : Prop := forall doc, o <> OpCreate doc.

(** A branch of the [Promise.all] at index [i]: it never stores, and the
    three prompt requests ([i < 3]) finish with a [fetchData] result. *)
Definition child_ok (i : nat) (p : prog) : Prop :=
  only_ops not_create p /\ ((i < 3)%nat -> exists n, finishes fetch_result_ok n p).

Definition bg_ok (t : thread) : Prop := exists p, t = TRun p /\ only_ops not_create p.

(** The shape of a stored record: the form's eight fields are echoed
    and the eateries and FAQ fields are non-null objects, as [fetchData]
    returns them. Which answer each field comes from is [from_answers]. *)
Definition good_plan (input : TravelFormSchema) (plan : travel_plan) : Prop :=
  plan = plan_record input (plan_uuid plan) (plan_itinerary plan) (plan_eateries plan)
           (plan_faqs plan) (plan_popularDestinations plan) /\
  is_nonnull_object (plan_eateries plan) = true /\ is_nonnull_object (plan_faqs plan) = true.

(** After an error: nothing stored, or the one store was rejected. *)
Definition catch_ok (tr : list event) : Prop :=
  creates tr = [] \/ exists plan e, creates tr = [plan] /\ EvCall (OpCreate plan) (Abrupt e) ∈ tr.

Lemma catch_ok_app tr evs : creates evs = [] -> catch_ok tr -> catch_ok (tr ++ evs).
Proof.
  intros Hc [Hk|(plan & e' & Hk & Hin)]; [left|right; exists plan, e'];
    rewrite creates_app, Hc, app_nil_r; [done|split; [done|set_solver]].
Qed.

Lemma answered_mono o v tr evs : answered o v tr -> answered o v (tr ++ evs).
Proof. intros (r & Hin & Hv). exists r. split; [set_solver|done]. Qed.

Lemma from_answers_mono api_key input tr evs plan :
  from_answers api_key input tr plan -> from_answers api_key input (tr ++ evs) plan.
Proof.
  intros (u & a & b & c & d & Hu & Ha & Hb & Hc & Hd & ->).
  exists u, a, b, c, d. split_and!; auto using answered_mono. set_solver.
Qed.

Lemma child_prov_mono api_key input i tr evs p :
  child_prov api_key input i tr p -> child_prov api_key input i (tr ++ evs) p.
Proof. intros [H|(v & -> & Hv)]; [by left|right; eauto using answered_mono]. Qed.

(** An answer that lets the code go on: a post whose answer the attempt
    accepts, or any other operation that resolves. *)
Definition good_answer (o : op) (r : jsresult jsval) : bool :=
  match o with
  | OpPost _ _ _ => match attempt_outcome r with Normal _ => true | Abrupt _ => false end
  | _ => match r with Normal _ => true | Abrupt _ => false end
  end.

(** Some collaborator answered badly. *)
Definition bad_in (tr : list event) : Prop :=
  exists o r, EvCall o r ∈ tr /\ good_answer o r = false.

Lemma bad_in_mono tr evs : bad_in tr -> bad_in (tr ++ evs).
Proof. intros (o & r & Hin & Hb). exists o, r. split; [set_solver|done]. Qed.

#[local] Hint Resolve answered_mono from_answers_mono child_prov_mono bad_in_mono : tp.

Section Invariant.
Context (api_key : jsval) (input : TravelFormSchema).

(** The program points of the foreground, with what the trace has
    stored at each. *)
Inductive fg_inv (tr : list event) : thread -> Prop :=
| fi_start :
    creates tr = [] -> fg_inv tr (TRun (generateFullTravelPlan api_key input))
| fi_all :
    creates tr = [] -> fg_inv tr (TRun (All (plan_branches api_key input) (after_all input)))
| fi_running ts :
    creates tr = [] -> length ts = 4%nat ->
    (forall i t, ts !! i = Some t ->
       exists p, t = TRun p /\ child_ok i p /\ child_prov api_key input i tr p /\
                 (safe_unless good_answer p \/ bad_in tr)) ->
    fg_inv tr (TAll ts (after_all input))
| fi_uuid vs :
    creates tr = [] -> length vs = 4%nat ->
    (forall i v, (i < 3)%nat -> vs !! i = Some v -> is_nonnull_object v = true) ->
    (forall i v, vs !! i = Some v -> answered (branch_op api_key input i) v tr) ->
    fg_inv tr (TRun (Uuid (after_uuid input (JArr vs))))
| fi_create plan :
    creates tr = [] -> good_plan input plan -> from_answers api_key input tr plan ->
    fg_inv tr (TRun (Await (OpCreate plan) (after_create (plan_uuid plan))))
| fi_saved plan x :
    creates tr = [plan] -> EvCall (OpCreate plan) (Normal x) ∈ tr ->
    fg_inv tr (TRun (Log LogInfo (saved_log (plan_uuid plan)) (Ret (JStr (plan_uuid plan)))))
| fi_done plan x :
    creates tr = [plan] -> EvCall (OpCreate plan) (Normal x) ∈ tr ->
    EvLog LogInfo (saved_log (plan_uuid plan)) ∈ tr ->
    fg_inv tr (TRun (Ret (JStr (plan_uuid plan))))
| fi_catch e : catch_ok tr -> bad_in tr -> fg_inv tr (TRun (plan_catch e))
| fi_failed : catch_ok tr -> bad_in tr -> (exists e, EvLog LogError (catch_log e) ∈ tr) ->
    fg_inv tr (TRun (Throw generic_error)).

Definition orch_inv (tr : list event) (s : sys) : Prop :=
  fg_inv tr (fg s) /\ Forall bg_ok (bg s) /\
  (length (creates tr) <= 1)%nat /\ Forall (good_plan input) (creates tr) /\
  Forall (from_answers api_key input tr) (creates tr).

(** A step that stores nothing keeps the program point. *)
Lemma fg_inv_extend tr evs t :
  creates evs = [] -> fg_inv tr t -> fg_inv (tr ++ evs) t.
Proof.
  intros Hc Hi.
  destruct Hi as [| |ts ? ? Hts|vs ? ? ? Hans| | | | |? ? (e & ?)]; econstructor;
    rewrite ?creates_app, ?Hc, ?app_nil_r; eauto using catch_ok_app with tp;
    intros i t Ht; destruct (Hts i t Ht) as (p & -> & ? & ? & [?|?]); eauto 8 with tp.
Qed.
End Invariant.

(** ** Preservation *)

Lemma calls_not_create_creates e : Forall not_create (calls [e]) -> creates [e] = [].
Proof.
  destruct e as [| |[| | |doc] r]; simpl; try done.
  intros Hc. inversion Hc as [|? ? Hn]; subst. by destruct (Hn doc).
Qed.

Lemma member_object v k : is_nonnull_object v = true -> member v k = Normal (get_prop v k).
Proof. destruct v; simpl; try discriminate; reflexivity. Qed.

Lemma bg_ok_step u ev u' d :
  bg_ok u -> tstep u ev u' d -> bg_ok u' /\ d = [] /\ creates (opt_event ev) = [].
Proof.
  intros (p & -> & Hp) Hs.
  destruct (tstep_only_ops _ _ _ _ _ Hp Hs) as (e & p' & -> & -> & -> & _ & Hp' & Hc).
  split_and!; [eexists; eauto|done|]. simpl. by apply calls_not_create_creates.
Qed.

Lemma child_ok_step i p ev t' d :
  child_ok i p -> tstep (TRun p) ev t' d ->
  exists p', t' = TRun p' /\ d = [] /\ child_ok i p' /\ creates (opt_event ev) = [].
Proof.
  intros [Hp Hf] Hs.
  destruct (tstep_only_ops _ _ _ _ _ Hp Hs) as (e & p' & -> & -> & -> & Hps & Hp' & Hc).
  exists p'. split_and!; try done.
  - split; [done|]. intros Hi. destruct (Hf Hi) as [n Hn]. by eapply finishes_pstep_ex.
  - simpl. by apply calls_not_create_creates.
Qed.

(** A step of a branch keeps where its result comes from. *)
Lemma child_prov_tstep api_key input i tr p ev p' d :
  child_prov api_key input i tr p -> tstep (TRun p) ev (TRun p') d ->
  child_prov api_key input i (tr ++ opt_event ev) p'.
Proof.
  intros [Hp|(v & -> & Hv)] Hs.
  - apply tstep_run_inv in Hs as [(e & p0 & -> & [=<-] & -> & Hps)|(ps & k & -> & _)];
      [|inversion Hp].
    destruct (ret_after_pstep _ _ _ _ Hp Hps) as [Hp'|(o & r & v & -> & -> & -> & Hv)]; [by left|].
    right. exists v. split; [done|]. exists r. split; [set_solver|done].
  - apply tstep_run_inv in Hs as [(e & p0 & _ & _ & _ & Hps)|(ps & k & ? & _)]; [inversion Hps|done].
Qed.

(** A step of a branch keeps it safe, unless the answer it got was bad. *)
Lemma child_safe_tstep tr p ev p' d :
  safe_unless good_answer p \/ bad_in tr -> tstep (TRun p) ev (TRun p') d ->
  safe_unless good_answer p' \/ bad_in (tr ++ opt_event ev).
Proof.
  intros [Hp|Hb] Hs; [|right; by apply bad_in_mono].
  apply tstep_run_inv in Hs as [(e & p0 & -> & [=<-] & -> & Hps)|(ps & k & -> & _)]; [|inversion Hp].
  destruct (safe_unless_pstep _ _ _ _ Hp Hps) as [Hp'|(o & r & -> & Hb)]; [by left|].
  right. exists o, r. split; [set_solver|done].
Qed.

Section Preservation.
Context (api_key : jsval) (input : TravelFormSchema).

Lemma branches_ok i p : plan_branches api_key input !! i = Some p -> child_ok i p.
Proof.
  intros Hi. assert (Hnc : forall pid o, eq (prompt_post api_key input pid) o -> not_create o)
    by (intros ? ? <- ?; discriminate).
  destruct i as [|[|[|[|i]]]]; simpl in Hi; simplify_eq;
    [..|split; [|lia]; constructor; [discriminate|]; intros []; constructor].
  all: match goal with
       | |- child_ok _ ?p =>
           let pid := match p with
                      | generateItinerary _ _ => itinerary_promptid
                      | getBestEateries _ _ => eateries_promptid
                      | getFaqs _ _ => faqs_promptid end in
           assert (Hin : (p, pid) ∈ prompt_requests api_key input) by set_solver;
           split; [eapply only_ops_mono; [apply (prompt_request_only_ops _ _ _ _ Hin)|apply Hnc]
                  |intros _; eexists; apply (prompt_request_finishes _ _ _ _ Hin)]
       end.
Qed.

Lemma branches_prov tr i p :
  plan_branches api_key input !! i = Some p -> child_prov api_key input i tr p.
Proof.
  intros Hi. left. destruct i as [|[|[|[|i]]]]; simpl in Hi; simplify_eq.
  4: { constructor; [intros [a|e] v; simpl; intros [=]; subst; split; reflexivity|].
       intros [a|e] H; [by destruct (H a)|constructor]. }
  1: unfold generateItinerary;
     lazymatch goal with |- ret_after _ (Log _ [LStr (js "inside")] _) => apply ra_log | _ => idtac end.
  all: eapply ret_after_mono; [apply (fetch_loop_ret_after 3 0)|];
    intros o r v [-> Hv]; split; [reflexivity|exact Hv].
Qed.

Lemma branches_safe i p :
  plan_branches api_key input !! i = Some p -> safe_unless good_answer p.
Proof.
  intros Hi. destruct i as [|[|[|[|i]]]]; simpl in Hi; simplify_eq.
  4: { constructor. intros [v|e] Hr; [constructor|discriminate]. }
  1: unfold generateItinerary;
     lazymatch goal with |- safe_unless _ (Log _ [LStr (js "inside")] _) => apply su_log | _ => idtac end.
  all: apply fetch_loop_safe; [|lia]; intros r; simpl;
    destruct (attempt_outcome r) as [v|e]; [eauto|discriminate].
Qed.

Lemma uuid_step tr vs u :
  creates tr = [] -> length vs = 4%nat ->
  (forall i v, (i < 3)%nat -> vs !! i = Some v -> is_nonnull_object v = true) ->
  (forall i v, vs !! i = Some v -> answered (branch_op api_key input i) v tr) ->
  fg_inv api_key input (tr ++ [EvUuid u]) (TRun (after_uuid input (JArr vs) u)).
Proof.
  intros Hc Hlen Hobj Hans. destruct vs as [|a [|b [|c [|d [|]]]]]; simpl in Hlen; try lia.
  pose proof (Hobj 0%nat a ltac:(lia) eq_refl) as Ha.
  pose proof (Hobj 1%nat b ltac:(lia) eq_refl) as Hb.
  pose proof (Hobj 2%nat c ltac:(lia) eq_refl) as Hc'.
  unfold after_uuid, assemble. simpl. rewrite member_object by done. simpl.
  apply (fi_create _ _ _ (plan_record input u (get_prop a (js "days")) b c d));
    [by rewrite creates_app, Hc|by split_and!|].
  exists u, a, b, c, d. split_and!; [set_solver| | | | |done]; apply answered_mono;
    [apply (Hans 0%nat)|apply (Hans 1%nat)|apply (Hans 2%nat)|apply (Hans 3%nat)]; done.
Qed.
End Preservation.

Section Steps.
Context (api_key : jsval) (input : TravelFormSchema).

(** The [Promise.all] phase: a branch steps, all branches returned, or a
    branch threw. *)
Lemma running_step tr ts ev t' d :
  creates tr = [] -> length ts = 4%nat ->
  (forall i t, ts !! i = Some t ->
     exists p, t = TRun p /\ child_ok i p /\ child_prov api_key input i tr p /\
               (safe_unless good_answer p \/ bad_in tr)) ->
  tstep (TAll ts (after_all input)) ev t' d ->
  fg_inv api_key input (tr ++ opt_event ev) t' /\ Forall bg_ok d /\ creates (opt_event ev) = [].
Proof.
  intros Hc Hlen Hts Hs. inversion Hs; subst.
  - match goal with Hi : ts !! _ = Some ?t, Hst : tstep ?t _ _ _ |- _ =>
      destruct (Hts _ _ Hi) as (p & -> & Hp & Hprov & Hsafe);
      destruct (child_ok_step _ _ _ _ _ Hp Hst) as (p' & -> & -> & Hp' & Hce);
      pose proof (child_prov_tstep _ _ _ _ _ _ _ _ Hprov Hst);
      pose proof (child_safe_tstep _ _ _ _ _ Hsafe Hst) end.
    split_and!; [|done|done]. apply fi_running; [by rewrite creates_app, Hc, Hce|by rewrite length_insert|].
    intros j t Hj. rewrite list_lookup_insert in Hj. case_decide as Hd.
    + destruct Hd as [<- _]. simplify_eq. eauto.
    + destruct (Hts _ _ Hj) as (q & -> & ? & ? & [?|?]); eauto 8 with tp.
  - unfold after_all. split_and!; [|done|done]. apply fi_uuid; [by rewrite app_nil_r|..].
    + match goal with Hvs : Forall2 _ ts _ |- _ => apply Forall2_length in Hvs end. lia.
    + intros j v Hj Hv.
      match goal with Hvs : Forall2 _ ts _ |- _ =>
        destruct (Forall2_lookup_r _ _ _ _ _ Hvs Hv) as (t & Ht & ->) end.
      destruct (Hts _ _ Ht) as (p & [=<-] & (_ & Hf) & _). destruct (Hf Hj) as [n Hn]. by inversion Hn.
    + intros j v Hv. rewrite app_nil_r.
      match goal with Hvs : Forall2 _ ts _ |- _ =>
        destruct (Forall2_lookup_r _ _ _ _ _ Hvs Hv) as (t & Ht & ->) end.
      destruct (Hts _ _ Ht) as (p & [=<-] & _ & [Hr|(w & [=<-] & Hw)] & _); [inversion Hr|done].
  - unfold after_all. split_and!; [apply fi_catch; [left; by rewrite app_nil_r|]| |done].
    { match goal with Hi : ts !! _ = Some (TRun (Throw _)) |- _ =>
        destruct (Hts _ _ Hi) as (p & [=<-] & _ & _ & [Hsafe|Hb]) end;
        [inversion Hsafe|by rewrite app_nil_r]. }
    apply Forall_delete, Forall_lookup_2. intros j t Ht.
    destruct (Hts _ _ Ht) as (p & -> & Hp & _). destruct Hp. eexists; eauto.
Qed.

(** What a foreground step stores: nothing, or the one record it
    creates from the start of the trace. *)
Definition stores_ok (tr : list event) (ev : option event) : Prop :=
  creates (opt_event ev) = [] \/
  (creates tr = [] /\ exists plan, creates (opt_event ev) = [plan] /\ good_plan input plan /\
                                  from_answers api_key input tr plan).

(** Invert the step of a running foreground that is not at a
    [Promise.all]. *)
Ltac run_step Hs :=
  apply tstep_run_inv in Hs as [(?e & ?p' & -> & -> & -> & ?Hps)|(? & ? & ?Hp & _)];
  [|discriminate].

Lemma fg_step tr t ev t' d :
  fg_inv api_key input tr t -> tstep t ev t' d ->
  fg_inv api_key input (tr ++ opt_event ev) t' /\ Forall bg_ok d /\ stores_ok tr ev.
Proof.
  intros Hi Hs. unfold stores_ok.
  destruct Hi as [Hc|Hc|ts Hc Hlen Hts|vs Hc Hlen Hobj Hans|plan Hc Hg Hfrom|plan x Hc Hin|plan x Hc Hin|e Hk Hb|Hk Hb].
  - run_step Hs. inversion Hps; subst. split_and!; [|done|by left].
    destruct r as [v|e]; unfold after_connect; [apply fi_all; by rewrite creates_app, Hc|].
    apply fi_catch; [left; by rewrite creates_app, Hc|exists OpConnect, (Abrupt e); split; [set_solver|done]].
  - apply tstep_run_inv in Hs as [(e & p' & _ & _ & _ & Hps)|(ps & k & Hp & -> & -> & ->)];
      [inversion Hps|injection Hp as <- <-].
    split_and!; [|done|by left]. apply fi_running; [by rewrite app_nil_r|done|].
    intros i t Hi. rewrite list_lookup_fmap in Hi.
    destruct (plan_branches api_key input !! i) eqn:E; simplify_eq/=.
    eexists; split_and!; [done|by apply (branches_ok api_key input)|by apply branches_prov|].
    left. by apply (branches_safe api_key input i).
  - apply (running_step tr) in Hs as (? & ? & ?); auto.
  - run_step Hs. inversion Hps; subst. split_and!; [|done|by left].
    by apply uuid_step.
  - run_step Hs. inversion Hps; subst. split_and!; [|done|right; split; [done|eauto]].
    destruct r as [x|e]; unfold after_create;
      [|apply fi_catch; [right; exists plan, e; rewrite creates_app, Hc; split; [done|set_solver]
                        |exists (OpCreate plan), (Abrupt e); split; [set_solver|done]]].
    apply (fi_saved _ _ _ _ x); [by rewrite creates_app, Hc|set_solver].
  - run_step Hs. inversion Hps; subst. split_and!; [|done|by left].
    apply (fi_done _ _ _ _ x); [by rewrite creates_app, Hc, app_nil_r|set_solver|set_solver].
  - run_step Hs. inversion Hps.
  - run_step Hs. inversion Hps; subst. split_and!; [|done|by left].
    apply fi_failed; [by apply catch_ok_app|by apply bad_in_mono|exists e; set_solver].
  - run_step Hs. inversion Hps.
Qed.

Lemma orch_inv_step tr s ev s' :
  orch_inv api_key input tr s -> sstep s ev s' -> orch_inv api_key input (tr ++ opt_event ev) s'.
Proof.
  intros (Hfg & Hbg & Hlen & Hgood & Hfrom) Hs.
  assert (Hmono : forall evs, Forall (from_answers api_key input (tr ++ evs)) (creates tr))
    by (intros evs; eapply Forall_impl; [exact Hfrom|]; auto with tp).
  destruct Hs as [t ev t' d b Hst|t b i u ev u' d Hi Hst].
  - destruct (fg_step _ _ _ _ _ Hfg Hst) as (Hfg' & Hd & [Hc|(Hc & plan & Hc' & Hg & Hf)]);
      unfold orch_inv; simpl; rewrite creates_app, ?Hc, ?app_nil_r.
    + split_and!; simpl; auto using Forall_app_2.
    + rewrite Hc'. simpl. split_and!; [done|auto using Forall_app_2|lia|by apply Forall_singleton|].
      repeat constructor. auto with tp.
  - pose proof (Forall_lookup_1 _ _ _ _ Hbg Hi) as Hu.
    destruct (bg_ok_step _ _ _ _ Hu Hst) as (Hu' & -> & Hc).
    split_and!; simpl; rewrite ?creates_app, ?Hc, ?app_nil_r; auto.
    + by apply fg_inv_extend.
    + by apply Forall_insert.
Qed.

Lemma orch_inv_reach tr s :
  sreach (start (generateFullTravelPlan api_key input)) tr s -> orch_inv api_key input tr s.
Proof.
  induction 1 as [|tr s ev s' _ IH Hs]; [|by eapply orch_inv_step].
  split_and!; simpl; auto. by apply fi_start.
Qed.
End Steps.

(** ** Theorems *)

(** C4: in every run of [generateFullTravelPlan], under every interleaving
    of the branches and every answer of the collaborators,
    [ItineraryModel.create] is called at most once, by the call itself or
    by a branch left in the background by a rejected [Promise.all]; the
    record it stores echoes the form's eight fields, and its eateries and
    FAQ fields are non-null objects. *)
Theorem plan_stored_at_most_once api_key input tr s :
  sreach (start (generateFullTravelPlan api_key input)) tr s ->
  (length (creates tr) <= 1)%nat /\ Forall (good_plan input) (creates tr).
Proof. intros H. apply orch_inv_reach in H as (_ & _ & ? & ? & _). done. Qed.

(** C5: when the call returns, it returns the uuid of the one record it
    stored, and that store succeeded. *)
Theorem plan_success_returns_stored_uuid api_key input tr b v :
  sreach (start (generateFullTravelPlan api_key input)) tr (Sys (TRun (Ret v)) b) ->
  exists plan x, v = JStr (plan_uuid plan) /\ creates tr = [plan] /\ good_plan input plan /\
                 EvCall (OpCreate plan) (Normal x) ∈ tr.
Proof.
  intros H. apply orch_inv_reach in H as (Hfg & _ & _ & Hgood & _). simpl in Hfg.
  inversion Hfg as [| | | | | |plan x Hc Hin| |]; subst.
  exists plan, x. rewrite Hc in Hgood. inversion Hgood. done.
Qed.

(** C6: when the call throws, it throws the generic
    ["Failed to generate full travel plan"] error, and no record was
    stored unless the store itself was rejected: partial results are never
    persisted. *)
Theorem plan_failure_generic api_key input tr b e :
  sreach (start (generateFullTravelPlan api_key input)) tr (Sys (TRun (Throw e)) b) ->
  e = generic_error /\ catch_ok tr.
Proof.
  intros H. apply orch_inv_reach in H as (Hfg & _ & _ & _). simpl in Hfg.
  by inversion Hfg.
Qed.

(** C17: the record a run stores is made, field by field, of the answers
    to its own branches, whatever order the four branches of
    [Promise.all] finish in: the uuid [uuidv4()] returned, the [days] of
    an answer to the itinerary prompt, the results of answers to the
    eateries and FAQ prompts, and what [getPopularDestinations] resolved
    to. [Promise.all] keeps the results in the order of its array, not
    in the order the branches settle. *)
Theorem plan_record_from_branches api_key input tr s plan :
  sreach (start (generateFullTravelPlan api_key input)) tr s -> plan ∈ creates tr ->
  exists u a b c d,
    EvUuid u ∈ tr /\
    answered (prompt_post api_key input itinerary_promptid) a tr /\
    answered (prompt_post api_key input eateries_promptid) b tr /\
    answered (prompt_post api_key input faqs_promptid) c tr /\
    answered (OpPopular (destination input)) d tr /\
    plan = plan_record input u (get_prop a (js "days")) b c d.
Proof.
  intros H Hin. apply orch_inv_reach in H as (_ & _ & _ & _ & Hfrom).
  exact (proj1 (Forall_forall _ _) Hfrom plan Hin).
Qed.

(** C23: a call that has ended has logged its outcome: when it returned
    a uuid, [console.log("Travel plan saved:", uuid)] logged that uuid;
    when it threw, the error is the generic one and the [catch] block
    logged ["Error generating full travel plan:"] with an error first. *)
Theorem plan_logs_outcome api_key input tr t b :
  sreach (start (generateFullTravelPlan api_key input)) tr (Sys t b) ->
  (forall v, t = TRun (Ret v) -> exists u, v = JStr u /\ EvLog LogInfo (saved_log u) ∈ tr) /\
  (forall e, t = TRun (Throw e) -> e = generic_error /\ exists e', EvLog LogError (catch_log e') ∈ tr).
Proof.
  intros H. apply orch_inv_reach in H as (Hfg & _). simpl in Hfg.
  split; intros ? ->; inversion Hfg; subst; eauto.
Qed.

(** ** Concrete runs and witnesses *)

Definition answer_with (text : jsstr) : jsresult jsval := Normal (envelope (JStr text)).

(** A run in which everything succeeds: the database connects, each prompt
    answers on its first attempt, the destinations lookup returns [[]],
    [uuidv4()] gives ["u-1"] and the store succeeds. *)
Lemma success_run :
  exists tr, sreach (start (generateFullTravelPlan JUndef sample_form)) tr
               (Sys (TRun (Ret (JStr (js "u-1")))) []).
Proof.
  eexists. apply sreach_srun.
  fg_step_with (Normal JUndef : jsresult jsval).
  eapply srun_step; [apply ss_fg, ts_all_start|].
  child_logs 0%nat.
  child_step_with 0%nat (answer_with (jsq "{'days':[]}")).
  child_logs 1%nat.
  child_step_with 1%nat (answer_with (jsq "{'eateries':[]}")).
  child_logs 2%nat.
  child_step_with 2%nat (answer_with (jsq "{'faqs':[]}")).
  child_step_with 3%nat (Normal (JArr []) : jsresult jsval).
  eapply srun_step; [apply ss_fg, ts_all_resolve; vm_compute; repeat constructor|].
  eapply srun_step; [apply ss_fg, ts_prog, (pstep_uuid _ (js "u-1"))|].
  vm_compute. fg_step_with (Normal JUndef : jsresult jsval).
  fg_step_with JUndef. apply srun_refl.
Qed.

Definition network_error : jserror :=
  {| err_name := js "AxiosError"; err_message := [MLit (js "Network Error")] |}.

(** The branches still running when the eateries request has failed
    three times: the itinerary and FAQ requests and the destinations
    lookup, none of which has started. *)
Definition failure_bg : list thread :=
  [TRun (generateItinerary JUndef sample_form); TRun (getFaqs JUndef sample_form);
   TRun (Await (OpPopular (destination sample_form)) of_result)].

(** A run in which the eateries request fails three times: the
    [Promise.all] rejects while the other branches are still running, and
    they go on in the background. *)
Lemma branch_failure_run :
  exists tr, sreach (start (generateFullTravelPlan JUndef sample_form)) tr
               (Sys (TRun (Throw generic_error)) failure_bg).
Proof.
  eexists. apply sreach_srun.
  fg_step_with (Normal JUndef : jsresult jsval).
  eapply srun_step; [apply ss_fg, ts_all_start|].
  child_step_with 1%nat JUndef. child_step_with 1%nat (Abrupt network_error : jsresult jsval).
  child_step_with 1%nat JUndef. child_step_with 1%nat JUndef.
  child_step_with 1%nat (Abrupt network_error : jsresult jsval).
  child_step_with 1%nat JUndef. child_step_with 1%nat JUndef.
  child_step_with 1%nat (Abrupt network_error : jsresult jsval).
  child_step_with 1%nat JUndef.
  eapply srun_step; [apply ss_fg, (ts_all_reject _ _ 1); reflexivity|].
  fg_step_with JUndef. apply srun_refl.
Qed.

(** Witness of C4: the successful run stores one record. *)
Lemma plan_stored_at_most_once_witness :
  exists tr, (length (creates tr) <= 1)%nat /\ Forall (good_plan sample_form) (creates tr).
Proof.
  destruct success_run as [tr H]. exists tr.
  exact (plan_stored_at_most_once _ _ _ _ H).
Defined.

(** Witness of C5: the successful run returns ["u-1"], the uuid of the
    record it stored. *)
Lemma plan_success_returns_stored_uuid_witness :
  exists tr plan x, JStr (js "u-1") = JStr (plan_uuid plan) /\ creates tr = [plan] /\
                    good_plan sample_form plan /\ EvCall (OpCreate plan) (Normal x) ∈ tr.
Proof.
  destruct success_run as [tr H]. exists tr.
  exact (plan_success_returns_stored_uuid _ _ _ _ _ H).
Defined.

(** Witness of C6: the run with the failing branch throws the generic
    error and stores nothing. *)
Lemma plan_failure_generic_witness :
  exists tr, generic_error = generic_error /\ catch_ok tr.
Proof.
  destruct branch_failure_run as (tr & H). exists tr.
  exact (plan_failure_generic _ _ _ _ _ H).
Defined.

(** Witness of C17: the record of the successful run. *)
Lemma plan_record_from_branches_witness :
  exists tr plan, plan ∈ creates tr /\
    exists u a b c d,
      EvUuid u ∈ tr /\
      answered (prompt_post JUndef sample_form itinerary_promptid) a tr /\
      answered (prompt_post JUndef sample_form eateries_promptid) b tr /\
      answered (prompt_post JUndef sample_form faqs_promptid) c tr /\
      answered (OpPopular (destination sample_form)) d tr /\
      plan = plan_record sample_form u (get_prop a (js "days")) b c d.
Proof.
  destruct success_run as [tr H]. pose proof H as H'.
  apply orch_inv_reach in H' as (Hfg & _). simpl in Hfg.
  inversion Hfg as [| | | | | |plan x Hc Hin| |]; subst.
  assert (Hp : plan ∈ creates tr) by (rewrite Hc; set_solver).
  exists tr, plan. split; [exact Hp|].
  exact (plan_record_from_branches _ _ _ _ _ H Hp).
Defined.

(** Witness of C23: the successful run has logged ["Travel plan saved:"]
    with ["u-1"]. *)
Lemma plan_logs_outcome_witness :
  exists tr : list event, exists u, JStr (js "u-1") = JStr u /\ EvLog LogInfo (saved_log u) ∈ tr.
Proof.
  destruct success_run as [tr H]. exists tr.
  exact (proj1 (plan_logs_outcome _ _ _ _ _ H) _ eq_refl).
Defined.
