(* ===== verification/Liveness.v ===== *)
(** * Termination and progress of the interleaved runs

    [sys_finishes n s]: every run of the system [s] ends, after at most
    [n] steps, in a state where the foreground and every background thread
    have returned or thrown, and until then some step is always possible
    (no run is stuck). The proof is a ranking argument: [pbound n p] and
    [tbound n t] bound the steps a program or a thread can still take,
    every step of [Concurrency] lowers the sum of the bounds of a system
    ([sbound_step]), and every state that is not finished can step
    ([sys_progress]). For [generateFullTravelPlan] the bound is 35 steps:
    the connection, the start of [Promise.all], the 10 + 9 + 9 + 1 steps
    of its branches, its settling, and at most three steps after it.
    [sys_finishes_by ans Q] is the same for the runs whose operations
    are answered by [ans], ending where [Q] holds; [sbound_finishes_by]
    derives it from a bound and an invariant ([Backend] uses it). *)

From S2P Require Import Prelude JsString JsValue Payload Async FetchData Requests Concurrency Orchestrator.

(** ** Bounds on the remaining steps *)

(** [pbound n p]: every run of [p] takes at most [n] steps. A
    [Promise.all] takes one step to start, the steps of its children, one
    step to settle, and the steps of its continuation. *)
#[warnings="-register-all"]
Inductive pbound : nat -> prog -> Prop :=
| pb_ret n v : pbound n (Ret v)
| pb_throw n e : pbound n (Throw e)
| pb_log n l a k : pbound n k -> pbound (S n) (Log l a k)
| pb_uuid n k : (forall u, pbound n (k u)) -> pbound (S n) (Uuid k)
| pb_await n o k : (forall r, pbound n (k r)) -> pbound (S n) (Await o k)
| pb_all n ps k ns m :
    Forall2 pbound ns ps -> (forall r, pbound m (k r)) ->
    (sum_list ns + m + 1 < n)%nat -> pbound n (All ps k).

#[warnings="-register-all"]
Inductive tbound : nat -> thread -> Prop :=
| tb_run n p : pbound n p -> tbound n (TRun p)
| tb_all n ts k ns m :
    Forall2 tbound ns ts -> (forall r, pbound m (k r)) ->
    (sum_list ns + m < n)%nat -> tbound n (TAll ts k).

Definition sbound (n : nat) (s : sys) : Prop :=
  exists n0 nb, tbound n0 (fg s) /\ Forall2 tbound nb (bg s) /\ (n0 + sum_list nb <= n)%nat.

(** A thread has finished when it has returned or thrown. *)
Definition thread_done (t : thread) : Prop :=
  match t with TRun (Ret _) | TRun (Throw _) => True | _ => False end.

Definition sys_done (s : sys) : Prop := thread_done (fg s) /\ Forall thread_done (bg s).

Inductive sys_finishes : nat -> sys -> Prop :=
| sf_done n s : sys_done s -> sys_finishes n s
| sf_step n s :
    (exists ev s', sstep s ev s') -> (forall ev s', sstep s ev s' -> sys_finishes n s') ->
    sys_finishes (S n) s.

(** The answers of a step come from [ans]: an awaited operation [o] is
    answered [ans o]. *)
Definition answers_by (ans : op -> jsresult jsval) (ev : option event) : Prop :=
  match ev with Some (EvCall o r) => r = ans o | _ => True end.

(** [sys_finishes_by ans Q n tr s]: every run of [s] whose collaborators
    answer as [ans] ends within [n] steps in a settled state, where [Q]
    holds of the whole trace [tr] and the state; until then a step with
    answers from [ans] is always possible. *)
Inductive sys_finishes_by (ans : op -> jsresult jsval) (Q : list event -> sys -> Prop) :
  nat -> list event -> sys -> Prop :=
| sfb_done n tr s : sys_done s -> Q tr s -> sys_finishes_by ans Q n tr s
| sfb_step n tr s :
    (exists ev s', sstep s ev s' /\ answers_by ans ev) ->
    (forall ev s', sstep s ev s' -> answers_by ans ev -> sys_finishes_by ans Q n (tr ++ opt_event ev) s') ->
    sys_finishes_by ans Q (S n) tr s.

#[export] Hint Constructors pbound tbound sys_finishes sys_finishes_by : tp.

(** ** Sums of bounds *)

Lemma sum_list_insert (l : list nat) i x y :
  l !! i = Some y -> (sum_list (<[i:=x]> l) + y = sum_list l + x)%nat.
Proof. revert i. induction l as [|z l IH]; intros [|i]; simpl; intros H; simplify_eq; try lia. apply IH in H. lia. Qed.

Lemma sum_list_delete (l : list nat) i : (sum_list (delete i l) <= sum_list l)%nat.
Proof. revert i. induction l as [|z l IH]; intros [|i]; simpl; try lia. specialize (IH i). lia. Qed.

(** ** Bounds go down along steps *)

Lemma pbound_mono n m p : pbound n p -> (n <= m)%nat -> pbound m p.
Proof.
  intros H. revert m. induction H; intros m' Hm; try (destruct m' as [|m']; [lia|]);
    econstructor; eauto with lia.
Qed.

Lemma tbound_mono n m t : tbound n t -> (n <= m)%nat -> tbound m t.
Proof. intros H Hm. inversion H; subst; econstructor; eauto using pbound_mono with lia. Qed.

Lemma pbound_pstep n p ev p' : pbound n p -> pstep p ev p' -> exists n', n = S n' /\ pbound n' p'.
Proof. intros Hb Hs. destruct Hs; inversion Hb; subst; eauto. Qed.

Lemma tbound_step t ev t' d :
  tstep t ev t' d -> forall n, tbound n t ->
  exists n' nd, tbound n' t' /\ Forall2 tbound nd d /\ (n' + sum_list nd < n)%nat.
Proof.
  induction 1 as [p ev p' Hs|ps k|ts k i t ev t' d Hi Hs IH|ts k vs Hvs|ts k i e Hi];
    intros n Hb; inversion Hb as [? ? Hp|? ? ? ns m Hns Hk Hn]; subst.
  - destruct (pbound_pstep _ _ _ _ Hp Hs) as (n' & -> & Hp').
    exists n', []. split_and!; eauto with tp. simpl. lia.
  - inversion Hp as [| | | | |? ? ? ns m Hns Hk Hn]; subst.
    exists (sum_list ns + m + 1)%nat, []. split_and!; [|constructor|simpl; lia].
    apply (tb_all _ _ _ ns m); [|exact Hk|lia]. apply Forall2_fmap_r. by eapply Forall2_impl; [|constructor].
  - destruct (Forall2_lookup_r _ _ _ _ _ Hns Hi) as (ni & Hni & Ht).
    destruct (IH _ Ht) as (n' & nd & Ht' & Hd & Hlt).
    pose proof (sum_list_insert ns i n' ni Hni).
    exists (sum_list (<[i:=n']> ns) + m + 1)%nat, nd. split_and!; [|done|lia].
    apply (tb_all _ _ _ (<[i:=n']> ns) m); [by apply Forall2_insert|exact Hk|lia].
  - exists m, []. split_and!; [constructor; apply Hk|constructor|simpl; lia].
  - exists m, (delete i ns). split_and!; [constructor; apply Hk|by apply Forall2_delete|].
    pose proof (sum_list_delete ns i). lia.
Qed.

Lemma sbound_step n s ev s' : sbound n s -> sstep s ev s' -> exists n', (n' < n)%nat /\ sbound n' s'.
Proof.
  intros (n0 & nb & Hfg & Hbg & Hn) Hs. destruct Hs as [t ev t' d b Ht|t b i u ev u' d Hi Hu]; simpl in *.
  - destruct (tbound_step _ _ _ _ Ht _ Hfg) as (n' & nd & Ht' & Hd & Hlt).
    exists (n' + sum_list (nb ++ nd))%nat. split; [rewrite sum_list_with_app; lia|].
    exists n', (nb ++ nd). split_and!; [done|by apply Forall2_app|lia].
  - destruct (Forall2_lookup_r _ _ _ _ _ Hbg Hi) as (ni & Hni & Hu0).
    destruct (tbound_step _ _ _ _ Hu _ Hu0) as (n' & nd & Hu' & Hd & Hlt).
    pose proof (sum_list_insert nb i n' ni Hni).
    exists (n0 + sum_list (<[i:=n']> nb ++ nd))%nat. split; [rewrite sum_list_with_app; lia|].
    exists n0, (<[i:=n']> nb ++ nd). split_and!; [done|by apply Forall2_app; [apply Forall2_insert|]|lia].
Qed.

(** ** Progress *)

(** The induction principle for the children of a [Promise.all]. *)
Section thread_ind.
Variable P : thread -> Prop.
Hypothesis HRun : forall p, P (TRun p).
Hypothesis HAll : forall ts k, Forall P ts -> P (TAll ts k).

Fixpoint thread_ind' (t : thread) : P t :=
  match t with
  | TRun p => HRun p
  | TAll ts k =>
      HAll ts k ((fix go (l : list thread) : Forall P l :=
                    match l with
                    | [] => Forall_nil_2 _
                    | u :: l' => Forall_cons_2 _ _ _ (thread_ind' u) (go l')
                    end) ts)
  end.
End thread_ind.

Definition can_step (t : thread) : Prop := exists ev t' d, tstep t ev t' d.

(** Children that have all settled: one has thrown, or all have returned. *)
Lemma settled_cases ts :
  Forall thread_done ts ->
  (exists i e, ts !! i = Some (TRun (Throw e))) \/
  exists vs, Forall2 (fun t v => t = TRun (Ret v)) ts vs.
Proof.
  induction 1 as [|t ts Ht _ [(i & e & Hi)|(vs & Hvs)]].
  - right. by exists [].
  - left. by exists (S i), e.
  - destruct t as [[v|e| | | |]|]; try done.
    + right. exists (v :: vs). by constructor.
    + left. by exists 0%nat, e.
Qed.

(** A thread that has not finished can step, with its answers from any
    [ans]. *)
Lemma tstep_progress_by ans t :
  thread_done t \/ exists ev t' d, tstep t ev t' d /\ answers_by ans ev.
Proof.
  induction t as [p|ts k IH] using thread_ind'.
  - destruct p as [v|e|l a k|k|o k|ps k]; [left; done|left; done|right; do 3 eexists..].
    + split; [apply ts_prog, pstep_log|done].
    + split; [apply ts_prog, (pstep_uuid _ [])|done].
    + split; [apply ts_prog, (pstep_await _ _ (ans o))|done].
    + split; [apply ts_all_start|done].
  - right. destruct (Forall_or_lookup _ _ _ IH) as [Hd|(i & t & Hi & ev & t' & d & Hs & Ha)].
    + destruct (settled_cases _ Hd) as [(i & e & Hi)|(vs & Hvs)]; do 3 eexists; split; eauto using tstep; done.
    + do 3 eexists. split; [eauto using tstep|done].
Qed.

Lemma tstep_progress t : thread_done t \/ can_step t.
Proof.
  destruct (tstep_progress_by (fun _ => Normal JUndef) t) as [|(ev & t' & d & Hs & _)]; [by left|].
  right. by exists ev, t', d.
Qed.

Lemma thread_done_stuck t : thread_done t -> ~ can_step t.
Proof.
  destruct t as [[]|]; try done; intros _ (? & ? & ? & H);
    inversion H as [? ? ? Hs| | | |]; subst; inversion Hs.
Qed.

(** A system that has not finished can step, with its answers from any
    [ans]; one that has finished cannot step. *)
Lemma sys_progress_by ans s : sys_done s \/ exists ev s', sstep s ev s' /\ answers_by ans ev.
Proof.
  destruct s as [t b].
  destruct (tstep_progress_by ans t) as [Ht|(ev & t' & d & Hs & Ha)];
    [|right; do 2 eexists; split; [by apply ss_fg|done]].
  assert (Forall (fun u => thread_done u \/ exists ev u' d, tstep u ev u' d /\ answers_by ans ev) b) as Hb
    by (apply Forall_forall; intros u _; apply tstep_progress_by).
  destruct (Forall_or_lookup _ _ _ Hb) as [Hd|(i & u & Hi & ev & u' & d & Hs & Ha)];
    [left; by split|right; do 2 eexists; split; [by eapply ss_bg|done]].
Qed.

Lemma sys_progress s : sys_done s \/ exists ev s', sstep s ev s'.
Proof.
  destruct (sys_progress_by (fun _ => Normal JUndef) s) as [|(ev & s' & Hs & _)]; [by left|eauto].
Qed.

Lemma sys_done_stuck s ev s' : sys_done s -> ~ sstep s ev s'.
Proof.
  intros [Ht Hb] Hs. destruct Hs as [t ev t' d b Hs|t b i u ev u' d Hi Hs]; simpl in *.
  - apply (thread_done_stuck t); [done|by do 3 eexists].
  - apply (thread_done_stuck u); [by eapply Forall_lookup_1|by do 3 eexists].
Qed.

Lemma sys_finishes_mono n m s : sys_finishes n s -> (n <= m)%nat -> sys_finishes m s.
Proof.
  intros H. revert m. induction H as [n s Hd|n s Hex Hs IH]; intros m Hm; [by constructor|].
  destruct m as [|m]; [lia|]. constructor; [done|]. intros ev s' Hst. apply (IH ev s' Hst). lia.
Qed.

(** A bound on the steps of a system gives its termination. *)
Lemma sbound_finishes n s : sbound n s -> sys_finishes n s.
Proof.
  revert s. induction n as [n IH] using lt_wf_ind. intros s Hb.
  destruct (sys_progress s) as [Hd|(ev & s' & Hs)]; [by constructor|].
  destruct (sbound_step _ _ _ _ Hb Hs) as (n' & Hlt & _).
  destruct n as [|n]; [lia|]. constructor; [eauto|].
  intros ev' s'' Hs'. destruct (sbound_step _ _ _ _ Hb Hs') as (n'' & Hlt' & Hb').
  apply (sys_finishes_mono n''); [apply IH|]; auto with lia.
Qed.

Lemma sys_finishes_by_mono ans Q n m tr s :
  sys_finishes_by ans Q n tr s -> (n <= m)%nat -> sys_finishes_by ans Q m tr s.
Proof.
  intros H. revert m. induction H as [n tr s Hd HQ|n tr s Hex Hs IH]; intros m Hm; [by constructor|].
  destruct m as [|m]; [lia|]. constructor; [done|]. intros ev s' Hst Ha. apply IH; auto with lia.
Qed.

(** A bound on the steps and an invariant kept by the steps that answer
    as [ans] give termination of the runs under [ans], ending where [Q]
    holds when [Q] holds of every settled state of the invariant. *)
Section FinishesBy.
Context (ans : op -> jsresult jsval) (I Q : list event -> sys -> Prop).
Hypothesis I_step : forall tr s ev s', I tr s -> sstep s ev s' -> answers_by ans ev ->
  I (tr ++ opt_event ev) s'.
Hypothesis I_done : forall tr s, I tr s -> sys_done s -> Q tr s.

Lemma sbound_finishes_by n tr s : I tr s -> sbound n s -> sys_finishes_by ans Q n tr s.
Proof using I_step I_done.
  revert tr s. induction n as [n IH] using lt_wf_ind. intros tr s HI Hb.
  destruct (sys_progress_by ans s) as [Hd|(ev & s' & Hs & Ha)]; [by constructor; auto|].
  destruct (sbound_step _ _ _ _ Hb Hs) as (n' & Hlt & _).
  destruct n as [|n]; [lia|]. apply sfb_step; [eauto|].
  intros ev' s'' Hs' Ha'. destruct (sbound_step _ _ _ _ Hb Hs') as (n'' & Hlt' & Hb').
  apply (sys_finishes_by_mono _ _ n''); [apply IH|]; eauto with lia.
Qed.
End FinishesBy.

(** ** The bound of [generateFullTravelPlan] *)

Lemma finishes_pbound Q n p : finishes Q n p -> pbound n p.
Proof. induction 1; constructor; auto. Qed.

Lemma plan_catch_bound e : pbound 1 (plan_catch e).
Proof. repeat constructor. Qed.

#[local] Hint Resolve plan_catch_bound : tp.

Lemma after_all_bound input r : pbound 3 (after_all input r).
Proof.
  destruct r as [results|e]; simpl; [|eauto using pbound_mono with tp].
  constructor. intros u. unfold after_uuid. case_match; [|eauto using pbound_mono with tp].
  constructor. intros [v|e]; simpl; repeat constructor.
Qed.

Lemma plan_branches_bound api_key input : Forall2 pbound [10; 9; 9; 1]%nat (plan_branches api_key input).
Proof.
  unfold plan_branches, generateItinerary, getBestEateries, getFaqs.
  constructor;
    [lazymatch goal with |- pbound _ (Log _ [LStr (js "inside")] _) => constructor | _ => idtac end;
     eapply pbound_mono; [eapply finishes_pbound, (fetch_loop_finishes 3 0); lia|lia]|].
  do 2 (constructor; [eapply finishes_pbound, (fetch_loop_finishes 3 0); lia|]).
  repeat constructor. intros [|]; constructor.
Qed.

Lemma plan_sbound api_key input : sbound 35 (start (generateFullTravelPlan api_key input)).
Proof.
  exists 35%nat, []. split_and!; [|constructor|simpl; lia].
  do 2 constructor. intros [v|e]; simpl; [|eauto using pbound_mono with tp].
  apply (pb_all _ _ _ [10; 9; 9; 1]%nat 3); [apply plan_branches_bound|apply after_all_bound|simpl; lia].
Qed.

(** C14: every run of [generateFullTravelPlan], under any interleaving of
    its four branches and any answers of its collaborators, ends after at
    most 35 steps in a state where the call and every detached branch have
    settled; before that, a step is always possible, so no run is stuck. *)
Theorem plan_finishes api_key input :
  sys_finishes 35 (start (generateFullTravelPlan api_key input)).
Proof. apply sbound_finishes, plan_sbound. Qed.

