(* ===== verification/Backend.v ===== *)
(** * The collaborators of [generateFullTravelPlan] as an interface

    The four collaborators of the call, [axios.post] to the model API,
    [dbConnect], [getPopularDestinations] and [ItineraryModel.create],
    are external: elsewhere in the development their answers are chosen by
    the environment. Here they are one class, [Backend], that answers each
    operation, and [ReliableBackend] is the promise a backend makes to the
    call: each model answer is accepted by an attempt of [fetchData]
    (lines 28-39) and every other operation resolves. The theorem of this
    file is the positive side of the safety theorems of [Orchestrator]:
    against a reliable backend, every run of the call, under every
    interleaving of its branches and every [uuidv4()], settles within 35
    steps and the call returns the uuid of the one record it stored.
    Conversely, against a backend that rejects every answer to one of the
    three prompts ([FailingPrompt]), every run settles with the generic
    error thrown and nothing stored. *)

From S2P Require Import Prelude JsString JsValue Json Payload Attempt Async FetchData Requests Concurrency Orchestrator Liveness.

(** ** The interface *)

Class Backend := { backend_answer : op -> jsresult jsval }.

(** The law of a reliable backend, in the terms of the code: the answer to
    a prompt post is one that [process_response] accepts, and every other
    operation resolves. *)
Class ReliableBackend (B : Backend) : Prop :=
  { backend_reliable : forall o, good_answer o (backend_answer o) = true }.

(** A trace whose answers all come from the backend. *)
Definition under_backend `{Backend} (tr : list event) : Prop :=
  forall o r, EvCall o r ∈ tr -> r = backend_answer o.

(** The call has returned the uuid of the one record it stored, and the
    store resolved. *)
Definition plan_succeeded (tr : list event) (s : sys) : Prop :=
  exists plan x, fg s = TRun (Ret (JStr (plan_uuid plan))) /\ creates tr = [plan] /\
                 EvCall (OpCreate plan) (Normal x) ∈ tr.

(** A backend whose model answers are all the JSON object [{'days':[]}]
    and whose other operations resolve to [null]. *)
#[export] Instance days_backend : Backend :=
  {| backend_answer o :=
       match o with
       | OpPost _ _ _ => answer_with (jsq "{'days':[]}")
       | _ => Normal JNull
       end |}.

(** A backend that rejects, on every attempt, the answer to the post of
    prompt [pid] for this key and form: the post fails, or its response
    is not accepted by lines 28-39. *)
Class FailingPrompt (B : Backend) (api_key : jsval) (input : TravelFormSchema) (pid : jsstr) : Prop :=
  { prompt_fails : exists e, attempt_outcome (backend_answer (prompt_post api_key input pid)) = Abrupt e }.

(** The call has thrown the generic error and nothing was stored. *)
Definition plan_failed (tr : list event) (s : sys) : Prop :=
  fg s = TRun (Throw generic_error) /\ creates tr = [].

(** A backend whose network is down: every post rejects with a network
    error; the other operations resolve. *)
#[export] Instance down_backend : Backend :=
  {| backend_answer o :=
       match o with
       | OpPost _ _ _ => Abrupt network_error
       | _ => Normal JNull
       end |}.

(** ** Lemmas *)

Lemma under_backend_step `{Backend} tr ev :
  under_backend tr -> answers_by backend_answer ev -> under_backend (tr ++ opt_event ev).
Proof.
  intros Htr Hev o r Hin. rewrite elem_of_app in Hin. destruct Hin as [Hin|Hin]; [by apply Htr|].
  destruct ev as [ev|]; simpl in *; [|by apply not_elem_of_nil in Hin].
  apply list_elem_of_singleton in Hin. by subst ev.
Qed.

Lemma under_backend_not_bad `{ReliableBackend} tr : under_backend tr -> ~ bad_in tr.
Proof.
  intros Htr (o & r & Hin & Hb). apply Htr in Hin as ->.
  by rewrite backend_reliable in Hb.
Qed.

(** A settled foreground of the invariant, with no bad answer, has
    returned the stored uuid. *)
Lemma fg_inv_done_success api_key input tr t :
  fg_inv api_key input tr t -> thread_done t -> ~ bad_in tr ->
  exists plan x, t = TRun (Ret (JStr (plan_uuid plan))) /\ creates tr = [plan] /\
                 EvCall (OpCreate plan) (Normal x) ∈ tr.
Proof. intros Hfg Hd Hb. destruct Hfg; try done; eauto. Qed.

Lemma days_backend_reliable : ReliableBackend days_backend.
Proof. constructor. intros []; vm_compute; reflexivity. Qed.

#[export] Existing Instance days_backend_reliable.

Lemma down_backend_fails api_key input pid : FailingPrompt down_backend api_key input pid.
Proof. constructor. by exists network_error. Qed.

#[export] Existing Instance down_backend_fails.

Section Failing.
Context `{B : Backend} (api_key : jsval) (input : TravelFormSchema) (pid : jsstr).
Context {FP : FailingPrompt B api_key input pid}.

(** Under a backend failing prompt [pid], no answer to that prompt is
    ever accepted, so no record can be assembled. *)
Lemma under_backend_not_answered tr v :
  under_backend tr -> ~ answered (prompt_post api_key input pid) v tr.
Proof using FP.
  intros Htr (r & Hin & Hv). apply Htr in Hin as ->. simpl in Hv.
  destruct prompt_fails as [e He]. congruence.
Qed.

Lemma under_backend_no_record tr plan :
  pid ∈ [itinerary_promptid; eateries_promptid; faqs_promptid] -> under_backend tr ->
  ~ from_answers api_key input tr plan.
Proof using FP.
  intros Hpid Htr (u & a & b & c & d & _ & Ha & Hb & Hc & _).
  rewrite !elem_of_cons, elem_of_nil in Hpid.
  destruct Hpid as [Heq|[Heq|[Heq|[]]]]; simpl in *; rewrite <- Heq in *;
    eapply under_backend_not_answered; eauto.
Qed.
End Failing.

(** ** The theorems *)

(** C18: against a reliable backend, every run of [generateFullTravelPlan]
    whose operations are answered by the backend, under every interleaving
    of its four branches and every [uuidv4()], settles within 35 steps (and
    can always step until then), and the call has then returned the uuid
    of the one record it stored, whose store resolved: the call never
    fails when its collaborators keep their promise. *)
Theorem plan_succeeds_with_reliable_backend `{ReliableBackend} api_key input :
  sys_finishes_by backend_answer plan_succeeded 35 [] (start (generateFullTravelPlan api_key input)).
Proof.
  apply (sbound_finishes_by _
    (fun tr s => sreach (start (generateFullTravelPlan api_key input)) tr s /\ under_backend tr)).
  - intros tr s ev s' [Hr Hu] Hs Ha. split; [by econstructor|by apply under_backend_step].
  - intros tr s [Hr Hu] [Hd _]. apply orch_inv_reach in Hr as (Hfg & _).
    eapply fg_inv_done_success; eauto using under_backend_not_bad.
  - split; [constructor|]. intros o r Hin. set_solver.
  - apply plan_sbound.
Qed.

(** Witness of C18: the backend that answers every prompt with
    [{'days':[]}] is reliable, and the call on the sample form succeeds
    against it. *)
Lemma plan_succeeds_with_reliable_backend_witness :
  sys_finishes_by (@backend_answer days_backend) plan_succeeded 35 []
    (start (generateFullTravelPlan JUndef sample_form)).
Proof. apply (plan_succeeds_with_reliable_backend (H := days_backend_reliable)). Defined.

(** C19: against a backend that rejects every answer to one of the
    three prompts, every run of the call answered by it, under every
    interleaving, settles within 35 steps with the call thrown the generic
    error and nothing stored: the other branches may succeed, but no
    record is ever assembled without that prompt's result. *)
Section FailingTheorem.
Context `{B : Backend} (api_key : jsval) (input : TravelFormSchema) (pid : jsstr).
Context {FP : FailingPrompt B api_key input pid}.

Theorem plan_fails_with_failing_prompt :
  pid ∈ [itinerary_promptid; eateries_promptid; faqs_promptid] ->
  sys_finishes_by backend_answer plan_failed 35 [] (start (generateFullTravelPlan api_key input)).
Proof using FP.
  intros Hpid.
  apply (sbound_finishes_by _
    (fun tr s => sreach (start (generateFullTravelPlan api_key input)) tr s /\ under_backend tr)).
  - intros tr s ev s' [Hr Hu] Hs Ha. split; [by econstructor|by apply under_backend_step].
  - intros tr s [Hr Hu] [Hd _]. apply orch_inv_reach in Hr as (Hfg & _ & _ & _ & Hfrom).
    assert (Hc : creates tr = []).
    { destruct (creates tr) as [|plan ?]; [done|]. apply Forall_cons in Hfrom as [Hp _].
      by apply (under_backend_no_record api_key input pid) in Hp. }
    split; [|done]. destruct Hfg; simpl in *; try done; congruence.
  - split; [constructor|]. intros o r Hin. set_solver.
  - apply plan_sbound.
Qed.
End FailingTheorem.

(** Witness of C19: with the network down, the call on the sample form
    fails with nothing stored. *)
Lemma plan_fails_with_failing_prompt_witness :
  eateries_promptid ∈ [itinerary_promptid; eateries_promptid; faqs_promptid] /\
  sys_finishes_by (@backend_answer down_backend) plan_failed 35 []
    (start (generateFullTravelPlan JUndef sample_form)).
Proof.
  split; [set_solver|].
  apply (plan_fails_with_failing_prompt (B := down_backend) JUndef sample_form eateries_promptid).
  set_solver.
Defined.
