(* ===== verification/EventLoop.v ===== *)
(** * The Node.js event loop, and why the interleavings cover it

    [Concurrency] lets the threads of a run step in any order. Node.js runs
    the code of [tripPlan.ts] more strictly: JavaScript code runs to
    completion, and a function is suspended only at an [await] on an
    operation that has not settled. Here an external operation settles in
    a later macrotask of the loop, chosen by the environment. This file
    models that schedule and relates it to [Concurrency].

    - [settle p]: the synchronous run of [p] until it waits. [Log] and
      [uuidv4()] run at once. [Await o k] issues [o] and waits.
      [Promise.all(ps)] evaluates its array in order, each element running
      until its own first [await] ([settle_list]), then settles as
      [join_all]: it rejects with the first rejected element, resolves
      when every element has returned, and waits otherwise.
    - [deliver t o r]: the environment settles the in-flight operation
      [o] of thread [t] with [r]. The continuation then runs to
      completion, together with the [Promise.all] it completes.
    - [estep]: one macrotask, the settlement of one operation of the
      foreground or of a detached branch. [ereach p] gives the runs of a
      call of [p] under the loop.

    [ereach_sreach] shows that every run of the loop is a run of
    [Concurrency]: a macrotask is a sequence of interleaving steps
    ([settle_tsteps], [deliver_tsteps]). So every safety theorem of
    [Orchestrator] holds under the real schedule. The loop runs never get
    stuck and settle within 35 macrotasks. Unlike the interleavings, they
    fix an order: after the connection, the three prompt requests log and
    post in array order before any answer is handled. The early rejection
    of [Promise.all] happens under this schedule too. *)

From S2P Require Import Prelude JsString JsValue Payload Attempt Async FetchData Requests Concurrency Orchestrator Liveness.

(** ** The settling of a [Promise.all] *)

(** The first element, in array order, that has thrown. *)
Fixpoint first_throw (ts : list thread) : option (nat * jserror) :=
  match ts with
  | [] => None
  | TRun (Throw e) :: _ => Some (0%nat, e)
  | _ :: ts' => (fun '(i, e) => (S i, e)) <$> first_throw ts'
  end.

(** The values of the elements when all of them have returned. *)
Fixpoint all_returned (ts : list thread) : option (list jsval) :=
  match ts with
  | [] => Some []
  | TRun (Ret v) :: ts' => cons v <$> all_returned ts'
  | _ => None
  end.

(** ** Run to completion *)

(** [settle p evs t d]: started now, [p] runs synchronously, emitting
    [evs], until it is the thread [t] that waits or has finished; [d] are
    the branches of rejected [Promise.all]s it left running. *)
Inductive settle : prog -> list event -> thread -> list thread -> Prop :=
| se_ret v : settle (Ret v) [] (TRun (Ret v)) []
| se_throw e : settle (Throw e) [] (TRun (Throw e)) []
| se_await o k : settle (Await o k) [] (TRun (Await o k)) []
| se_log l a k evs t d : settle k evs t d -> settle (Log l a k) (EvLog l a :: evs) t d
| se_uuid k u evs t d : settle (k u) evs t d -> settle (Uuid k) (EvUuid u :: evs) t d
| se_all ps k evs ts d evs' t d' :
    settle_list ps evs ts d -> join_all ts k evs' t d' -> settle (All ps k) (evs ++ evs') t (d ++ d')
(** The elements of the array, each run until it waits, in order. *)
with settle_list : list prog -> list event -> list thread -> list thread -> Prop :=
| sl_nil : settle_list [] [] [] []
| sl_cons p ps evs t d evs' ts d' :
    settle p evs t d -> settle_list ps evs' ts d' -> settle_list (p :: ps) (evs ++ evs') (t :: ts) (d ++ d')
(** A [Promise.all] over the threads [ts], after one of them moved. *)
with join_all : list thread -> (jsresult jsval -> prog) -> list event -> thread -> list thread -> Prop :=
| ja_reject ts k i e evs t d :
    first_throw ts = Some (i, e) -> settle (k (Abrupt e)) evs t d ->
    join_all ts k evs t (delete i ts ++ d)
| ja_resolve ts k vs evs t d :
    first_throw ts = None -> all_returned ts = Some vs -> settle (k (Normal (JArr vs))) evs t d ->
    join_all ts k evs t d
| ja_wait ts k :
    first_throw ts = None -> all_returned ts = None -> join_all ts k [] (TAll ts k) [].

Scheme settle_mut := Induction for settle Sort Prop
with settle_list_mut := Induction for settle_list Sort Prop
with join_all_mut := Induction for join_all Sort Prop.
Combined Scheme settle_comb from settle_mut, settle_list_mut, join_all_mut.

(** [deliver t o r evs t' d]: the in-flight operation [o] of [t] settles
    with [r]; the code waiting for it runs to completion. *)
Inductive deliver : thread -> op -> jsresult jsval -> list event -> thread -> list thread -> Prop :=
| dv_await o k r evs t d : settle (k r) evs t d -> deliver (TRun (Await o k)) o r evs t d
| dv_child ts k i u o r evs u' d evs' t d' :
    ts !! i = Some u -> deliver u o r evs u' d -> join_all (<[i:=u']> ts) k evs' t d' ->
    deliver (TAll ts k) o r (evs ++ evs') t (d ++ d').

(** One macrotask: an operation of the foreground or of a detached
    branch settles. *)
Inductive estep : sys -> list event -> sys -> Prop :=
| es_fg t o r evs t' d b :
    deliver t o r evs t' d -> estep (Sys t b) (EvCall o r :: evs) (Sys t' (b ++ d))
| es_bg t b i u o r evs u' d :
    b !! i = Some u -> deliver u o r evs u' d ->
    estep (Sys t b) (EvCall o r :: evs) (Sys t (<[i:=u']> b ++ d)).

(** The runs of a call of [p] under the event loop. *)
Inductive ereach (p : prog) : list event -> sys -> Prop :=
| er_start evs t d : settle p evs t d -> ereach p evs (Sys t d)
| er_step tr s evs s' : ereach p tr s -> estep s evs s' -> ereach p (tr ++ evs) s'.

(** Sequences of interleaving steps of one thread, with the branches they
    detach. *)
Inductive tsteps : thread -> list event -> thread -> list thread -> Prop :=
| tss_refl t : tsteps t [] t []
| tss_step t ev t1 d1 evs t2 d2 :
    tstep t ev t1 d1 -> tsteps t1 evs t2 d2 -> tsteps t (opt_event ev ++ evs) t2 (d1 ++ d2).

(** A thread is quiescent between macrotasks: it waits for an operation,
    has settled, or is a [Promise.all] whose elements are quiescent, none
    rejected and not all fulfilled. *)
#[warnings="-register-all"]
Inductive quiet : thread -> Prop :=
| q_await o k : quiet (TRun (Await o k))
| q_ret v : quiet (TRun (Ret v))
| q_throw e : quiet (TRun (Throw e))
| q_all ts k :
    Forall quiet ts -> first_throw ts = None -> all_returned ts = None -> quiet (TAll ts k).

Definition quiet_sys (s : sys) : Prop := quiet (fg s) /\ Forall quiet (bg s).

(** [efinishes n s]: every run of the loop from [s] reaches, within [n]
    macrotasks, a state where every thread has settled; until then some
    operation is in flight, so a macrotask is always possible. *)
Inductive efinishes : nat -> sys -> Prop :=
| ef_done n s : sys_done s -> efinishes n s
| ef_step n s :
    (exists evs s', estep s evs s') -> (forall evs s', estep s evs s' -> efinishes n s') ->
    efinishes (S n) s.

#[export] Hint Constructors settle settle_list join_all deliver estep tsteps quiet efinishes : tp.

(** The induction principle for the arrays of [Promise.all]. *)
Section prog_ind.
Variable P : prog -> Prop.
Hypothesis HRet : forall v, P (Ret v).
Hypothesis HThrow : forall e, P (Throw e).
Hypothesis HLog : forall l a k, P k -> P (Log l a k).
Hypothesis HUuid : forall k, (forall u, P (k u)) -> P (Uuid k).
Hypothesis HAwait : forall o k, (forall r, P (k r)) -> P (Await o k).
Hypothesis HAll : forall ps k, Forall P ps -> (forall r, P (k r)) -> P (All ps k).

Fixpoint prog_ind' (p : prog) : P p :=
  match p with
  | Ret v => HRet v
  | Throw e => HThrow e
  | Log l a k => HLog l a k (prog_ind' k)
  | Uuid k => HUuid k (fun u => prog_ind' (k u))
  | Await o k => HAwait o k (fun r => prog_ind' (k r))
  | All ps k =>
      HAll ps k ((fix go (l : list prog) : Forall P l :=
                    match l with
                    | [] => Forall_nil_2 _
                    | q :: l' => Forall_cons_2 _ _ _ (prog_ind' q) (go l')
                    end) ps) (fun r => prog_ind' (k r))
  end.
End prog_ind.

(** ** Macrotasks are interleavings *)

Lemma tsteps_trans t evs1 t1 d1 evs2 t2 d2 :
  tsteps t evs1 t1 d1 -> tsteps t1 evs2 t2 d2 -> tsteps t (evs1 ++ evs2) t2 (d1 ++ d2).
Proof.
  induction 1 as [|t ev t' d1 evs t'' d' Hs _ IH]; intros H2; [done|].
  rewrite <- !app_assoc. econstructor; [exact Hs|]. by apply IH.
Qed.

(** The steps of one element of a [Promise.all]. *)
Lemma tsteps_child ts k i t evs t' d :
  ts !! i = Some t -> tsteps t evs t' d -> tsteps (TAll ts k) evs (TAll (<[i:=t']> ts) k) d.
Proof.
  intros Hi H. revert ts Hi. induction H as [t|t ev t1 d1 evs t2 d2 Hs _ IH]; intros ts Hi.
  - rewrite list_insert_id by done. constructor.
  - econstructor; [by eapply ts_all_child|]. rewrite <- (list_insert_insert_eq ts i t2 t1).
    apply IH. apply list_lookup_insert_eq. by eapply lookup_lt_Some.
Qed.

Lemma first_throw_lookup ts i e : first_throw ts = Some (i, e) -> ts !! i = Some (TRun (Throw e)).
Proof.
  revert i. induction ts as [|t ts IH]; intros i; simpl; [done|].
  destruct t as [[]|]; try (destruct (first_throw ts) as [[j e']|] eqn:E; simpl; intros [= <- <-]; by apply IH).
  by intros [= <- <-].
Qed.

Lemma all_returned_Forall2 ts vs :
  all_returned ts = Some vs -> Forall2 (fun t v => t = TRun (Ret v)) ts vs.
Proof.
  revert vs. induction ts as [|t ts IH]; intros vs; simpl; [intros [= <-]; constructor|].
  destruct t as [[]|]; try done. destruct (all_returned ts) eqn:E; simpl; [|done].
  intros [= <-]. constructor; auto.
Qed.

(** A synchronous run is a sequence of interleaving steps; so is the
    evaluation of an array, element after element, behind the elements
    already evaluated; and so is the settling of a [Promise.all]. *)
Lemma settle_tsteps_all :
  (forall p evs t d, settle p evs t d -> tsteps (TRun p) evs t d) /\
  (forall ps evs ts d, settle_list ps evs ts d ->
     forall pre k, tsteps (TAll (pre ++ map TRun ps) k) evs (TAll (pre ++ ts) k) d) /\
  (forall ts k evs t d, join_all ts k evs t d -> tsteps (TAll ts k) evs t d).
Proof.
  apply settle_comb.
  - constructor.
  - constructor.
  - constructor.
  - intros l a k evs t d _ IH. apply (tss_step _ (Some (EvLog l a)) (TRun k) [] evs t d); [apply ts_prog, pstep_log|exact IH].
  - intros k u evs t d _ IH. apply (tss_step _ (Some (EvUuid u)) (TRun (k u)) [] evs t d); [apply ts_prog, pstep_uuid|exact IH].
  - intros ps k evs ts d evs' t d' _ IHl _ IHj.
    apply (tss_step _ None (TAll (map TRun ps) k) [] (evs ++ evs') t (d ++ d')); [apply ts_all_start|].
    apply (tsteps_trans _ evs (TAll ts k) d evs' t d'); [apply (IHl [] k)|exact IHj].
  - intros pre k. simpl. rewrite app_nil_r. constructor.
  - intros p ps evs t d evs' ts d' _ IHp _ IHl pre k. simpl.
    apply tsteps_trans with (TAll (pre ++ t :: map TRun ps) k).
    + replace (pre ++ t :: map TRun ps) with (<[length pre + 0 := t]> (pre ++ TRun p :: map TRun ps))
        by (by rewrite insert_app_r).
      apply (tsteps_child _ _ _ (TRun p)); [apply list_lookup_middle; lia|exact IHp].
    + replace (pre ++ t :: map TRun ps) with ((pre ++ [t]) ++ map TRun ps) by (by rewrite <- app_assoc).
      replace (pre ++ t :: ts) with ((pre ++ [t]) ++ ts) by (by rewrite <- app_assoc). apply IHl.
  - intros ts k i e evs t d Hf _ IH.
    apply (tss_step _ None (TRun (k (Abrupt e))) (delete i ts) evs t d);
      [apply ts_all_reject, first_throw_lookup, Hf|exact IH].
  - intros ts k vs evs t d _ Hv _ IH.
    apply (tss_step _ None (TRun (k (Normal (JArr vs)))) [] evs t d);
      [apply ts_all_resolve, all_returned_Forall2, Hv|exact IH].
  - constructor.
Qed.

Lemma settle_tsteps p evs t d : settle p evs t d -> tsteps (TRun p) evs t d.
Proof. apply settle_tsteps_all. Qed.

Lemma join_all_tsteps ts k evs t d : join_all ts k evs t d -> tsteps (TAll ts k) evs t d.
Proof. apply settle_tsteps_all. Qed.

(** Handling the settlement of an operation is the interleaving step that
    answers it, then interleaving steps. *)
Lemma deliver_tsteps t o r evs t' d :
  deliver t o r evs t' d -> tsteps t (EvCall o r :: evs) t' d.
Proof.
  induction 1 as [o k r evs t d Hs|ts k i u o r evs u' d evs' t d' Hi _ IH Hj].
  - apply (tss_step _ (Some (EvCall o r)) (TRun (k r)) [] evs t d);
      [apply ts_prog, pstep_await|by apply settle_tsteps].
  - rewrite app_comm_cons. apply tsteps_trans with (TAll (<[i:=u']> ts) k);
      [by eapply tsteps_child|by apply join_all_tsteps].
Qed.

(** The steps of the foreground, and of a detached branch, are steps of
    the system. *)
Lemma tsteps_fg t evs t' d b : tsteps t evs t' d -> srun (Sys t b) evs (Sys t' (b ++ d)).
Proof.
  intros H. revert b. induction H as [t|t ev t1 d1 evs t2 d2 Hs _ IH]; intros b.
  - rewrite app_nil_r. constructor.
  - eapply srun_step; [by apply ss_fg|]. rewrite app_assoc. apply IH.
Qed.

Lemma tsteps_bg f b i u evs u' d :
  b !! i = Some u -> tsteps u evs u' d -> srun (Sys f b) evs (Sys f (<[i:=u']> b ++ d)).
Proof.
  intros Hi H. revert b Hi. induction H as [u|u ev u1 d1 evs u2 d2 Hs _ IH]; intros b Hi.
  - rewrite list_insert_id, app_nil_r by done. constructor.
  - eapply srun_step; [by eapply ss_bg|].
    assert (Hlt : (i < length b)%nat) by (by eapply lookup_lt_Some).
    replace (<[i:=u2]> b ++ d1 ++ d2) with (<[i:=u2]> (<[i:=u1]> b ++ d1) ++ d2).
    + apply IH. rewrite lookup_app_l by (by rewrite length_insert). by apply list_lookup_insert_eq.
    + rewrite insert_app_l by (by rewrite length_insert). by rewrite list_insert_insert_eq, app_assoc.
Qed.

Lemma estep_srun s evs s' : estep s evs s' -> srun s evs s'.
Proof.
  destruct 1 as [t o r evs t' d b Hd|t b i u o r evs u' d Hi Hd];
    apply deliver_tsteps in Hd; [by apply tsteps_fg|by eapply tsteps_bg].
Qed.

Lemma ereach_sreach p tr s : ereach p tr s -> sreach (start p) tr s.
Proof.
  induction 1 as [evs t d Hs|tr s evs s' _ IH Hst].
  - apply sreach_srun. apply settle_tsteps, (tsteps_fg _ _ _ _ []) in Hs. exact Hs.
  - eapply sreach_srun_app; [exact IH|by apply estep_srun].
Qed.

(** ** Every synchronous run ends *)

Lemma join_all_total ts k :
  (forall r, exists evs t d, settle (k r) evs t d) -> exists evs t d, join_all ts k evs t d.
Proof.
  intros Hk. destruct (first_throw ts) as [[i e]|] eqn:Ef.
  - destruct (Hk (Abrupt e)) as (evs & t & d & H). eauto with tp.
  - destruct (all_returned ts) as [vs|] eqn:Ea.
    + destruct (Hk (Normal (JArr vs))) as (evs & t & d & H). eauto with tp.
    + eauto with tp.
Qed.

(** Synchronous code always runs to a point where it waits or has
    finished: [settle] is total. *)
Lemma settle_total p : exists evs t d, settle p evs t d.
Proof.
  induction p as [v|e|l a k (evs & t & d & H)|k IH|o k _|ps k Hps Hk] using prog_ind'; eauto with tp.
  - destruct (IH []) as (evs & t & d & H). eauto with tp.
  - assert (exists evs ts d, settle_list ps evs ts d) as (evs & ts & d & Hl).
    { induction Hps as [|p ps (evs & t & d & H) _ (evs' & ts & d' & Hl)]; eauto with tp. }
    destruct (join_all_total ts k Hk) as (evs' & t & d' & Hj). eauto with tp.
Qed.

(** ** Between macrotasks every thread is quiescent *)

Lemma settle_quiet_all :
  (forall p evs t d, settle p evs t d -> quiet t /\ Forall quiet d) /\
  (forall ps evs ts d, settle_list ps evs ts d -> Forall quiet ts /\ Forall quiet d) /\
  (forall ts k evs t d, join_all ts k evs t d -> Forall quiet ts -> quiet t /\ Forall quiet d).
Proof.
  apply settle_comb.
  1-3: split; constructor.
  - intros l a k evs t d _ IH. exact IH.
  - intros k u evs t d _ IH. exact IH.
  - intros ps k evs ts d evs' t d' _ [Hts Hd] _ IHj. destruct (IHj Hts) as [Ht Hd'].
    split; [done|by apply Forall_app_2].
  - split; constructor.
  - intros p ps evs t d evs' ts d' _ [Ht Hd] _ [Hts Hd']. split; [by constructor|by apply Forall_app_2].
  - intros ts k i e evs t d _ _ IH Hts. destruct IH as [Ht Hd].
    split; [done|apply Forall_app_2; [by apply Forall_delete|done]].
  - intros ts k vs evs t d _ _ _ IH _. exact IH.
  - intros ts k Hf Ha Hts. split; [by constructor|constructor].
Qed.
Lemma settle_quiet p evs t d : settle p evs t d -> quiet t /\ Forall quiet d.
Proof. apply settle_quiet_all. Qed.

Lemma join_all_quiet ts k evs t d :
  join_all ts k evs t d -> Forall quiet ts -> quiet t /\ Forall quiet d.
Proof. apply settle_quiet_all. Qed.

Lemma deliver_quiet t o r evs t' d : deliver t o r evs t' d -> quiet t -> quiet t' /\ Forall quiet d.
Proof.
  induction 1 as [o k r evs t d Hs|ts k i u o r evs u' d evs' t d' Hi _ IH Hj]; intros Hq.
  - by apply settle_quiet in Hs.
  - inversion Hq as [| | |? ? Hts _ _]; subst.
    destruct (IH (Forall_lookup_1 _ _ _ _ Hts Hi)) as [Hu Hd].
    destruct (join_all_quiet _ _ _ _ _ Hj) as [Ht Hd']; [by apply Forall_insert|].
    split; [done|by apply Forall_app_2].
Qed.

Lemma estep_quiet s evs s' : quiet_sys s -> estep s evs s' -> quiet_sys s'.
Proof.
  intros [Hf Hb]. destruct 1 as [t o r evs t' d b Hd|t b i u o r evs u' d Hi Hd]; simpl in *.
  - apply deliver_quiet in Hd as [? ?]; [|done]. split; [done|by apply Forall_app_2].
  - apply deliver_quiet in Hd as [? ?]; [|by eapply Forall_lookup_1].
    split; [done|]. apply Forall_app_2; [by apply Forall_insert|done].
Qed.

Lemma ereach_quiet p tr s : ereach p tr s -> quiet_sys s.
Proof.
  induction 1 as [evs t d Hs|tr s evs s' _ IH Hst]; [by apply settle_quiet in Hs|by eapply estep_quiet].
Qed.

(** ** Progress and termination of the loop *)

Lemma thread_done_dec t : {thread_done t} + {~ thread_done t}.
Proof. destruct t as [[]|]; simpl; auto. Qed.

(** A [Promise.all] that waits has an element that waits. *)
Lemma waiting_child ts :
  first_throw ts = None -> all_returned ts = None -> exists i u, ts !! i = Some u /\ ~ thread_done u.
Proof.
  induction ts as [|t ts IH]; simpl; [done|].
  destruct t as [[v|e| | | |]|]; [| |intros _ _; eexists 0%nat, _; split; [reflexivity|simpl; tauto]..].
  - destruct (first_throw ts), (all_returned ts); simpl; try done.
    intros _ _. destruct IH as (i & u & Hi & Hu); [done..|]. by exists (S i), u.
  - done.
Qed.

(** A quiescent thread that has not settled has an operation in flight,
    and the loop can handle any settlement of it. *)
Lemma deliver_exists t :
  quiet t -> ~ thread_done t -> exists o, forall r, exists evs t' d, deliver t o r evs t' d.
Proof.
  induction t as [p|ts k IH] using thread_ind'; intros Hq Hd.
  - inversion Hq as [o k| | |]; subst; [|exfalso; by apply Hd..].
    exists o. intros r. destruct (settle_total (k r)) as (evs & t & d & H). eauto with tp.
  - inversion Hq as [| | |? ? Hts Hf Ha]; subst.
    destruct (waiting_child ts Hf Ha) as (i & u & Hi & Hu).
    destruct (Forall_lookup_1 _ _ _ _ IH Hi (Forall_lookup_1 _ _ _ _ Hts Hi) Hu) as [o Ho].
    exists o. intros r. destruct (Ho r) as (evs & u' & d & Hdv).
    destruct (join_all_total (<[i:=u']> ts) k (fun r => settle_total (k r))) as (evs' & t & d' & Hj).
    eauto with tp.
Qed.

(** Between macrotasks, a run has settled or can take a macrotask. *)
Lemma estep_progress s : quiet_sys s -> sys_done s \/ exists evs s', estep s evs s'.
Proof.
  destruct s as [t b]. intros [Ht Hb]; simpl in *.
  destruct (thread_done_dec t) as [Hdt|Hdt].
  - assert (Forall (fun u => thread_done u \/ (quiet u /\ ~ thread_done u)) b) as Hb'.
    { eapply Forall_impl; [exact Hb|]. intros u Hu. destruct (thread_done_dec u); auto. }
    destruct (Forall_or_lookup _ _ _ Hb') as [Hall|(i & u & Hi & Hu & Hnd)]; [left; by split|right].
    destruct (deliver_exists u Hu Hnd) as [o Ho]. destruct (Ho (Normal JUndef)) as (evs & u' & d & H).
    do 2 eexists. by eapply es_bg.
  - right. destruct (deliver_exists t Ht Hdt) as [o Ho].
    destruct (Ho (Normal JUndef)) as (evs & t' & d & H). do 2 eexists. by apply es_fg.
Qed.

Lemma sbound_le n m s : sbound n s -> (n <= m)%nat -> sbound m s.
Proof. intros (n0 & nb & ? & ? & ?) ?. exists n0, nb. split_and!; [done|done|lia]. Qed.

Lemma srun_sbound s tr s' n : srun s tr s' -> sbound n s -> exists n', (n' <= n)%nat /\ sbound n' s'.
Proof.
  intros H. revert n. induction H as [s|s ev s1 tr s2 Hs _ IH]; intros n Hb; [exists n; split; [lia|done]|].
  destruct (sbound_step _ _ _ _ Hb Hs) as (n1 & Hlt & Hb1).
  destruct (IH _ Hb1) as (n2 & Hle & Hb2). exists n2. split; [lia|done].
Qed.

Lemma sreach_sbound s0 tr s n : sreach s0 tr s -> sbound n s0 -> sbound n s.
Proof.
  induction 1 as [|tr s ev s' _ IH Hs]; intros Hb; [done|].
  destruct (sbound_step _ _ _ _ (IH Hb) Hs) as (n' & ? & ?). eauto using sbound_le with lia.
Qed.

Lemma efinishes_mono n m s : efinishes n s -> (n <= m)%nat -> efinishes m s.
Proof.
  intros H. revert m. induction H as [n s Hd|n s Hex Hs IH]; intros m Hm; [by constructor|].
  destruct m as [|m]; [lia|]. constructor; [done|]. intros evs s' Hst. apply (IH evs s' Hst). lia.
Qed.

(** A macrotask takes at least one interleaving step, so a bound on the
    interleaving steps bounds the macrotasks. *)
Lemma estep_sbound s evs s' n : estep s evs s' -> sbound n s -> exists n', (n' < n)%nat /\ sbound n' s'.
Proof.
  intros Hs Hb. assert (evs <> []) as Hne by (destruct Hs; discriminate).
  pose proof (estep_srun _ _ _ Hs) as Hr.
  inversion Hr as [|s0 ev s1 tr s2 Hst Hr' E1 E2 E3]; subst; [done|].
  - destruct (sbound_step _ _ _ _ Hb Hst) as (n1 & Hlt & Hb1).
    destruct (srun_sbound _ _ _ _ Hr' Hb1) as (n2 & Hle & Hb2). exists n2. split; [lia|done].
Qed.

Lemma sbound_efinishes n s : quiet_sys s -> sbound n s -> efinishes n s.
Proof.
  revert s. induction n as [n IH] using lt_wf_ind. intros s Hq Hb.
  destruct (estep_progress s Hq) as [Hd|(evs & s' & Hs)]; [by constructor|].
  destruct (estep_sbound _ _ _ _ Hs Hb) as (n' & Hlt & _).
  destruct n as [|n]; [lia|]. constructor; [eauto|].
  intros evs' s'' Hs'. destruct (estep_sbound _ _ _ _ Hs' Hb) as (n'' & Hlt' & Hb').
  apply (efinishes_mono n''); [apply IH; [lia|by eapply estep_quiet|done]|lia].
Qed.
(** ** The first macrotask of a call *)

(** [settle_inv] inverts the synchronous run of a concrete program. *)
Ltac settle_inv :=
  repeat match goal with
  | H : first_throw _ = Some _ |- _ => simpl in H; discriminate
  | H : all_returned _ = Some _ |- _ => simpl in H; discriminate
  | H : settle (Log _ _ _) _ _ _ |- _ => inversion H; subst; clear H
  | H : settle (Await _ _) _ _ _ |- _ => inversion H; subst; clear H
  | H : settle (Throw _) _ _ _ |- _ => inversion H; subst; clear H
  | H : settle (Ret _) _ _ _ |- _ => inversion H; subst; clear H
  | H : settle (All _ _) _ _ _ |- _ => inversion H; subst; clear H
  | H : settle_list (_ :: _) _ _ _ |- _ => inversion H; subst; clear H
  | H : settle_list [] _ _ _ |- _ => inversion H; subst; clear H
  | H : join_all (_ :: _) _ _ _ _ |- _ => inversion H; subst; clear H
  end.

(** The logs of the first macrotask after a successful connection: the
    three request functions run in array order up to their posts. *)
Definition first_task_logs : list event :=
  [EvLog LogInfo [LStr (js "inside")]; EvLog LogInfo (attempt_log 0);
   EvLog LogInfo (attempt_log 0); EvLog LogInfo (attempt_log 0)].

Lemma plan_first_task api_key input tr s :
  ereach (generateFullTravelPlan api_key input) tr s ->
  (tr = [] /\ s = Sys (TRun (generateFullTravelPlan api_key input)) []) \/
  (exists e rest, tr = [EvCall OpConnect (Abrupt e); EvLog LogError (catch_log e)] ++ rest) \/
  (exists v rest, tr = EvCall OpConnect (Normal v) :: first_task_logs ++ rest).
Proof.
  induction 1 as [evs t d Hs|tr s evs s' _ IH Hst].
  - left. unfold generateFullTravelPlan in *. settle_inv. auto.
  - destruct IH as [[-> ->]|[(e & rest & ->)|(v & rest & ->)]].
    + right. inversion Hst as [t o r evs' t' d b Hd|t b i u o r evs' u' d Hi Hd]; subst; [|done].
      unfold generateFullTravelPlan in Hd. inversion Hd; subst. destruct r as [v|e]; simpl in *.
      * right. unfold plan_branches, generateItinerary, getBestEateries, getFaqs, fetchData in *.
        simpl in *. settle_inv. exists v, []. reflexivity.
      * left. unfold plan_catch in *. settle_inv. exists e, []. reflexivity.
    + right; left. exists e, (rest ++ evs). by rewrite <- app_assoc.
    + right; right. exists v, (rest ++ evs). by rewrite <- app_comm_cons, <- app_assoc.
Qed.

(** The macrotask of a successful connection ends with the four
    operations of the [Promise.all] in flight, in array order. *)
Lemma plan_first_task_state api_key input v evs s :
  estep (Sys (TRun (generateFullTravelPlan api_key input)) []) (EvCall OpConnect (Normal v) :: evs) s ->
  evs = first_task_logs /\
  exists k0 k1 k2 k3,
    s = Sys (TAll [TRun (Await (branch_op api_key input 0) k0); TRun (Await (branch_op api_key input 1) k1);
                   TRun (Await (branch_op api_key input 2) k2); TRun (Await (branch_op api_key input 3) k3)]
                  (after_all input)) [].
Proof.
  intros Hst. inversion Hst as [t o r evs' t' d b Hd|t b i u o r evs' u' d Hi Hd]; subst; [|done].
  unfold generateFullTravelPlan in Hd. inversion Hd; subst. simpl in *.
  unfold plan_branches, generateItinerary, getBestEateries, getFaqs, fetchData in *.
  simpl in *. settle_inv. split; [reflexivity|]. by do 4 eexists.
Qed.

(** ** Concrete runs of the loop *)

(** [settle_run] builds the synchronous run of a concrete program. *)
Ltac settle_run :=
  repeat first
    [ apply se_ret | apply se_throw | apply se_await | apply se_log | eapply se_all
    | apply sl_nil | eapply sl_cons
    | eapply ja_wait; reflexivity
    | eapply ja_reject; [reflexivity|]
    | eapply ja_resolve; [reflexivity|reflexivity|] ].

(** The start of a call: it waits for [dbConnect()]. *)
Lemma el_start api_key input :
  ereach (generateFullTravelPlan api_key input) [] (Sys (TRun (generateFullTravelPlan api_key input)) []).
Proof. apply (er_start _ [] _ []). apply se_await. Qed.

(** A run under the loop past its first macrotask: the connection
    resolved and the four operations are in flight. *)
Lemma el_first_task :
  exists tr s, ereach (generateFullTravelPlan JUndef sample_form) tr s /\
               tr = EvCall OpConnect (Normal JUndef) :: first_task_logs.
Proof.
  eexists _, _. split.
  - eapply er_step; [apply el_start|]. apply es_fg, (dv_await _ _ (Normal JUndef)). settle_run.
  - reflexivity.
Qed.
(** ** Theorems *)

(** Under the event loop, a call of [generateFullTravelPlan] never
    gets stuck: from every state of its runs, until the call and every
    branch left by a rejected [Promise.all] have settled, some operation
    is in flight and any settlement of it can be handled, and every run
    settles within 35 macrotasks. *)
Theorem plan_event_loop_finishes api_key input tr s :
  ereach (generateFullTravelPlan api_key input) tr s -> efinishes 35 s.
Proof.
  intros H. apply sbound_efinishes; [by eapply ereach_quiet|].
  eapply sreach_sbound; [by apply ereach_sreach|apply plan_sbound].
Qed.

(** C25: under the event loop the order of the start of a call is fixed.
    Its first macrotask settles [dbConnect()]. When the connection fails,
    the [catch] block logs first. When it succeeds, the same macrotask
    runs [generateItinerary], [getBestEateries] and [getFaqs] in array
    order up to their posts, logging ["inside"] and then ["Attempt 1"]
    three times, and ends with the four operations of the [Promise.all]
    in flight: no answer is handled before all four requests are sent.
    The interleaving semantics allows other orders. *)
Theorem plan_event_loop_first_task api_key input tr s :
  ereach (generateFullTravelPlan api_key input) tr s ->
  tr = [] \/
  (exists e rest, tr = [EvCall OpConnect (Abrupt e); EvLog LogError (catch_log e)] ++ rest) \/
  (exists v rest, tr = EvCall OpConnect (Normal v) :: first_task_logs ++ rest /\
     forall evs s1, estep (Sys (TRun (generateFullTravelPlan api_key input)) [])
                          (EvCall OpConnect (Normal v) :: evs) s1 ->
     evs = first_task_logs /\
     exists k0 k1 k2 k3,
       s1 = Sys (TAll [TRun (Await (branch_op api_key input 0) k0); TRun (Await (branch_op api_key input 1) k1);
                       TRun (Await (branch_op api_key input 2) k2); TRun (Await (branch_op api_key input 3) k3)]
                      (after_all input)) []).
Proof.
  intros H. destruct (plan_first_task _ _ _ _ H) as [[-> _]|[?|(v & rest & ->)]]; [by left|by right; left|].
  right; right. exists v, rest. split; [done|]. intros evs s1. apply plan_first_task_state.
Qed.

(** C26: the early rejection of [Promise.all] also happens under the
    schedule Node.js follows. When the eateries request fails three times,
    the call throws the generic error while the other three requests,
    issued in the first macrotask, are still in flight. When one of them
    fails afterwards, its branch logs ["Attempt 2"] and posts again, for
    a caller that has already received the error. *)
Theorem plan_event_loop_rejects_early :
  exists tr b, ereach (generateFullTravelPlan JUndef sample_form) tr (Sys (TRun (Throw generic_error)) b) /\
    length b = 3%nat /\ Forall (fun t => ~ thread_done t) b /\
    exists evs s', estep (Sys (TRun (Throw generic_error)) b) evs s' /\
                   EvLog LogInfo (attempt_log 1) ∈ evs.
Proof.
  eexists _, _. split.
  { eapply er_step; [eapply er_step; [eapply er_step; [eapply er_step; [apply el_start|]|]|]|].
    - apply es_fg, (dv_await _ _ (Normal JUndef)). settle_run.
    - apply es_fg. eapply (dv_child _ _ 1); [reflexivity|apply (dv_await _ _ (Abrupt network_error))|];
        settle_run.
    - apply es_fg. eapply (dv_child _ _ 1); [reflexivity|apply (dv_await _ _ (Abrupt network_error))|];
        settle_run.
    - apply es_fg. eapply (dv_child _ _ 1); [reflexivity|apply (dv_await _ _ (Abrupt network_error))|];
        settle_run. }
  split_and!; [reflexivity|repeat constructor; simpl; tauto|].
  eexists _, _. split.
  - eapply (es_bg _ _ 0); [reflexivity|]. apply (dv_await _ _ (Abrupt network_error)). settle_run.
  - simpl. do 2 apply list_elem_of_further. apply list_elem_of_here.
Qed.

(** Witness of C25: the run past the first macrotask of a call on the
    sample form. *)
Lemma plan_event_loop_first_task_witness :
  exists tr s, ereach (generateFullTravelPlan JUndef sample_form) tr s /\ tr <> [] /\
  (tr = [] \/
   (exists e rest, tr = [EvCall OpConnect (Abrupt e); EvLog LogError (catch_log e)] ++ rest) \/
   (exists v rest, tr = EvCall OpConnect (Normal v) :: first_task_logs ++ rest /\
      forall evs s1, estep (Sys (TRun (generateFullTravelPlan JUndef sample_form)) [])
                           (EvCall OpConnect (Normal v) :: evs) s1 ->
      evs = first_task_logs /\
      exists k0 k1 k2 k3,
        s1 = Sys (TAll [TRun (Await (branch_op JUndef sample_form 0) k0);
                        TRun (Await (branch_op JUndef sample_form 1) k1);
                        TRun (Await (branch_op JUndef sample_form 2) k2);
                        TRun (Await (branch_op JUndef sample_form 3) k3)]
                       (after_all sample_form)) [])).
Proof.
  destruct el_first_task as (tr & s & H & Htr). exists tr, s.
  split_and!; [done|by rewrite Htr|exact (plan_event_loop_first_task _ _ _ _ H)].
Defined.

