(* ===== verification/Env.v ===== *)
(** * The environment configuration: [process.env.HYPERLEAP_API_KEY]

    The three request functions build their [headers] object with
    ["x-hl-api-key": process.env.HYPERLEAP_API_KEY!] (lines 75, 106 and
    135). [process.env] is modelled as a finite map from variable names to
    strings, [process_env], and the read as [hyperleap_api_key]: the string
    when the variable is set, [undefined] when it is not. The [!] of
    TypeScript is erased at compile time and checks nothing. The call
    never writes [process.env], so the three reads of one call see the
    same value, the parameter [api_key] of [Requests] and [Orchestrator].

    [prompt_post_of] is the contract of every operation of the call: a
    post is one of the three prompt requests of the input, with the
    headers built from the key. [plan_prog_ops] shows that the program of
    [generateFullTravelPlan] keeps it, in every branch and continuation,
    and [Concurrency.sreach_calls] carries it to every call of every run,
    under every interleaving, including the retries of branches left in
    the background after a rejection. *)

From stdpp Require Import strings gmap.
From S2P Require Import Prelude JsString JsValue Payload Attempt Async FetchData Requests Concurrency Orchestrator.

(** ** The environment *)

Definition process_env := gmap string string.

(** [process.env.HYPERLEAP_API_KEY!] *)
Definition hyperleap_api_key (env : process_env) : jsval :=
  match env !! "HYPERLEAP_API_KEY"%string with
  | Some v => JStr (js v)
  | None => JUndef
  end.

(** The operations the call may await: a post is one of the three prompt
    requests of [input], sent with the key [api_key]. *)
Definition prompt_post_of (api_key : jsval) (input : TravelFormSchema) (o : op) : Prop :=
  match o with
  | OpPost _ _ _ =>
      exists pid, pid ∈ [itinerary_promptid; eateries_promptid; faqs_promptid] /\
                  o = prompt_post api_key input pid
  | _ => True
  end.

(** ** Lemmas *)

Lemma prompt_request_prog_ops api_key input p pid :
  (p, pid) ∈ prompt_requests api_key input -> prog_ops (prompt_post_of api_key input) p.
Proof.
  intros Hin. eapply only_ops_prog_ops; [by apply prompt_request_only_ops|].
  intros o <-. exists pid. split; [|done].
  unfold prompt_requests in Hin. set_solver.
Qed.

Lemma plan_catch_prog_ops P e : prog_ops P (plan_catch e).
Proof. repeat constructor. Qed.

#[local] Hint Resolve plan_catch_prog_ops : tp.

Lemma after_all_prog_ops api_key input r : prog_ops (prompt_post_of api_key input) (after_all input r).
Proof.
  destruct r as [results|e]; simpl; [|auto with tp].
  constructor. intros u. unfold after_uuid.
  destruct (assemble _ _ _ _ _ _); [|auto with tp].
  constructor; [done|]. intros []; simpl; [repeat constructor|auto with tp].
Qed.

(** The whole program of the call keeps the contract. *)
Lemma plan_prog_ops api_key input :
  prog_ops (prompt_post_of api_key input) (generateFullTravelPlan api_key input).
Proof.
  constructor; [done|]. intros [v|e]; simpl; [|auto with tp].
  constructor; [|apply after_all_prog_ops].
  do 3 (constructor; [eapply prompt_request_prog_ops; unfold prompt_requests;
                      apply list_elem_of_In; simpl; eauto|]).
  repeat constructor. intros []; constructor.
Qed.

(** Every call of every run keeps the contract. *)
Lemma plan_calls_contract api_key input tr s :
  sreach (start (generateFullTravelPlan api_key input)) tr s ->
  forall o, o ∈ calls tr -> prompt_post_of api_key input o.
Proof.
  intros Hr. apply Forall_forall.
  exact (proj2 (sreach_calls _ _ _ _ (plan_prog_ops _ input) Hr)).
Qed.

(** A run of the call that reaches the first post of the itinerary
    request: the database connects and the first branch logs and posts. *)
Lemma first_post_run api_key input :
  exists tr s, sreach (start (generateFullTravelPlan api_key input)) tr s /\
               prompt_post api_key input itinerary_promptid ∈ calls tr.
Proof.
  eexists _, _. split.
  - apply sreach_srun.
    fg_step_with (Normal JUndef : jsresult jsval).
    eapply srun_step; [apply ss_fg, ts_all_start|].
    child_logs 0%nat. child_step_with 0%nat (Normal JNull : jsresult jsval).
    apply srun_refl.
  - simpl. set_solver.
Qed.

(** The header object with the key of the environment. *)
Lemma request_headers_key api_key : get_prop (request_headers api_key) (js "x-hl-api-key") = api_key.
Proof. reflexivity. Qed.

(** ** Theorems *)

(** C27: in every run of [generateFullTravelPlan], under every
    interleaving of its branches and every answer of its collaborators,
    including the retries of branches left running after a rejection,
    every post goes to the prompt endpoint, carries the replacements of
    the input under one of the three prompt ids, and sends the headers
    built from [process.env.HYPERLEAP_API_KEY]. *)
Theorem plan_posts_use_env_key env input tr s url data headers :
  sreach (start (generateFullTravelPlan (hyperleap_api_key env) input)) tr s ->
  OpPost url data headers ∈ calls tr ->
  url = prompts_url /\ headers = request_headers (hyperleap_api_key env) /\
  exists pid, pid ∈ [itinerary_promptid; eateries_promptid; faqs_promptid] /\
              data = request_data input pid.
Proof.
  intros Hr Hin. destruct (plan_calls_contract _ _ _ _ Hr _ Hin) as (pid & Hpid & Heq).
  injection Heq as -> -> ->. eauto.
Qed.

(** C28: the non-null assertion [!] checks nothing at run time. When
    [HYPERLEAP_API_KEY] is not set, every post of every run of the call
    sends the header ["x-hl-api-key"] with the value [undefined], and the
    call does not fail before posting: some run reaches a post. *)
Theorem plan_posts_without_key env input :
  env !! "HYPERLEAP_API_KEY"%string = None ->
  (forall tr s url data headers,
     sreach (start (generateFullTravelPlan (hyperleap_api_key env) input)) tr s ->
     OpPost url data headers ∈ calls tr -> get_prop headers (js "x-hl-api-key") = JUndef) /\
  exists tr s, sreach (start (generateFullTravelPlan (hyperleap_api_key env) input)) tr s /\
               exists url data headers, OpPost url data headers ∈ calls tr.
Proof.
  intros Hnone. split.
  - intros tr s url data headers Hr Hin.
    destruct (plan_calls_contract _ _ _ _ Hr _ Hin) as (pid & _ & Heq). injection Heq as _ _ ->.
    by rewrite request_headers_key; unfold hyperleap_api_key; rewrite Hnone.
  - destruct (first_post_run (hyperleap_api_key env) input) as (tr & s & Hr & Hin).
    exists tr, s. split; [done|]. eauto.
Qed.

(** ** Witnesses *)

(** An environment where the key is set. *)
Definition key_env : process_env := {[ "HYPERLEAP_API_KEY"%string := "k-1"%string ]}.

(** Witness of C27: with the key set to ["k-1"], the first post of the
    itinerary request sends it. *)
Lemma plan_posts_use_env_key_witness :
  hyperleap_api_key key_env = JStr (js "k-1") /\
  exists tr url data headers, OpPost url data headers ∈ calls tr /\
    url = prompts_url /\ headers = request_headers (hyperleap_api_key key_env) /\
    exists pid, pid ∈ [itinerary_promptid; eateries_promptid; faqs_promptid] /\
                data = request_data sample_form pid.
Proof.
  split; [reflexivity|].
  destruct (first_post_run (hyperleap_api_key key_env) sample_form) as (tr & s & Hr & Hin).
  exists tr, prompts_url, (request_data sample_form itinerary_promptid),
    (request_headers (hyperleap_api_key key_env)). split; [exact Hin|].
  exact (plan_posts_use_env_key _ _ _ _ _ _ _ Hr Hin).
Defined.

(** Witness of C28: the empty environment. *)
Lemma plan_posts_without_key_witness :
  (∅ : process_env) !! "HYPERLEAP_API_KEY"%string = None /\
  ((forall tr s url data headers,
     sreach (start (generateFullTravelPlan (hyperleap_api_key ∅) sample_form)) tr s ->
     OpPost url data headers ∈ calls tr -> get_prop headers (js "x-hl-api-key") = JUndef) /\
   exists tr s, sreach (start (generateFullTravelPlan (hyperleap_api_key ∅) sample_form)) tr s /\
                exists url data headers, OpPost url data headers ∈ calls tr).
Proof. split; [reflexivity|]. apply (plan_posts_without_key ∅ sample_form). reflexivity. Defined.
