(* ===== verification/Budget.v ===== *)
(** * How many times a run calls an operation

    [pbudget Q n p] says that every run of the program [p] calls at most
    [n] operations satisfying [Q], counting the calls of its
    [Promise.all] children; [tbudget] is the same for a thread, whose
    budget is split between its children and its continuation, and
    [sbudget] for a system, foreground and background together. A step
    moves the budget: the calls it makes plus the budget left never
    exceed the budget before ([tstep_budget], [sstep_budget]). So the
    budget of a program bounds the calls of every run of it, under every
    interleaving and including the branches a rejected [Promise.all]
    leaves running ([sreach_budget]).

    The budget of [generateFullTravelPlan] is read off its code: three
    posts per prompt request ([fetch_loop] on [3 - attempt] iterations),
    one [dbConnect], one [getPopularDestinations]. *)

From S2P Require Import Prelude JsString JsValue Payload Attempt Async FetchData Requests Concurrency Orchestrator Liveness.

Section Budget.
Context (Q : op -> Prop) `{!forall o, Decision (Q o)}.

(** The calls of a trace that satisfy [Q]. *)
Definition count (tr : list event) : nat := length (filter Q (calls tr)).

Definition cnt (o : op) : nat := if decide (Q o) then 1 else 0.

#[warnings="-register-all"]
Inductive pbudget : nat -> prog -> Prop :=
| pbu_ret N v : pbudget N (Ret v)
| pbu_throw N e : pbudget N (Throw e)
| pbu_log N l a k : pbudget N k -> pbudget N (Log l a k)
| pbu_uuid N k : (forall u, pbudget N (k u)) -> pbudget N (Uuid k)
| pbu_await N n o k : (forall r, pbudget n (k r)) -> (cnt o + n <= N)%nat -> pbudget N (Await o k)
| pbu_all N ns m ps k :
    Forall2 pbudget ns ps -> (forall r, pbudget m (k r)) -> (sum_list ns + m <= N)%nat ->
    pbudget N (All ps k).

#[warnings="-register-all"]
Inductive tbudget : nat -> thread -> Prop :=
| tb_run N p : pbudget N p -> tbudget N (TRun p)
| tb_all N ns m ts k :
    Forall2 tbudget ns ts -> (forall r, pbudget m (k r)) -> (sum_list ns + m <= N)%nat ->
    tbudget N (TAll ts k).

Definition sbudget (N : nat) (s : sys) : Prop :=
  exists nf nb, tbudget nf (fg s) /\ Forall2 tbudget nb (bg s) /\ (nf + sum_list nb <= N)%nat.

(** ** Lemmas *)

Lemma count_app tr1 tr2 : count (tr1 ++ tr2) = (count tr1 + count tr2)%nat.
Proof. unfold count. by rewrite calls_app, filter_app, length_app. Qed.

Lemma count_call o r : count [EvCall o r] = cnt o.
Proof. unfold count, cnt. simpl. rewrite filter_cons. by case_decide. Qed.

Lemma pbudget_mono N N' p : pbudget N p -> (N <= N')%nat -> pbudget N' p.
Proof.
  intros Hb. revert N'. induction Hb as [| | |N k _ IH|N n o k Hk _ Hle0|N ns m ps k Hps Hk _ Hle0];
    intros N' Hle.
  - apply pbu_ret.
  - apply pbu_throw.
  - apply pbu_log. eauto.
  - apply pbu_uuid. eauto.
  - apply (pbu_await _ n); [done|lia].
  - apply (pbu_all _ ns m); [done|done|lia].
Qed.

(** One step of a thread spends at most its budget. *)
Lemma tstep_budget N t ev t' d :
  tbudget N t -> tstep t ev t' d ->
  exists N' nd, tbudget N' t' /\ Forall2 tbudget nd d /\
                (count (opt_event ev) + N' + sum_list nd <= N)%nat.
Proof.
  intros Ht Hs. revert N Ht.
  induction Hs as [p ev p' Hps|ps k|ts k i t ev t' d Hi _ IH|ts k vs _|ts k i e Hi];
    intros N Ht; inversion Ht as [? ? Hp|? ns m ? ? Hts Hk Hle]; subst.
  - destruct Hps; inversion Hp; subst.
    + exists N, []. split_and!; [by constructor|done|simpl; lia].
    + exists N, []. split_and!; [by constructor|done|simpl; lia].
    + exists n, []. unfold opt_event; rewrite count_call. split_and!; [by constructor|done|simpl; lia].
  - inversion Hp as [| | | |? ns m ? ? Hps Hk Hle|]; subst.
    exists N, []. split_and!; [|done|simpl; lia].
    apply (tb_all _ ns m); [|done|done]. apply Forall2_fmap_r.
    eapply Forall2_impl; [done|]. intros; by constructor.
  - destruct (Forall2_lookup_r _ _ _ _ _ Hts Hi) as (y & Hy & Hty).
    destruct (IH _ Hty) as (N' & nd & Ht' & Hd & HN).
    pose proof (sum_list_insert ns i N' y Hy).
    exists (sum_list (<[i:=N']> ns) + m)%nat, nd. split_and!; [|done|lia].
    apply (tb_all _ (<[i:=N']> ns) m); [by apply Forall2_insert|done|lia].
  - exists m, []. split_and!; [by constructor|done|simpl; lia].
  - exists m, (delete i ns). split_and!; [by constructor|by apply Forall2_delete|].
    pose proof (sum_list_delete ns i). simpl. lia.
Qed.

Lemma sstep_budget N s ev s' :
  sbudget N s -> sstep s ev s' -> exists N', sbudget N' s' /\ (count (opt_event ev) + N' <= N)%nat.
Proof.
  intros (nf & nb & Hf & Hb & Hle) Hs.
  destruct Hs as [t ev t' d b Ht|t b i u ev u' d Hi Hu]; simpl in *.
  - destruct (tstep_budget _ _ _ _ _ Hf Ht) as (N' & nd & Ht' & Hd & HN).
    exists (N' + sum_list (nb ++ nd))%nat. split; [exists N', (nb ++ nd); split_and!; [done|by apply Forall2_app|lia]|].
    rewrite sum_list_with_app. lia.
  - destruct (Forall2_lookup_r _ _ _ _ _ Hb Hi) as (y & Hy & Huy).
    destruct (tstep_budget _ _ _ _ _ Huy Hu) as (N' & nd & Hu' & Hd & HN).
    pose proof (sum_list_insert nb i N' y Hy).
    exists (nf + sum_list (<[i:=N']> nb ++ nd))%nat.
    split; [exists nf, (<[i:=N']> nb ++ nd); split_and!; [done|apply Forall2_app; [by apply Forall2_insert|done]|lia]|].
    rewrite sum_list_with_app. lia.
Qed.

(** The budget of a program bounds the calls of every run of it. *)
Lemma sreach_budget N p tr s : pbudget N p -> sreach (start p) tr s -> (count tr <= N)%nat.
Proof.
  intros Hp Hr. cut (exists N', sbudget N' s /\ (count tr + N' <= N)%nat); [intros (? & _ & ?); lia|].
  induction Hr as [|tr s ev s' _ IH Hs].
  - exists N. split; [exists N, []; split_and!; [by constructor|done|simpl; lia]|done].
  - destruct IH as (N1 & Hs1 & Hle1). destruct (sstep_budget _ _ _ _ Hs1 Hs) as (N2 & Hs2 & Hle2).
    exists N2. split; [done|]. rewrite count_app. lia.
Qed.

(** ** The budget of the code *)

(** The loop of [fetchData] posts at most once per iteration left. *)
Lemma fetch_loop_budget rem att url data headers :
  pbudget (if decide (Q (OpPost url data headers)) then rem else 0)
    (fetch_loop rem att url data headers).
Proof.
  revert att. induction rem as [|rem IH]; intros att; simpl; [constructor|].
  apply pbu_log, (pbu_await _ (if decide (Q (OpPost url data headers)) then rem else 0));
    [|unfold cnt; case_decide; lia].
  intros a. destruct (attempt_outcome a); [constructor|].
  apply pbu_log. destruct (Nat.eqb att 2); [constructor|apply IH].
Qed.

Lemma plan_catch_budget N e : pbudget N (plan_catch e).
Proof. repeat constructor. Qed.

Section Plan.
Context (HQc : forall plan, ~ Q (OpCreate plan)).

Lemma cnt_create plan : cnt (OpCreate plan) = 0%nat.
Proof using HQc. unfold cnt. by rewrite decide_False by apply HQc. Qed.

(** What follows [Promise.all] calls no operation of [Q]. *)
Lemma after_all_budget input r : pbudget 0 (after_all input r).
Proof using HQc.
  destruct r as [results|e]; simpl; [|apply plan_catch_budget].
  constructor. intros u. unfold after_uuid. destruct (assemble _ _ _ _ _ _); [|apply plan_catch_budget].
  apply (pbu_await _ 0); [|rewrite cnt_create; lia].
  intros []; simpl; [repeat constructor|apply plan_catch_budget].
Qed.

(** Three posts for each prompt request, one [dbConnect], one
    [getPopularDestinations]. *)
Definition request_budget (api_key : jsval) (input : TravelFormSchema) (pid : jsstr) : nat :=
  if decide (Q (prompt_post api_key input pid)) then 3 else 0.

Lemma plan_budget api_key input :
  pbudget (cnt OpConnect + (request_budget api_key input itinerary_promptid +
             request_budget api_key input eateries_promptid +
             request_budget api_key input faqs_promptid + cnt (OpPopular (destination input))))
    (generateFullTravelPlan api_key input).
Proof using HQc.
  apply (pbu_await _ (request_budget api_key input itinerary_promptid +
             request_budget api_key input eateries_promptid +
             request_budget api_key input faqs_promptid + cnt (OpPopular (destination input)))); [|lia].
  intros [v|e]; simpl; [|apply plan_catch_budget].
  apply (pbu_all _ [request_budget api_key input itinerary_promptid;
                   request_budget api_key input eateries_promptid;
                   request_budget api_key input faqs_promptid;
                   cnt (OpPopular (destination input))] 0); [|apply after_all_budget|simpl; lia].
  constructor; [apply pbu_log, fetch_loop_budget|].
  do 2 (constructor; [apply fetch_loop_budget|]).
  constructor; [apply (pbu_await _ 0); [intros []; constructor|lia]|constructor].
Qed.

(** The calls of [Q] in every run of the call. *)
Lemma plan_count api_key input tr s :
  sreach (start (generateFullTravelPlan api_key input)) tr s ->
  (count tr <= cnt OpConnect + (request_budget api_key input itinerary_promptid +
     request_budget api_key input eateries_promptid +
     request_budget api_key input faqs_promptid + cnt (OpPopular (destination input))))%nat.
Proof using HQc. apply sreach_budget, plan_budget. Qed.
End Plan.
End Budget.

(** ** The bounds of a call *)

Definition is_post (o : op) : bool := match o with OpPost _ _ _ => true | _ => false end.

Lemma prompt_post_inj api_key input pid pid' :
  prompt_post api_key input pid = prompt_post api_key input pid' -> pid = pid'.
Proof. unfold prompt_post, request_data. by intros [= ->]. Qed.

Lemma prompt_ids_distinct :
  itinerary_promptid <> eateries_promptid /\ itinerary_promptid <> faqs_promptid /\
  eateries_promptid <> faqs_promptid.
Proof. split_and!; intros H; vm_compute in H; congruence. Qed.

(** At most one of the three requests posts a given prompt. *)
Lemma request_budgets_le api_key input pid :
  (request_budget (fun o => o = prompt_post api_key input pid) api_key input itinerary_promptid +
   request_budget (fun o => o = prompt_post api_key input pid) api_key input eateries_promptid +
   request_budget (fun o => o = prompt_post api_key input pid) api_key input faqs_promptid <= 3)%nat.
Proof.
  destruct prompt_ids_distinct as (H1 & H2 & H3). unfold request_budget.
  repeat case_decide;
    repeat match goal with H : prompt_post _ _ _ = prompt_post _ _ _ |- _ => apply prompt_post_inj in H end;
    subst; try lia; congruence.
Qed.

(** C24: in every run of [generateFullTravelPlan], under every
    interleaving and every answer, counting the calls of the branches
    left running after a rejected [Promise.all]: each of the three
    prompts is posted at most three times, at most nine posts are sent
    in all, and [dbConnect] and [getPopularDestinations] are each called
    at most once. A failing prompt is retried, but never beyond the
    three attempts of [fetchData], even when the call has already thrown. *)
Theorem plan_call_bounds api_key input tr s :
  sreach (start (generateFullTravelPlan api_key input)) tr s ->
  (forall pid, length (filter (fun o => o = prompt_post api_key input pid) (calls tr)) <= 3)%nat /\
  (length (filter (fun o => is_post o = true) (calls tr)) <= 9)%nat /\
  (length (filter (fun o => o = OpConnect) (calls tr)) <= 1)%nat /\
  (length (filter (fun o => o = OpPopular (destination input)) (calls tr)) <= 1)%nat.
Proof.
  intros Hr. split_and!; [intros pid| | |].
  - assert (HQ : forall plan, OpCreate plan <> prompt_post api_key input pid) by (intros ? Hc; discriminate).
    etrans; [apply (plan_count _ HQ _ _ _ _ Hr)|].
    pose proof (request_budgets_le api_key input pid). unfold cnt. repeat case_decide; try discriminate; lia.
  - assert (HQ : forall plan, is_post (OpCreate plan) <> true) by (intros ? Hc; discriminate).
    etrans; [apply (plan_count _ HQ _ _ _ _ Hr)|].
    unfold cnt, request_budget. repeat case_decide; simpl in *; try done; lia.
  - assert (HQ : forall plan, OpCreate plan <> OpConnect) by (intros ? Hc; discriminate).
    etrans; [apply (plan_count _ HQ _ _ _ _ Hr)|].
    unfold cnt, request_budget. repeat case_decide; try discriminate; lia.
  - assert (HQ : forall plan, OpCreate plan <> OpPopular (destination input)) by (intros ? Hc; discriminate).
    etrans; [apply (plan_count _ HQ _ _ _ _ Hr)|].
    unfold cnt, request_budget. repeat case_decide; try discriminate; lia.
Qed.

(** Witness of C24: the run in which every call succeeds. *)
Lemma plan_call_bounds_witness :
  exists tr,
  (forall pid, length (filter (fun o => o = prompt_post JUndef sample_form pid) (calls tr)) <= 3)%nat /\
  (length (filter (fun o => is_post o = true) (calls tr)) <= 9)%nat /\
  (length (filter (fun o => o = OpConnect) (calls tr)) <= 1)%nat /\
  (length (filter (fun o => o = OpPopular (destination sample_form)) (calls tr)) <= 1)%nat.
Proof. destruct success_run as [tr H]. exists tr. exact (plan_call_bounds _ _ _ _ H). Defined.
